(** * Verification of [arm_sin_f32] (CMSIS DSP library, FastMathFunctions)

    A shallow embedding of
    [src/CMSIS/DSP_Lib/Source/FastMathFunctions/arm_sin_f32.c]:
    the 259-entry constant [sinTable] and the routine [arm_sin_f32], which
    folds an angle in radians into one period, locates it in the table and
    blends four neighbouring samples with cubic weights.

    Single-precision values are IEEE-754 binary32 numbers, modelled with the
    Standard Library's [spec_float] at precision 24 and maximal exponent 128;
    every arithmetic operation of the source is the correctly rounded
    (round-to-nearest-even) operation of [SpecFloat].  A C construct whose
    behaviour is undefined (a float-to-integer conversion whose value does not
    fit, a signed overflow, a read outside [sinTable]) makes the computation
    fail: the routine lives in a small state-and-error monad over the table's
    storage. *)

From Stdlib Require Import ZArith QArith Qabs Qround Bool List Lia Lra Psatz.
From Stdlib Require Import Floats.SpecFloat.
From Stdlib Require Import Reals Qreals.
Import ListNotations.

Local Open Scope Z_scope.

(** ** Binary32 arithmetic *)

Module F32.

Definition prec : Z := 24.
Definition emax : Z := 128.

Definition float32 : Type := spec_float.

Definition mul : float32 -> float32 -> float32 := SFmul prec emax.
Definition add : float32 -> float32 -> float32 := SFadd prec emax.
Definition sub : float32 -> float32 -> float32 := SFsub prec emax.
Definition ltb : float32 -> float32 -> bool := SFltb.
Definition opp : float32 -> float32 := SFopp.

Definition zero : float32 := S754_zero false.

Definition is_finite (f : float32) : bool :=
  match f with
  | S754_zero _ | S754_finite _ _ _ => true
  | _ => false
  end.

(** A decimal literal with an [f] suffix denotes the binary32 number nearest
    to it (ties to even): the quotient numerator/denominator, rounded once. *)
Definition of_Q (q : Q) : float32 :=
  match Qnum q with
  | Z0 => S754_zero false
  | Zpos n =>
      SFdiv prec emax (S754_finite false n 0) (S754_finite false (Qden q) 0)
  | Zneg n =>
      SFdiv prec emax (S754_finite true n 0) (S754_finite false (Qden q) 0)
  end.

(** Conversion of an integer to [float32_t], rounded to nearest even. *)
Definition of_int (z : Z) : float32 := binary_normalize prec emax z 0 false.

(** The integral part of a finite number, truncated toward zero. *)
Definition trunc (f : float32) : option Z :=
  match f with
  | S754_zero _ => Some 0
  | S754_finite s m e => Some (cond_Zopp s (Z.shiftl (Zpos m) e))
  | _ => None
  end.

(** [(int32_t) f] and [(uint32_t) f]: defined only when the truncated value
    fits the destination type (C11 6.3.1.4). *)
Definition to_int32 (f : float32) : option Z :=
  match trunc f with
  | Some z => if (- 2 ^ 31 <=? z) && (z <? 2 ^ 31) then Some z else None
  | None => None
  end.

Definition to_uint32 (f : float32) : option Z :=
  match trunc f with
  | Some z => if (0 <=? z) && (z <? 2 ^ 32) then Some z else None
  | None => None
  end.

(** Conversion of a [uint32_t] value to [int32_t]: wraps modulo 2^32. *)
Definition int32_of_uint32 (z : Z) : Z :=
  if z <? 2 ^ 31 then z else z - 2 ^ 32.

(** [n - 1] on [int32_t]: undefined on overflow. *)
Definition int32_pred (n : Z) : option Z :=
  if - 2 ^ 31 <=? n - 1 then Some (n - 1) else None.

(** The rational value of a finite number (0 for the others). *)
Definition B2Q (f : float32) : Q :=
  match f with
  | S754_finite s m e =>
      if 0 <=? e then inject_Z (cond_Zopp s (Zpos m * 2 ^ e))
      else Qmake (cond_Zopp s (Zpos m)) (Z.to_pos (2 ^ (- e)))
  | _ => 0%Q
  end.

End F32.

Import F32.

(** ** The sample table *)

(** Modelled from the spec: [TABLE_SIZE] is a macro of [arm_math.h], which is
    not among the sources; the spec gives [tableSize = 256]. *)
Definition TABLE_SIZE : Z := 256.

(** The literals of [sinTable], as written in the source. *)
Definition sinTable_literals : list Q := [
  -0.024541229009628296; 0.000000000000000000; 0.024541229009628296;
  0.049067676067352295; 0.073564566671848297; 0.098017141222953796;
  0.122410677373409270; 0.146730467677116390;
  0.170961886644363400; 0.195090323686599730; 0.219101235270500180;
  0.242980182170867920; 0.266712754964828490; 0.290284663438797000;
  0.313681751489639280; 0.336889863014221190;
  0.359895050525665280; 0.382683426141738890; 0.405241310596466060;
  0.427555084228515630; 0.449611335992813110; 0.471396744251251220;
  0.492898195981979370; 0.514102756977081300;
  0.534997642040252690; 0.555570244789123540; 0.575808167457580570;
  0.595699310302734380; 0.615231573581695560; 0.634393274784088130;
  0.653172850608825680; 0.671558976173400880;
  0.689540565013885500; 0.707106769084930420; 0.724247097969055180;
  0.740951120853424070; 0.757208824157714840; 0.773010432720184330;
  0.788346409797668460; 0.803207516670227050;
  0.817584812641143800; 0.831469595432281490; 0.844853579998016360;
  0.857728600502014160; 0.870086967945098880; 0.881921291351318360;
  0.893224298954010010; 0.903989315032958980;
  0.914209783077239990; 0.923879504203796390; 0.932992815971374510;
  0.941544055938720700; 0.949528157711029050; 0.956940352916717530;
  0.963776051998138430; 0.970031261444091800;
  0.975702106952667240; 0.980785250663757320; 0.985277652740478520;
  0.989176511764526370; 0.992479562759399410; 0.995184719562530520;
  0.997290432453155520; 0.998795449733734130;
  0.999698817729949950; 1.000000000000000000; 0.999698817729949950;
  0.998795449733734130; 0.997290432453155520; 0.995184719562530520;
  0.992479562759399410; 0.989176511764526370;
  0.985277652740478520; 0.980785250663757320; 0.975702106952667240;
  0.970031261444091800; 0.963776051998138430; 0.956940352916717530;
  0.949528157711029050; 0.941544055938720700;
  0.932992815971374510; 0.923879504203796390; 0.914209783077239990;
  0.903989315032958980; 0.893224298954010010; 0.881921291351318360;
  0.870086967945098880; 0.857728600502014160;
  0.844853579998016360; 0.831469595432281490; 0.817584812641143800;
  0.803207516670227050; 0.788346409797668460; 0.773010432720184330;
  0.757208824157714840; 0.740951120853424070;
  0.724247097969055180; 0.707106769084930420; 0.689540565013885500;
  0.671558976173400880; 0.653172850608825680; 0.634393274784088130;
  0.615231573581695560; 0.595699310302734380;
  0.575808167457580570; 0.555570244789123540; 0.534997642040252690;
  0.514102756977081300; 0.492898195981979370; 0.471396744251251220;
  0.449611335992813110; 0.427555084228515630;
  0.405241310596466060; 0.382683426141738890; 0.359895050525665280;
  0.336889863014221190; 0.313681751489639280; 0.290284663438797000;
  0.266712754964828490; 0.242980182170867920;
  0.219101235270500180; 0.195090323686599730; 0.170961886644363400;
  0.146730467677116390; 0.122410677373409270; 0.098017141222953796;
  0.073564566671848297; 0.049067676067352295;
  0.024541229009628296; 0.000000000000000122; -0.024541229009628296;
  -0.049067676067352295; -0.073564566671848297; -0.098017141222953796;
  -0.122410677373409270; -0.146730467677116390;
  -0.170961886644363400; -0.195090323686599730; -0.219101235270500180;
  -0.242980182170867920; -0.266712754964828490; -0.290284663438797000;
  -0.313681751489639280; -0.336889863014221190;
  -0.359895050525665280; -0.382683426141738890; -0.405241310596466060;
  -0.427555084228515630; -0.449611335992813110; -0.471396744251251220;
  -0.492898195981979370; -0.514102756977081300;
  -0.534997642040252690; -0.555570244789123540; -0.575808167457580570;
  -0.595699310302734380; -0.615231573581695560; -0.634393274784088130;
  -0.653172850608825680; -0.671558976173400880;
  -0.689540565013885500; -0.707106769084930420; -0.724247097969055180;
  -0.740951120853424070; -0.757208824157714840; -0.773010432720184330;
  -0.788346409797668460; -0.803207516670227050;
  -0.817584812641143800; -0.831469595432281490; -0.844853579998016360;
  -0.857728600502014160; -0.870086967945098880; -0.881921291351318360;
  -0.893224298954010010; -0.903989315032958980;
  -0.914209783077239990; -0.923879504203796390; -0.932992815971374510;
  -0.941544055938720700; -0.949528157711029050; -0.956940352916717530;
  -0.963776051998138430; -0.970031261444091800;
  -0.975702106952667240; -0.980785250663757320; -0.985277652740478520;
  -0.989176511764526370; -0.992479562759399410; -0.995184719562530520;
  -0.997290432453155520; -0.998795449733734130;
  -0.999698817729949950; -1.000000000000000000; -0.999698817729949950;
  -0.998795449733734130; -0.997290432453155520; -0.995184719562530520;
  -0.992479562759399410; -0.989176511764526370;
  -0.985277652740478520; -0.980785250663757320; -0.975702106952667240;
  -0.970031261444091800; -0.963776051998138430; -0.956940352916717530;
  -0.949528157711029050; -0.941544055938720700;
  -0.932992815971374510; -0.923879504203796390; -0.914209783077239990;
  -0.903989315032958980; -0.893224298954010010; -0.881921291351318360;
  -0.870086967945098880; -0.857728600502014160;
  -0.844853579998016360; -0.831469595432281490; -0.817584812641143800;
  -0.803207516670227050; -0.788346409797668460; -0.773010432720184330;
  -0.757208824157714840; -0.740951120853424070;
  -0.724247097969055180; -0.707106769084930420; -0.689540565013885500;
  -0.671558976173400880; -0.653172850608825680; -0.634393274784088130;
  -0.615231573581695560; -0.595699310302734380;
  -0.575808167457580570; -0.555570244789123540; -0.534997642040252690;
  -0.514102756977081300; -0.492898195981979370; -0.471396744251251220;
  -0.449611335992813110; -0.427555084228515630;
  -0.405241310596466060; -0.382683426141738890; -0.359895050525665280;
  -0.336889863014221190; -0.313681751489639280; -0.290284663438797000;
  -0.266712754964828490; -0.242980182170867920;
  -0.219101235270500180; -0.195090323686599730; -0.170961886644363400;
  -0.146730467677116390; -0.122410677373409270; -0.098017141222953796;
  -0.073564566671848297; -0.049067676067352295;
  -0.024541229009628296; -0.000000000000000245; 0.024541229009628296
]%Q.

(** [static const float32_t sinTable[259]]. *)
Definition sinTable : list float32 :=
  Eval vm_compute in map of_Q sinTable_literals.

(** ** Memory: the table's storage, and failing computations *)

Definition Mem : Type := list float32.

Definition M (A : Type) : Type := Mem -> option (A * Mem).

Definition ret {A} (a : A) : M A := fun m => Some (a, m).

Definition bind {A B} (c : M A) (k : A -> M B) : M B :=
  fun m => match c m with
           | Some (a, m') => k a m'
           | None => None
           end.

Definition undefined {A} : M A := fun _ => None.

Definition defined {A} (o : option A) : M A :=
  match o with
  | Some a => ret a
  | None => undefined
  end.

(** [sinTable[i]]: a read, undefined outside the array. *)
Definition load (i : Z) : M float32 :=
  fun m => if i <? 0 then None
           else match nth_error m (Z.to_nat i) with
                | Some v => Some (v, m)
                | None => None
                end.

Notation "x <- c ;; k" := (bind c (fun x => k))
  (at level 61, c at next level, right associativity).
Notation "' pat <- c ;; k" := (bind c (fun x => match x with pat => k end))
  (at level 61, pat pattern, c at next level, right associativity).

(** ** The cubic interpolation weights, over any arithmetic *)

Section CubicWeights.

Variable T : Type.
Variables (tmul tadd tsub : T -> T -> T).
(** the values of the literals [1.0f], [0.5f], [0.166666667f] and
    [0.3333333333333f] *)
Variables (one half sixth third : T).

Local Infix "*" := tmul.
Local Infix "+" := tadd.
Local Infix "-" := tsub.

(** The multiply-adds of the source between "Cubic interpolation process"
    and "Calculate sin value", in program order; [wb] and [wc] are assigned
    twice. *)
Definition cubic_weights (fract : T) : T * T * T * T :=
  let fractsq := fract * fract in
  let fractby2 := fract * half in
  let fractby6 := fract * sixth in
  let fractby3 := fract * third in
  let fractsqby2 := fractsq * half in
  let frby2xfrsq := fractby2 * fractsq in
  let frby6xfrsq := fractby6 * fractsq in
  let oneminusfractby2 := one - fractby2 in
  let wb := fractsqby2 - fractby3 in
  let wc := fractsqby2 + fract in
  let wa := wb - frby6xfrsq in
  let wb := frby2xfrsq - fractsq in
  let wc := wc - frby2xfrsq in
  let wd := frby6xfrsq - fractby6 in
  let wb := wb + oneminusfractby2 in
  (wa, wb, wc, wd).

(** [sinVal = wa * a; sinVal = (sinVal + (b * wb)) + ((c * wc) + (d * wd))]. *)
Definition blend (w : T * T * T * T) (a b c d : T) : T :=
  let '(wa, wb, wc, wd) := w in
  let sinVal := wa * a in
  (sinVal + (b * wb)) + ((c * wc) + (d * wd)).

End CubicWeights.

Definition half32 : float32 := of_Q 0.5.
Definition sixth32 : float32 := of_Q 0.166666667.
Definition third32 : float32 := of_Q 0.3333333333333.
Definition one32 : float32 := of_Q 1.0.

Definition weights32 : float32 -> float32 * float32 * float32 * float32 :=
  cubic_weights float32 mul add sub one32 half32 sixth32 third32.

Definition blend32 := blend float32 mul add.

(** ** [arm_sin_f32] *)

(** [in = x * 0.159154943092f], the first value of the variable [in]. *)
Definition scaled (x : float32) : float32 := mul x (of_Q 0.159154943092).

(** Period count [n] and folding: the second value of the variable [in]. *)
Definition fold_period (x : float32) : option float32 :=
  let in_ := scaled x in
  match to_int32 in_ with
  | None => None
  | Some n =>
      match (if ltb x (of_Q 0.0) then int32_pred n else Some n) with
      | None => None
      | Some n => Some (sub in_ (of_int n))
      end
  end.

(** Table position: the clamped [index] and the fractional offset [fract]. *)
Definition locate (in_ : float32) : option (Z * float32) :=
  let tableSize := TABLE_SIZE in
  match to_uint32 (mul (of_int tableSize) in_) with
  | None => None
  | Some u =>
      let index := int32_of_uint32 u in
      let fract := sub (mul (of_int tableSize) in_) (of_int index) in
      let index := if index <? 0 then 0
                   else if index >? 256 then 256 else index in
      Some (index, fract)
  end.

(** [tablePtr = &sinTable[index]] and the four reads [tablePtr[0..3]]. *)
Definition fetch (index : Z) : M (float32 * float32 * float32 * float32) :=
  a <- load (index + 0) ;;
  b <- load (index + 1) ;;
  c <- load (index + 2) ;;
  d <- load (index + 3) ;;
  ret (a, b, c, d).

Definition arm_sin_f32 (x : float32) : M float32 :=
  in_ <- defined (fold_period x) ;;
  '(index, fract) <- defined (locate in_) ;;
  '(a, b, c, d) <- fetch index ;;
  ret (blend32 (weights32 fract) a b c d).

(** A call of the routine in a program whose memory holds [sinTable]. *)
Definition run (x : float32) : option (float32 * Mem) := arm_sin_f32 x sinTable.

Definition result (x : float32) : option float32 := option_map fst (run x).

(** Two results agree within [tol]: both are finite and their values differ
    by at most [tol]. *)
Definition within (tol : Q) (f : float32) (expected : Q) : bool :=
  is_finite f && Qle_bool (Qabs (B2Q f - expected)) tol.

Definition returns_within (tol : Q) (x : float32) (expected : Q) : bool :=
  match result x with
  | Some y => within tol y expected
  | None => false
  end.

Definition is_zero (f : float32) : bool :=
  match f with
  | S754_zero _ => true
  | _ => false
  end.

(** The angle -2*pi as the source would write it. *)
Definition minus_two_pi : float32 := of_Q (-6.2831853).

Definition table_entry_in_range (i : nat) (v : float32) : bool :=
  is_finite v
  && Qle_bool (-1) (B2Q v) && Qle_bool (B2Q v) 1
  && Bool.eqb (Qeq_bool (B2Q v) 1) (Nat.eqb i 65)
  && Bool.eqb (Qeq_bool (B2Q v) (-1)) (Nat.eqb i 193).

(** The cubic basis as the specification writes it, over the rationals. *)
Definition basis (fract : Q) : Q * Q * Q * Q :=
  (- (1 # 6) * fract ^ 3 + (1 # 2) * fract ^ 2 - (1 # 3) * fract,
   (1 # 2) * fract ^ 3 - fract ^ 2 - (1 # 2) * fract + 1,
   - (1 # 2) * fract ^ 3 + (1 # 2) * fract ^ 2 + fract,
   (1 # 6) * fract ^ 3 - (1 # 6) * fract)%Q.


Definition quad_eq (v w : Q * Q * Q * Q) : Prop :=
  let '(va, vb, vc, vd) := v in
  let '(wa, wb, wc, wd) := w in
  (va == wa /\ vb == wb /\ vc == wc /\ vd == wd)%Q.

Definition weights_value (w : float32 * float32 * float32 * float32) :
  Q * Q * Q * Q :=
  let '(wa, wb, wc, wd) := w in (B2Q wa, B2Q wb, B2Q wc, B2Q wd).

(** The source's multiply-adds evaluated without rounding. *)
Definition weightsQ (one half sixth third : Q) : Q -> Q * Q * Q * Q :=
  cubic_weights Q Qmult Qplus Qminus one half sixth third.

Definition feqb (f g : float32) : bool :=
  match f, g with
  | S754_zero s, S754_zero t => Bool.eqb s t
  | S754_infinity s, S754_infinity t => Bool.eqb s t
  | S754_nan, S754_nan => true
  | S754_finite s m e, S754_finite t n k =>
      Bool.eqb s t && Pos.eqb m n && Z.eqb e k
  | _, _ => false
  end.

(** With [fract] a zero of either sign and the four reads inside the table,
    the blend is the second sample. *)
Definition zero_fract_blend_ok (i : nat) : bool :=
  forallb
    (fun fract =>
       match fetch (Z.of_nat i) sinTable, nth_error sinTable (S i) with
       | Some ((a, b, c, d), _), Some sample =>
           feqb (blend32 (weights32 fract) a b c d) sample
       | _, _ => false
       end)
    [S754_zero false; S754_zero true].


(** ** Rounding in [SpecFloat], step by step *)

(** The mantissa after a right shift by [k > 0] and rounding to nearest
    even. *)
Definition shr_round (m k : Z) : Z :=
  let mrs := fst (shr (Build_shr_record m false false) 0 k) in
  round_nearest_even (shr_m mrs) (loc_of_shr_record mrs).

(** [binary_round_aux] on an exact nonnegative mantissa: a shift to the
    format's exponent with rounding, a second shift when the rounding carried
    into one more digit, and the range check. *)
Definition shift_round (prec emax m e : Z) : Z * Z :=
  let k := fexp prec emax (Zdigits2 m + e) - e in
  if 0 <? k then (shr_round m k, e + k) else (m, e).

Definition shift_trunc (prec emax m e : Z) : Z * Z :=
  let k := fexp prec emax (Zdigits2 m + e) - e in
  if 0 <? k then (m / 2 ^ k, e + k) else (m, e).

Definition round_steps (prec emax m e : Z) : Z * Z :=
  shift_trunc prec emax (fst (shift_round prec emax m e))
              (snd (shift_round prec emax m e)).

Definition pack (prec emax : Z) (s : bool) (me : Z * Z) : spec_float :=
  match fst me with
  | Z0 => S754_zero s
  | Zpos p =>
      if snd me <=? emax - prec then S754_finite s p (snd me)
      else S754_infinity s
  | Zneg _ => S754_nan
  end.

(** A pair mantissa, exponent whose value is at most [2^p]. *)
Definition le_pow2 (p : Z) (me : Z * Z) : Prop :=
  0 <= fst me /\ snd me <= p /\ fst me <= 2 ^ (p - snd me).

(** A binary32 number that is a zero or positive and at most [2^p]. *)
Definition in_0_pow2 (p : Z) (f : float32) : Prop :=
  match f with
  | S754_zero _ => True
  | S754_finite false m e => e <= p /\ Zpos m <= 2 ^ (p - e)
  | _ => False
  end.

(** ** Rational enclosures of the sine *)

Fixpoint factZ (n : nat) : Z :=
  match n with
  | O => 1
  | S k => Z.of_nat (S k) * factZ k
  end.

Fixpoint Qpow (a : Q) (k : nat) : Q :=
  match k with
  | O => 1%Q
  | S k' => (a * Qpow a k')%Q
  end.

Fixpoint sumQ (f : nat -> Q) (n : nat) : Q :=
  match n with
  | O => f O
  | S k => (sumQ f k + f (S k))%Q
  end.

(** The terms of the Taylor series of sine and cosine at [a]. *)
Definition sin_termQ (a : Q) (i : nat) : Q :=
  (Qpow (-1) i * (Qpow a (2 * i + 1) / inject_Z (factZ (2 * i + 1))))%Q.

Definition cos_termQ (a : Q) (i : nat) : Q :=
  (Qpow (-1) i * (Qpow a (2 * i) / inject_Z (factZ (2 * i))))%Q.

(** Fixed-point numbers: an integer [z] stands for [z / 2^64]. *)
Definition fix_bits : Z := 64.
Definition fix_one : Z := Eval vm_compute in 2 ^ fix_bits.

(** The largest fixed-point number below a rational, and the fixed-point
    product rounded down. *)
Definition fix_floor (q : Q) : Z := Qfloor (q * inject_Z fix_one).
Definition fix_mul (x y : Z) : Z := Z.shiftr (x * y) fix_bits.

(** Approximations [S], [C] of the sine and cosine of an angle with error
    bounds [rs], [rc], in fixed point. *)
Record trig := { tS : Z; tC : Z; trs : Z; trc : Z }.

(** From the partial sums of orders [2n+1] and [2n+2], for an angle in
    [0, 2]. *)
Definition trig_base (n : nat) (a : Q) : trig :=
  let slo := sumQ (sin_termQ a) (2 * n + 1) in
  let shi := sumQ (sin_termQ a) (2 * (n + 1)) in
  let clo := sumQ (cos_termQ a) (2 * n + 1) in
  let chi := sumQ (cos_termQ a) (2 * (n + 1)) in
  {| tS := fix_floor slo;
     tC := fix_floor clo;
     trs := fix_floor (shi - slo) + 2;
     trc := fix_floor (chi - clo) + 2 |}.

(** Doubling the angle: sin 2t = 2 sin t cos t, cos 2t = 1 - 2 sin^2 t. *)
Definition trig_double (t : trig) : trig :=
  {| tS := fix_mul (2 * tS t) (tC t);
     tC := fix_one - fix_mul (2 * tS t) (tS t);
     trs := 2 * trs t + fix_mul (2 * Z.abs (tS t)) (trc t) + 2;
     trc := fix_mul (2 * trs t) (fix_one + Z.abs (tS t)) + 2 |}.

Fixpoint trig_doublings (j : nat) (t : trig) : trig :=
  match j with
  | O => t
  | S j' => trig_doublings j' (trig_double t)
  end.

(** An approximation of [sin q] with an error bound, from the Taylor sums of
    order [2n+1] and [2n+2] at [|q| / 2^j] and [j] doublings; none when the
    halved angle is still above 2. *)
Definition sin_enclosure (n j : nat) (q : Q) : option (Q * Q) :=
  let a := Qred (Qabs q / Qpow 2 j) in
  if Qle_bool a 2 then
    let t := trig_doublings j (trig_base n a) in
    Some ((if Qle_bool 0 q then tS t else - tS t) # Z.to_pos fix_one,
          trs t # Z.to_pos fix_one)
  else None.

Definition fix_val (z : Z) : R := (IZR z / IZR fix_one)%R.

Definition encloses (t : trig) (x : R) : Prop :=
  (Rabs (sin x - fix_val (tS t)) <= fix_val (trs t)
   /\ Rabs (cos x - fix_val (tC t)) <= fix_val (trc t))%R.



(** The real value of a finite binary32 number. *)
Definition B2R (f : float32) : R := Q2R (B2Q f).

(** The routine's result at [x] is further than [tol] from every point of the
    enclosure of [sin x]. *)
Definition inaccurate (tol : Q) (n j : nat) (x : float32) : bool :=
  match result x, sin_enclosure n j (B2Q x) with
  | Some y, Some (c, r) =>
      negb (Qle_bool (Qabs (B2Q y - c) - r) tol)
  | _, _ => false
  end.


(** ** Real values and rounding errors *)

(** Powers of two with integer exponents, and the value of a mantissa with
    an exponent. *)
Definition bpow (e : Z) : R := powerRZ 2 e.
Definition F2R (m e : Z) : R := (IZR m * bpow e)%R.

(** The half unit in the last place incurred by one rounding, and the
    smallest positive binary32 number halved. *)
Definition u32 : R := bpow (-24).
Definition eta32 : R := bpow (-150).

Definition cond_Ropp (s : bool) (r : R) : R := if s then (- r)%R else r.

(** [r] is finite and within one rounding of the real number [v]. *)
Definition rounds_to (r : float32) (v : R) : Prop :=
  is_finite r = true /\ (Rabs (B2R r - v) <= u32 * Rabs v + eta32)%R.

(** ** Straight-line binary32 code as expressions *)

Inductive expr : Type :=
| Var (i : nat)
| Lit (f : float32)
| Mul (a b : expr)
| Add (a b : expr)
| Sub (a b : expr).

(** The binary32 value of an expression. *)
Fixpoint evalF (env : list float32) (e : expr) : float32 :=
  match e with
  | Var i => nth i env zero
  | Lit f => f
  | Mul a b => mul (evalF env a) (evalF env b)
  | Add a b => add (evalF env a) (evalF env b)
  | Sub a b => sub (evalF env a) (evalF env b)
  end.

(** Its value when no operation rounds. *)
Fixpoint evalR (env : list R) (e : expr) : R :=
  match e with
  | Var i => nth i env 0%R
  | Lit f => B2R f
  | Mul a b => (evalR env a * evalR env b)%R
  | Add a b => (evalR env a + evalR env b)%R
  | Sub a b => (evalR env a - evalR env b)%R
  end.

Definition u32Q : Q := 1 # (2 ^ 24).
Definition eta32Q : Q := 1 # (2 ^ 150).

(** A bound [M] on the magnitude of the unrounded value and a bound [E] on
    the distance between the binary32 value and the unrounded one, from
    bounds on the magnitudes of the variables; none when a magnitude could
    pass 2^100. *)
Definition op_bound (M E : Q) : option (Q * Q) :=
  if Qle_bool (M + E) (inject_Z (2 ^ 100)) then Some (Qred M, Qred E)
  else None.

Fixpoint expr_bound (vars : list Q) (e : expr) : option (Q * Q) :=
  match e with
  | Var i => Some (nth i vars 0%Q, 0%Q)
  | Lit f => if is_finite f then Some (Qabs (B2Q f), 0%Q) else None
  | Mul a b =>
      match expr_bound vars a, expr_bound vars b with
      | Some (Ma, Ea), Some (Mb, Eb) =>
          op_bound (Ma * Mb)
            ((Ma + Ea) * Eb + Mb * Ea + u32Q * ((Ma + Ea) * (Mb + Eb)) + eta32Q)
      | _, _ => None
      end
  | Add a b | Sub a b =>
      match expr_bound vars a, expr_bound vars b with
      | Some (Ma, Ea), Some (Mb, Eb) =>
          op_bound (Ma + Mb)
            (Ea + Eb + u32Q * ((Ma + Ea) + (Mb + Eb)) + eta32Q)
      | _, _ => None
      end
  end.

(** The interpolation of [arm_sin_f32] as an expression in the variables
    [fract], [a], [b], [c], [d]. *)
Definition weights_expr : expr * expr * expr * expr :=
  cubic_weights expr Mul Add Sub (Lit one32) (Lit half32) (Lit sixth32)
                (Lit third32) (Var 0).

Definition blend_expr : expr :=
  blend expr Mul Add weights_expr (Var 1) (Var 2) (Var 3) (Var 4).

(** The interpolation without rounding: the same operations on reals, with
    the values of the binary32 literals. *)
Definition weightsR : R -> R * R * R * R :=
  cubic_weights R Rmult Rplus Rminus (B2R one32) (B2R half32) (B2R sixth32)
                (B2R third32).

Definition blendR (t a b c d : R) : R := blend R Rmult Rplus (weightsR t) a b c d.

(** The variables of an environment are finite and within the magnitudes
    [vars]. *)
Definition within_bounds (env : list float32) (vars : list Q) : Prop :=
  Forall2 (fun f v => is_finite f = true /\ (Rabs (B2R f) <= Q2R v)%R) env vars.

(** The rounding error of an expression stays below [tol] when the
    magnitudes of its variables stay below [vars]. *)
Definition expr_error_ok (vars : list Q) (e : expr) (tol : Q) : bool :=
  match expr_bound vars e with
  | Some (_, E) => Qle_bool E tol
  | None => false
  end.

(** A table entry is finite and lies between -1 and 1. *)
Definition entry_bounded (v : float32) : bool :=
  is_finite v && Qle_bool (-1) (B2Q v) && Qle_bool (B2Q v) 1.

(** ** The table against the sine *)

(** Ten decimals of pi, rounded down and up. *)
Definition pi_lo : Q := 3.1415926535.
Definition pi_hi : Q := 3.1415926536.

(** The sign of the sine of a rational, when its enclosure settles it. *)
Definition sin_positive (q : Q) : bool :=
  match sin_enclosure 1 14 q with
  | Some (c, r) => negb (Qle_bool (c - r) 0)
  | None => false
  end.

Definition sin_negative (q : Q) : bool :=
  match sin_enclosure 1 14 q with
  | Some (c, r) => negb (Qle_bool 0 (c + r))
  | None => false
  end.

(** The table step 2 pi / 256, from the lower bound of pi. *)
Definition table_step : Q := Eval vm_compute in Qred (pi_lo / 128).

(** The four samples read at an index. *)
Definition window (k : nat) : option (float32 * float32 * float32 * float32) :=
  match nth_error sinTable k, nth_error sinTable (k + 1),
        nth_error sinTable (k + 2), nth_error sinTable (k + 3) with
  | Some a, Some b, Some c, Some d => Some (a, b, c, d)
  | _, _, _, _ => None
  end.

(** The coefficients, from degree 0 to 3, of the cubic in [fract] that the
    weights and the blend of the source compute when nothing rounds; [h],
    [s] and [t] are the values of the literals [0.5f], [0.166666667f] and
    [0.3333333333333f]. *)
Definition cubic_coeffs (h s t : Q) (a b c d : Q) : Q * Q * Q * Q :=
  (b,
   - (t * a) - h * b + c - s * d,
   h * a - b + h * c,
   - (s * a) + h * b - h * c + s * d)%Q.

(** The angle 0, and the sum of two enclosed angles:
    sin (x + y) = sin x cos y + cos x sin y,
    cos (x + y) = cos x cos y - sin x sin y. *)
Definition trig_zero : trig := {| tS := 0; tC := fix_one; trs := 0; trc := 0 |}.

Definition trig_add (t u : trig) : trig :=
  {| tS := fix_mul (tS t) (tC u) + fix_mul (tC t) (tS u);
     tC := fix_mul (tC t) (tC u) - fix_mul (tS t) (tS u);
     trs := trs t + fix_mul (Z.abs (tS t)) (trc u)
            + fix_mul (trc t) (Z.abs (tS u) + trs u)
            + fix_mul (Z.abs (tC t)) (trs u) + 5;
     trc := trc t + fix_mul (Z.abs (tC t)) (trc u)
            + fix_mul (trs t) (Z.abs (tS u) + trs u)
            + fix_mul (Z.abs (tS t)) (trs u) + 5 |}.

(** A fixed-point number above a rational. *)
Definition fix_ceil (q : Q) : Z := fix_floor q + 1.

(** Bounds, in fixed point, on the distance between the first sample after
    the window's start and the sine at [k * table_step], and on the distance
    between the coefficients of the cubic and the ones of the cubic Taylor
    polynomial of the sine there, in the variable [fract]; [tr] encloses the
    sine and cosine of [k * table_step]. *)
Definition piece_errors (h s t : Q) (tr : trig) (k : nat) : option (Z * Z) :=
  match window k with
  | Some (a, b, c, d) =>
      let '(p0, p1, p2, p3) :=
        cubic_coeffs h s t (B2Q a) (B2Q b) (B2Q c) (B2Q d) in
      let p1 := Qred p1 in
      let p2 := Qred p2 in
      let p3 := Qred p3 in
      let w := table_step in
      let sn := tS tr # Z.to_pos fix_one in
      let rs := trs tr # Z.to_pos fix_one in
      let cs := tC tr # Z.to_pos fix_one in
      let rc := trc tr # Z.to_pos fix_one in
      let e0 := fix_ceil (Qabs (p0 - sn) + rs) in
      let e1 := fix_ceil (Qabs (p1 - w * cs) + w * rc) in
      let e2 :=
        fix_ceil (Qabs (p2 + w * w * (1 # 2) * sn) + w * w * (1 # 2) * rs) in
      let e3 :=
        fix_ceil (Qabs (p3 + w * w * w * (1 # 6) * cs)
                  + w * w * w * (1 # 6) * rc) in
      Some (e0, e0 + e1 + e2 + e3)
  | None => None
  end.

Definition piece_close (h s t : Q) (tol0 tol : Z) (tr : trig) (k : nat) : bool :=
  match piece_errors h s t tr k with
  | Some (e0, e) => (e0 <=? tol0) && (e <=? tol)
  | None => false
  end.

(** The pieces [k], [k + 1], ..., [k + n - 1], the enclosure moving on by
    one table step from each to the next. *)
Fixpoint pieces_close (h s t : Q) (tol0 tol : Z) (step cur : trig)
         (k n : nat) : bool :=
  match n with
  | O => true
  | S n' =>
      piece_close h s t tol0 tol cur k
      && pieces_close h s t tol0 tol step (trig_add cur step) (S k) n'
  end.

(** The remainder of the Taylor cubic over one table step. *)
Definition taylor_rem : R :=
  (Q2R table_step ^ 4 / 24 + Q2R table_step ^ 5 / 120)%R.

(** ** Shapes of binary32 numbers and of table entries *)

(** A binary32 number whose mantissa fits 24 bits. *)
Definition mantissa_bounded (f : float32) : Prop :=
  match f with
  | S754_finite _ m _ => Zpos m < 2 ^ 24
  | _ => True
  end.

(** The position 1.0 written with exponent [-k] gives the index 256. *)
Definition one_gives_256 (k : nat) : bool :=
  match locate (S754_finite false (Z.to_pos (2 ^ Z.of_nat k)) (- Z.of_nat k)) with
  | Some (index, _) => index =? 256
  | None => false
  end.

(** The entries [k] and [258 - k] are opposite binary32 numbers. *)
Definition opposite_entries (k : nat) : bool :=
  match nth_error sinTable k, nth_error sinTable (258 - k) with
  | Some v, Some w => feqb v (opp w)
  | _, _ => false
  end.

(** * Properties *)

(** ** The table *)

Lemma sinTable_literals_rounded : sinTable = map of_Q sinTable_literals.
Proof. vm_compute. reflexivity. Qed.

Lemma sinTable_length : length sinTable = 259%nat.
Proof. reflexivity. Qed.

Lemma load_Some (i : Z) (m : Mem) (v : float32) :
  load i m = Some (v, m) <-> 0 <= i /\ nth_error m (Z.to_nat i) = Some v.
Proof.
  unfold load. destruct (Z.ltb_spec i 0) as [Hneg | Hpos].
  - split; [discriminate | lia].
  - destruct (nth_error m (Z.to_nat i)) as [w |].
    + split.
      * intros H. injection H as ->. auto.
      * intros [_ H]. injection H as ->. reflexivity.
    + split; [discriminate | intros [_ H]; discriminate].
Qed.

(** A read never changes the memory. *)
Lemma load_mem (i : Z) (m m' : Mem) (v : float32) :
  load i m = Some (v, m') -> m' = m.
Proof.
  unfold load. destruct (i <? 0); [discriminate |].
  destruct (nth_error m (Z.to_nat i)); [| discriminate].
  intros H. injection H as _ <-. reflexivity.
Qed.

Lemma load_in_bounds (i : Z) (m : Mem) :
  (exists v, load i m = Some (v, m)) <-> 0 <= i < Z.of_nat (length m).
Proof.
  split.
  - intros [v H]. apply load_Some in H as [Hi H].
    assert (Z.to_nat i < length m)%nat
      by (apply nth_error_Some; rewrite H; discriminate).
    lia.
  - intros [Hlo Hhi].
    destruct (nth_error m (Z.to_nat i)) as [v |] eqn:E.
    + exists v. apply load_Some. auto.
    + apply nth_error_None in E. lia.
Qed.

Lemma fetch_mem (i : Z) (m m' : Mem) r :
  fetch i m = Some (r, m') -> m' = m.
Proof.
  unfold fetch, bind, ret. intros H.
  destruct (load (i + 0) m) as [[a m1] |] eqn:Ea; [| discriminate].
  apply load_mem in Ea as ->.
  destruct (load (i + 1) m) as [[b m2] |] eqn:Eb; [| discriminate].
  apply load_mem in Eb as ->.
  destruct (load (i + 2) m) as [[c m3] |] eqn:Ec; [| discriminate].
  apply load_mem in Ec as ->.
  destruct (load (i + 3) m) as [[d m4] |] eqn:Ed; [| discriminate].
  apply load_mem in Ed as ->.
  injection H as _ <-. reflexivity.
Qed.

(** The four reads succeed exactly when all of [i .. i+3] are indices of the
    array. *)
Lemma fetch_defined (i : Z) (m : Mem) :
  (exists r, fetch i m = Some (r, m)) <-> 0 <= i /\ i + 3 < Z.of_nat (length m).
Proof.
  split.
  - intros [r H]. unfold fetch, bind, ret in H.
    destruct (load (i + 0) m) as [[a m1] |] eqn:Ea; [| discriminate].
    pose proof (load_mem _ _ _ _ Ea) as ->.
    destruct (load (i + 1) m) as [[b m2] |] eqn:Eb; [| discriminate].
    pose proof (load_mem _ _ _ _ Eb) as ->.
    destruct (load (i + 2) m) as [[c m3] |] eqn:Ec; [| discriminate].
    pose proof (load_mem _ _ _ _ Ec) as ->.
    destruct (load (i + 3) m) as [[d m4] |] eqn:Ed; [| discriminate].
    pose proof (load_mem _ _ _ _ Ed) as ->.
    assert (Ha : exists v, load (i + 0) m = Some (v, m)) by eauto.
    assert (Hd : exists v, load (i + 3) m = Some (v, m)) by eauto.
    apply load_in_bounds in Ha, Hd. lia.
  - intros [Hlo Hhi].
    assert (Hl : forall k, 0 <= k <= 3 -> exists v, load (i + k) m = Some (v, m))
      by (intros k Hk; apply load_in_bounds; lia).
    destruct (Hl 0) as [a Ea]; [lia |].
    destruct (Hl 1) as [b Eb]; [lia |].
    destruct (Hl 2) as [c Ec]; [lia |].
    destruct (Hl 3) as [d Ed]; [lia |].
    exists (a, b, c, d). unfold fetch, bind, ret.
    rewrite Ea, Eb, Ec, Ed. reflexivity.
Qed.

(** The routine only reads: whatever it returns, the memory is the one it
    started from. *)
Lemma arm_sin_f32_mem (x : float32) (m m' : Mem) (y : float32) :
  arm_sin_f32 x m = Some (y, m') -> m' = m.
Proof.
  unfold arm_sin_f32, bind, defined, ret, undefined.
  destruct (fold_period x) as [in_ |]; [| discriminate].
  destruct (locate in_) as [[index fract] |]; [| discriminate].
  destruct (fetch index m) as [[[[[a b] c] d] m1] |] eqn:E; [| discriminate].
  apply fetch_mem in E as ->.
  intros H. injection H as _ <-. reflexivity.
Qed.

Lemma nth_error_indexed {A} (l : list A) (s i : nat) :
  nth_error (combine (seq s (length l)) l) i =
  option_map (fun v => ((s + i)%nat, v)) (nth_error l i).
Proof.
  revert s i. induction l as [| a l IH]; intros s i.
  - destruct i; reflexivity.
  - destruct i as [| i]; simpl.
    + rewrite Nat.add_0_r. reflexivity.
    + rewrite IH. replace (S s + i)%nat with (s + S i)%nat by lia. reflexivity.
Qed.

(** A check run over a list with its indices holds at every entry. *)
Lemma forallb_indexed {A} (P : nat -> A -> bool) (l : list A) :
  forallb (fun p => P (fst p) (snd p)) (combine (seq 0 (length l)) l) = true ->
  forall i v, nth_error l i = Some v -> P i v = true.
Proof.
  intros H i v Hv. rewrite forallb_forall in H.
  apply (H (i, v)). apply nth_error_In with (n := i).
  rewrite nth_error_indexed, Hv. reflexivity.
Qed.

Lemma fetch_sinTable_defined (i : Z) :
  (exists r, fetch i sinTable = Some (r, sinTable)) <-> 0 <= i <= 255.
Proof.
  rewrite fetch_defined, sinTable_length. lia.
Qed.

(** The clamp leaves an index between 0 and 256. *)
Lemma locate_index_range (in_ : float32) (index : Z) (fract : float32) :
  locate in_ = Some (index, fract) -> 0 <= index <= 256.
Proof.
  unfold locate.
  destruct (to_uint32 _) as [u |]; [| discriminate].
  intros H. injection H as <- _.
  destruct (Z.ltb_spec (int32_of_uint32 u) 0); [lia |].
  destruct (int32_of_uint32 u >? 256) eqn:E; lia.
Qed.

(** C1 (the claim fails on the code): at the angle -2*pi the folded position
    is exactly 1.0, the index is 256, which the clamp keeps, and the fourth
    read addresses entry 259 of the 259-entry table, one past its last entry
    258; the reads, and with them the call, are undefined. *)
Theorem clamped_index_256_reads_entry_259 :
  fold_period minus_two_pi = Some (of_Q 1.0)
  /\ locate (of_Q 1.0) = Some (256, S754_zero false)
  /\ length sinTable = 259%nat
  /\ load (256 + 3) sinTable = None
  /\ fetch 256 sinTable = None
  /\ result minus_two_pi = None.
Proof. do 5 (split; [vm_compute; reflexivity |]). vm_compute; reflexivity. Qed.

(** C5: the first table entry equals entry 256 and entry 258 equals entry 2,
    both as literals of the source and as binary32 values, and a call of the
    routine leaves the table as it was. *)
Theorem sinTable_wraparound :
  nth_error sinTable_literals 0 = Some (-0.024541229009628296)%Q
  /\ nth_error sinTable_literals 256 = Some (-0.024541229009628296)%Q
  /\ nth_error sinTable_literals 258 = Some 0.024541229009628296%Q
  /\ nth_error sinTable_literals 2 = Some 0.024541229009628296%Q
  /\ nth_error sinTable 0 = nth_error sinTable 256
  /\ nth_error sinTable 258 = nth_error sinTable 2
  /\ nth_error sinTable 0 <> None
  /\ nth_error sinTable 2 <> None
  /\ forall x : float32,
       match run x with
       | Some (_, m') => m' = sinTable
       | None => True
       end.
Proof.
  do 8 (split; [vm_compute; (reflexivity || discriminate) |]).
  intros x. unfold run.
  destruct (arm_sin_f32 x sinTable) as [[y m'] |] eqn:E; [| exact I].
  exact (arm_sin_f32_mem _ _ _ _ E).
Qed.

(** C6: at the five listed angles the routine returns a value within 0.0001 of
    0, 1, 0, -1 and -1. *)
Theorem known_values :
  returns_within 0.0001 (of_Q 0.0) 0 = true
  /\ returns_within 0.0001 (of_Q 1.5707963) 1 = true
  /\ returns_within 0.0001 (of_Q 3.14159265) 0 = true
  /\ returns_within 0.0001 (of_Q 4.71238898) (-1) = true
  /\ returns_within 0.0001 (of_Q (-1.5707963)) (-1) = true.
Proof. do 4 (split; [vm_compute; reflexivity |]). vm_compute; reflexivity. Qed.

(** C10: the table has 259 entries; each of them, at the positions 0 to 258,
    is a finite number of [-1, 1]; the value 1 is taken at entry 65, which is
    1.0, and nowhere else, and the value -1 at entry 193, which is -1.0, and
    nowhere else. *)
Theorem sinTable_range (i : nat) :
  (i < 259)%nat ->
  length sinTable = 259%nat
  /\ nth_error sinTable 65 = Some (of_Q 1.0)
  /\ nth_error sinTable 193 = Some (of_Q (-1.0))
  /\ exists v,
       nth_error sinTable i = Some v
       /\ is_finite v = true
       /\ (-1 <= B2Q v <= 1)%Q
       /\ (B2Q v == 1 <-> i = 65%nat)%Q
       /\ (B2Q v == -1 <-> i = 193%nat)%Q.
Proof.
  intros Hi.
  split; [exact sinTable_length |].
  split; [vm_compute; reflexivity |].
  split; [vm_compute; reflexivity |].
  destruct (nth_error sinTable i) as [v |] eqn:Hv.
  2: { apply nth_error_None in Hv. rewrite sinTable_length in Hv. lia. }
  exists v. split; [reflexivity |].
  assert (Hok : table_entry_in_range i v = true).
  { apply (forallb_indexed table_entry_in_range sinTable); [| exact Hv].
    vm_compute. reflexivity. }
  unfold table_entry_in_range in Hok.
  repeat rewrite andb_true_iff in Hok.
  destruct Hok as [[[[Hfin Hlo] Hhi] Hone] Hmone].
  apply Qle_bool_iff in Hlo, Hhi.
  apply Bool.eqb_prop in Hone, Hmone.
  repeat split; auto.
  - intros H. apply Qeq_bool_iff in H. rewrite H in Hone.
    symmetry in Hone. now apply Nat.eqb_eq.
  - intros ->. apply Qeq_bool_iff. rewrite Hone. reflexivity.
  - intros H. apply Qeq_bool_iff in H. rewrite H in Hmone.
    symmetry in Hmone. now apply Nat.eqb_eq.
  - intros ->. apply Qeq_bool_iff. rewrite Hmone. reflexivity.
Qed.

Lemma sinTable_range_witness :
  length sinTable = 259%nat
  /\ nth_error sinTable 65 = Some (of_Q 1.0)
  /\ nth_error sinTable 193 = Some (of_Q (-1.0))
  /\ exists v,
       nth_error sinTable 193 = Some v
       /\ is_finite v = true
       /\ (-1 <= B2Q v <= 1)%Q
       /\ (B2Q v == 1 <-> 193%nat = 65%nat)%Q
       /\ (B2Q v == -1 <-> 193%nat = 193%nat)%Q.
Proof. apply (sinTable_range 193). lia. Defined.

(** ** The interpolation weights *)

(** At [fract = 0.5] the binary32 weights are not the values of the basis:
    [wa] is -8388609 * 2^-27, the basis gives -1/16 = -8388608 * 2^-27. *)
Lemma weights32_not_basis :
  ~ quad_eq (weights_value (weights32 (of_Q 0.5))) (basis (B2Q (of_Q 0.5))).
Proof.
  vm_compute. intros [H _]. discriminate H.
Qed.

(** The literals of the weights are the binary32 numbers nearest to 1/2,
    1/6 and 1/3. *)
Lemma weight_literals_nearest :
  half32 = of_Q (1 # 2) /\ sixth32 = of_Q (1 # 6) /\ third32 = of_Q (1 # 3).
Proof. vm_compute. repeat split. Qed.


(** ** A fractional offset of zero *)

Lemma feqb_eq (f g : float32) : feqb f g = true -> f = g.
Proof.
  destruct f as [s | s | | s m e], g as [t | t | | t n k]; simpl;
    try discriminate; try reflexivity.
  - intros H. apply Bool.eqb_prop in H. now subst.
  - intros H. apply Bool.eqb_prop in H. now subst.
  - intros H. apply andb_true_iff in H as [H He].
    apply andb_true_iff in H as [Hs Hm].
    apply Bool.eqb_prop in Hs. apply Pos.eqb_eq in Hm. apply Z.eqb_eq in He.
    now subst.
Qed.

Lemma zero_fract_blend_checked :
  forallb zero_fract_blend_ok (seq 0 256) = true.
Proof. vm_compute. reflexivity. Qed.

Lemma zero_fract_weights (fract : float32) :
  is_zero fract = true ->
  weights32 fract = (S754_zero false, one32, S754_zero false, S754_zero false).
Proof.
  destruct fract as [[|] | | |]; try discriminate; intros _;
    vm_compute; reflexivity.
Qed.

(** Whenever the offset is zero and the index is at most 255, the routine
    returns the table sample at [index + 1]. *)
Lemma zero_fract_returns_sample (x in_ fract : float32) (index : Z) :
  fold_period x = Some in_ ->
  locate in_ = Some (index, fract) ->
  is_zero fract = true ->
  index <= 255 ->
  exists sample,
    nth_error sinTable (Z.to_nat (index + 1)) = Some sample
    /\ result x = Some sample.
Proof.
  intros Hfold Hloc Hz Hidx.
  pose proof (locate_index_range _ _ _ Hloc) as Hrange.
  pose proof zero_fract_blend_checked as Hall.
  rewrite forallb_forall in Hall.
  specialize (Hall (Z.to_nat index)).
  assert (Hin : In (Z.to_nat index) (seq 0 256)) by (apply in_seq; lia).
  specialize (Hall Hin). unfold zero_fract_blend_ok in Hall.
  rewrite forallb_forall in Hall.
  specialize (Hall fract).
  assert (Hfr : In fract [S754_zero false; S754_zero true]).
  { destruct fract as [[|] | | |]; try discriminate; simpl; auto. }
  specialize (Hall Hfr).
  rewrite Z2Nat.id in Hall by lia.
  replace (S (Z.to_nat index)) with (Z.to_nat (index + 1)) in Hall by lia.
  destruct (fetch index sinTable) as [[[[[a b] c] d] m'] |] eqn:Ef;
    [| discriminate].
  destruct (nth_error sinTable (Z.to_nat (index + 1))) as [sample |];
    [| discriminate].
  apply feqb_eq in Hall.
  exists sample. split; [reflexivity |].
  unfold result, run, arm_sin_f32, bind, defined, ret.
  rewrite Hfold. cbv beta iota. rewrite Hloc. cbv beta iota.
  rewrite Ef. cbv beta iota. unfold option_map. cbn [fst].
  rewrite Hall. reflexivity.
Qed.

(** C9 (the claim fails on the code): at the angle -2*pi the offset is
    exactly zero and the weights are 0, 1, 0, 0, the sample at [index + 1] is
    entry 257, but the index is 256 and the call reads entry 259: it is
    undefined instead of returning entry 257.  At 0.0 the routine returns
    exactly 0.0. *)
Theorem zero_fract_at_index_256 :
  fold_period minus_two_pi = Some (of_Q 1.0)
  /\ locate (of_Q 1.0) = Some (256, S754_zero false)
  /\ weights32 (S754_zero false)
     = (S754_zero false, of_Q 1.0, S754_zero false, S754_zero false)
  /\ nth_error sinTable 257 = Some (S754_finite true 9255838 (-75))
  /\ result minus_two_pi = None
  /\ result (of_Q 0.0) = Some (S754_zero false).
Proof. do 5 (split; [vm_compute; reflexivity |]). vm_compute; reflexivity. Qed.

(** ** Symmetry *)

(** C8 (the claim fails on the code): the routine returns 0.0 at the angle
    2*pi, and is undefined at -2*pi, where it reads entry 259 of the table. *)
Theorem odd_symmetry_at_two_pi :
  result (of_Q 6.2831853) = Some (S754_zero false)
  /\ opp (of_Q 6.2831853) = minus_two_pi
  /\ result (opp (of_Q 6.2831853)) = None.
Proof. do 2 (split; [vm_compute; reflexivity |]). vm_compute; reflexivity. Qed.

(** ** Rounding of [SpecFloat] *)

Section IterPos.
Context {A : Type} (f : A -> A).

Lemma iter_pos_nat (p : positive) (x : A) :
  SpecFloat.iter_pos f p x = Nat.iter (Pos.to_nat p) f x.
Proof.
  revert x. induction p as [p IH | p IH |]; intros x; simpl SpecFloat.iter_pos.
  - rewrite !IH, Pos2Nat.inj_xI.
    replace (S (2 * Pos.to_nat p)) with (Pos.to_nat p + (Pos.to_nat p + 1))%nat by lia.
    rewrite !Nat.iter_add. reflexivity.
  - rewrite !IH, Pos2Nat.inj_xO.
    replace (2 * Pos.to_nat p)%nat with (Pos.to_nat p + Pos.to_nat p)%nat by lia.
    rewrite Nat.iter_add. reflexivity.
  - reflexivity.
Qed.
End IterPos.

Lemma digits2_pos_bounds (m : positive) :
  2 ^ (Zpos (digits2_pos m) - 1) <= Zpos m < 2 ^ Zpos (digits2_pos m).
Proof.
  induction m as [m IH | m IH |]; simpl digits2_pos.
  - rewrite Pos2Z.inj_succ.
    replace (Z.succ (Zpos (digits2_pos m)) - 1) with (Z.succ (Zpos (digits2_pos m) - 1)) by lia.
    rewrite !Z.pow_succ_r by lia. lia.
  - rewrite Pos2Z.inj_succ.
    replace (Z.succ (Zpos (digits2_pos m)) - 1) with (Z.succ (Zpos (digits2_pos m) - 1)) by lia.
    rewrite !Z.pow_succ_r by lia. lia.
  - simpl. lia.
Qed.

(** The number of digits is determined by the binade. *)
Lemma digits2_pos_unique (m : positive) (d : Z) :
  2 ^ (d - 1) <= Zpos m < 2 ^ d -> Zpos (digits2_pos m) = d.
Proof.
  intros [Hlo Hhi]. pose proof (digits2_pos_bounds m) as [Hlo' Hhi'].
  assert (0 < d).
  { destruct (Z.ltb_spec 0 d); [assumption |].
    rewrite (Z.pow_neg_r 2 (d - 1)) in Hlo by lia.
    assert (2 ^ d <= 2 ^ 0) by (apply Z.pow_le_mono_r; lia). simpl in *. lia. }
  destruct (Z.lt_trichotomy (Zpos (digits2_pos m)) d) as [Hlt | [Heq | Hgt]].
  - assert (2 ^ Zpos (digits2_pos m) <= 2 ^ (d - 1)) by (apply Z.pow_le_mono_r; lia). lia.
  - assumption.
  - assert (2 ^ d <= 2 ^ (Zpos (digits2_pos m) - 1)) by (apply Z.pow_le_mono_r; lia). lia.
Qed.

Lemma iter_xO_value (m k : positive) :
  Zpos (Pos.iter xO m k) = Zpos m * 2 ^ Zpos k.
Proof.
  induction k as [| k IH] using Pos.peano_ind.
  - simpl. lia.
  - rewrite Pos.iter_succ, Pos2Z.inj_succ, Z.pow_succ_r by lia.
    rewrite Pos2Z.inj_xO, IH. lia.
Qed.

Lemma shl_align_value (mx : positive) (ex ez : Z) :
  ez <= ex ->
  Zpos (fst (shl_align mx ex ez)) = Zpos mx * 2 ^ (ex - ez)
  /\ snd (shl_align mx ex ez) = ez.
Proof.
  intros H. unfold shl_align.
  destruct (ez - ex) as [| d | d] eqn:E; try lia.
  - replace (ex - ez) with 0 by lia. simpl. split; lia.
  - simpl. rewrite iter_xO_value. replace (ex - ez) with (Zpos d) by lia. auto.
Qed.

Lemma shl_align_no_shift (mx : positive) (ex ez : Z) :
  ex <= ez -> shl_align mx ex ez = (mx, ex).
Proof.
  intros H. unfold shl_align. destruct (ez - ex) eqn:E; try reflexivity; lia.
Qed.

Lemma shr_1_nonneg (m : Z) (r s : bool) :
  0 <= m ->
  shr_1 (Build_shr_record m r s) = Build_shr_record (Z.div2 m) (Z.odd m) (r || s).
Proof.
  intros H. destruct m as [| [p | p |] | p]; try reflexivity; lia.
Qed.

(** [n] single shifts of a mantissa without round and sticky bits: the
    quotient, the last bit shifted out, and whether a lower bit was set. *)
Lemma iter_shr_1 (m : Z) (n : nat) :
  0 <= m ->
  Nat.iter (S n) shr_1 (Build_shr_record m false false) =
  Build_shr_record (m / 2 ^ Z.of_nat (S n))
                   (Z.odd (m / 2 ^ Z.of_nat n))
                   (negb (m mod 2 ^ Z.of_nat n =? 0)).
Proof.
  intros Hm. induction n as [| n IH].
  - change (Nat.iter 1 shr_1 ?x) with (shr_1 x).
    rewrite shr_1_nonneg by assumption.
    rewrite Z.div2_div. change (2 ^ Z.of_nat 1) with 2. change (2 ^ Z.of_nat 0) with 1.
    rewrite Z.div_1_r, Z.mod_1_r. reflexivity.
  - change (Nat.iter (S (S n)) shr_1 ?x) with (shr_1 (Nat.iter (S n) shr_1 x)).
    rewrite IH.
    assert (Hpow : 0 < 2 ^ Z.of_nat n) by (apply Z.pow_pos_nonneg; lia).
    assert (HpowS : 2 ^ Z.of_nat (S n) = 2 ^ Z.of_nat n * 2)
      by (rewrite Nat2Z.inj_succ, Z.pow_succ_r; lia).
    rewrite shr_1_nonneg by (apply Z.div_pos; lia).
    f_equal.
    + rewrite Z.div2_div, Z.div_div by lia.
      rewrite (Nat2Z.inj_succ (S n)), Z.pow_succ_r by lia. f_equal. lia.
    + (* sticky: a bit below position [S n] is set *)
      rewrite HpowS.
      rewrite Z.rem_mul_r by lia.
      rewrite <- Z.bit0_mod, Z.bit0_odd.
      destruct (Z.odd (m / 2 ^ Z.of_nat n)); simpl.
      * destruct (Z.eqb_spec (m mod 2 ^ Z.of_nat n + 2 ^ Z.of_nat n * 1) 0) as [E | E];
          [| reflexivity].
        pose proof (Z.mod_pos_bound m (2 ^ Z.of_nat n) Hpow). lia.
      * rewrite Z.mul_0_r, Z.add_0_r. reflexivity.
Qed.

Lemma shr_exponent (mrs : shr_record) (e k : Z) :
  0 < k -> snd (shr mrs e k) = e + k.
Proof. destruct k; try lia. reflexivity. Qed.

Lemma shr_fst_exponent (mrs : shr_record) (e e' k : Z) :
  fst (shr mrs e k) = fst (shr mrs e' k).
Proof. destruct k; reflexivity. Qed.

Lemma shr_no_shift (mrs : shr_record) (e k : Z) :
  k <= 0 -> shr mrs e k = (mrs, e).
Proof. destruct k; try lia; reflexivity. Qed.

Lemma shr_shift (m e k : Z) :
  0 <= m -> 0 < k ->
  shr (Build_shr_record m false false) e k =
  (Build_shr_record (m / 2 ^ k) (Z.odd (m / 2 ^ (k - 1)))
                    (negb (m mod 2 ^ (k - 1) =? 0)), e + k).
Proof.
  intros Hm Hk. destruct k as [| p | p]; try lia.
  unfold shr. f_equal.
  rewrite iter_pos_nat.
  destruct (Pos.to_nat p) as [| n] eqn:E; [lia |].
  rewrite iter_shr_1 by assumption.
  replace (Z.of_nat (S n)) with (Zpos p) by lia.
  replace (Z.of_nat n) with (Zpos p - 1) by lia.
  reflexivity.
Qed.

(** Rounding to nearest: the result is the quotient or its successor, and the
    one nearer to the exact value. *)
Lemma shr_round_spec (m k : Z) :
  0 <= m -> 0 < k ->
  (shr_round m k = m / 2 ^ k /\ 2 * (m mod 2 ^ k) <= 2 ^ k)
  \/ (shr_round m k = m / 2 ^ k + 1 /\ 2 ^ k <= 2 * (m mod 2 ^ k)).
Proof.
  intros Hm Hk. unfold shr_round. rewrite shr_shift by assumption.
  cbn [fst shr_m loc_of_shr_record].
  assert (Hpow : 0 < 2 ^ (k - 1)) by (apply Z.pow_pos_nonneg; lia).
  assert (Hk2 : 2 ^ k = 2 ^ (k - 1) * 2).
  { replace k with (Z.succ (k - 1)) at 1 by lia. rewrite Z.pow_succ_r; lia. }
  assert (Hrem : m mod 2 ^ k =
                 m mod 2 ^ (k - 1) + 2 ^ (k - 1) * (if Z.odd (m / 2 ^ (k - 1)) then 1 else 0)).
  { rewrite Hk2, Z.rem_mul_r by lia. rewrite <- Z.bit0_mod, Z.bit0_odd.
    destruct (Z.odd _); reflexivity. }
  pose proof (Z.mod_pos_bound m (2 ^ (k - 1)) Hpow) as Hb.
  destruct (Z.odd (m / 2 ^ (k - 1))) eqn:Eodd;
    destruct (Z.eqb_spec (m mod 2 ^ (k - 1)) 0) as [Ez | Ez]; cbn [negb round_nearest_even].
  - destruct (Z.even (m / 2 ^ k)); [left | right]; split; try reflexivity; lia.
  - right. split; [reflexivity | lia].
  - left. split; [reflexivity | lia].
  - left. split; [reflexivity | lia].
Qed.

Lemma shr_round_exact (m k : Z) :
  0 <= m -> 0 < k -> m mod 2 ^ k = 0 -> shr_round m k = m / 2 ^ k.
Proof.
  intros Hm Hk Hr.
  assert (Hp : 0 < 2 ^ k) by (apply Z.pow_pos_nonneg; lia).
  destruct (shr_round_spec m k Hm Hk) as [[H _] | [_ H]]; [assumption | lia].
Qed.

Lemma shr_round_bounds (m k : Z) :
  0 <= m -> 0 < k ->
  m / 2 ^ k <= shr_round m k /\ shr_round m k * 2 ^ k < m + 2 ^ k
  /\ 2 * Z.abs (shr_round m k * 2 ^ k - m) <= 2 ^ k.
Proof.
  intros Hm Hk.
  assert (Hp : 0 < 2 ^ k) by (apply Z.pow_pos_nonneg; lia).
  pose proof (Z.div_mod m (2 ^ k) ltac:(lia)) as Hdm.
  pose proof (Z.mod_pos_bound m (2 ^ k) Hp) as Hb.
  destruct (shr_round_spec m k Hm Hk) as [[-> H] | [-> H]]; nia.
Qed.

Section RoundAux.

Variables prec emax : Z.

Lemma shr_fexp_exact (m e : Z) :
  0 <= m ->
  shr_fexp prec emax m e loc_Exact =
  let k := fexp prec emax (Zdigits2 m + e) - e in
  if 0 <? k
  then (Build_shr_record (m / 2 ^ k) (Z.odd (m / 2 ^ (k - 1)))
                         (negb (m mod 2 ^ (k - 1) =? 0)), e + k)
  else (Build_shr_record m false false, e).
Proof.
  intros Hm. unfold shr_fexp. cbn [shr_record_of_loc]. cbv zeta.
  destruct (Z.ltb_spec 0 (fexp prec emax (Zdigits2 m + e) - e)) as [Hk | Hk].
  - apply shr_shift; assumption.
  - apply shr_no_shift; assumption.
Qed.

Lemma shr_round_nonneg (m k : Z) : 0 <= m -> 0 < k -> 0 <= shr_round m k.
Proof.
  intros Hm Hk. pose proof (shr_round_bounds m k Hm Hk) as [H _].
  assert (0 <= m / 2 ^ k) by (apply Z.div_pos; [| apply Z.pow_pos_nonneg]; lia).
  lia.
Qed.

Lemma shift_round_nonneg (m e : Z) : 0 <= m -> 0 <= fst (shift_round prec emax m e).
Proof.
  intros Hm. unfold shift_round. cbv zeta.
  destruct (Z.ltb_spec 0 (fexp prec emax (Zdigits2 m + e) - e));
    cbn [fst]; [apply shr_round_nonneg |]; assumption.
Qed.

Lemma shift_trunc_nonneg (m e : Z) : 0 <= m -> 0 <= fst (shift_trunc prec emax m e).
Proof.
  intros Hm. unfold shift_trunc. cbv zeta.
  destruct (Z.ltb_spec 0 (fexp prec emax (Zdigits2 m + e) - e));
    cbn [fst]; [| assumption].
  apply Z.div_pos; [assumption | apply Z.pow_pos_nonneg; lia].
Qed.

Lemma binary_round_aux_steps (s : bool) (m e : Z) :
  0 <= m ->
  binary_round_aux prec emax s m e loc_Exact = pack prec emax s (round_steps prec emax m e).
Proof.
  intros Hm. unfold binary_round_aux, round_steps, pack.
  pose proof (shift_round_nonneg m e Hm) as Hm2. revert Hm2.
  unfold shift_round.
  rewrite shr_fexp_exact by assumption. cbv zeta.
  set (k := fexp prec emax (Zdigits2 m + e) - e).
  destruct (Z.ltb_spec 0 k) as [Hk | Hk]; cbn [fst snd]; intros Hm2.
  - assert (Hr : round_nearest_even
         (shr_m (Build_shr_record (m / 2 ^ k) (Z.odd (m / 2 ^ (k - 1)))
                                  (negb (m mod 2 ^ (k - 1) =? 0))))
         (loc_of_shr_record
            (Build_shr_record (m / 2 ^ k) (Z.odd (m / 2 ^ (k - 1)))
                              (negb (m mod 2 ^ (k - 1) =? 0)))) = shr_round m k).
    { unfold shr_round. rewrite shr_shift by assumption. reflexivity. }
    rewrite Hr.
    rewrite shr_fexp_exact by assumption. unfold shift_trunc. cbv zeta.
    destruct (0 <? _); reflexivity.
  - cbn [shr_m loc_of_shr_record round_nearest_even].
    rewrite shr_fexp_exact by assumption. unfold shift_trunc. cbv zeta.
    destruct (0 <? _); reflexivity.
Qed.

Lemma round_steps_nonneg (m e : Z) : 0 <= m -> 0 <= fst (round_steps prec emax m e).
Proof.
  intros Hm. unfold round_steps.
  apply shift_trunc_nonneg, shift_round_nonneg, Hm.
Qed.

(** A mantissa that already sits at the format's exponent is returned
    unchanged. *)
Lemma round_steps_canonical (m : positive) (e : Z) :
  canonical_mantissa prec emax m e = true ->
  round_steps prec emax (Zpos m) e = (Zpos m, e).
Proof.
  unfold canonical_mantissa. intros H. apply Z.eqb_eq in H.
  assert (Hr : shift_round prec emax (Zpos m) e = (Zpos m, e)).
  { unfold shift_round. cbn [Zdigits2]. rewrite H, Z.sub_diag. reflexivity. }
  unfold round_steps. rewrite Hr. cbn [fst snd].
  unfold shift_trunc. cbn [Zdigits2]. rewrite H, Z.sub_diag. reflexivity.
Qed.

End RoundAux.

Lemma Zdigits2_bounds (m : Z) :
  0 < m -> 2 ^ (Zdigits2 m - 1) <= m < 2 ^ Zdigits2 m.
Proof.
  destruct m as [| p | p]; try lia. intros _. apply digits2_pos_bounds.
Qed.

Lemma Zdigits2_le (m q : Z) :
  0 < m -> 0 <= q -> m <= 2 ^ q -> Zdigits2 m <= q + 1.
Proof.
  intros Hm Hq Hle. pose proof (Zdigits2_bounds m Hm) as [Hlo _].
  destruct (Z.leb_spec (Zdigits2 m) (q + 1)) as [H | H]; [assumption |].
  assert (2 ^ (q + 1) <= 2 ^ (Zdigits2 m - 1)) by (apply Z.pow_le_mono_r; lia).
  rewrite Z.pow_add_r in * by lia.
  assert (0 < 2 ^ q) by (apply Z.pow_pos_nonneg; lia). lia.
Qed.

Lemma pow2_split (a b : Z) : 0 <= a -> 0 <= b -> 2 ^ (a + b) = 2 ^ a * 2 ^ b.
Proof. intros. apply Z.pow_add_r; assumption. Qed.

Section RoundBounds.

Variables prec emax : Z.
Hypothesis Hprec : 0 < prec.

Lemma fexp_le (m e p : Z) :
  emin prec emax <= p -> le_pow2 p (m, e) ->
  fexp prec emax (Zdigits2 m + e) <= p.
Proof.
  intros Hp [Hm [He Hle]]. cbn [fst snd] in *.
  assert (Zdigits2 m + e <= p + 1).
  { destruct (Z.eq_dec m 0) as [-> | Hnz]; [simpl; lia |].
    pose proof (Zdigits2_le m (p - e) ltac:(lia) ltac:(lia) Hle). lia. }
  unfold fexp. lia.
Qed.

Lemma shift_round_le_pow2 (m e p : Z) :
  emin prec emax <= p -> le_pow2 p (m, e) ->
  le_pow2 p (shift_round prec emax m e).
Proof.
  intros Hp H. pose proof (fexp_le m e p Hp H) as Hf.
  destruct H as [Hm [He Hle]]. cbn [fst snd] in *.
  unfold shift_round. cbv zeta.
  set (k := fexp prec emax (Zdigits2 m + e) - e) in *.
  destruct (Z.ltb_spec 0 k) as [Hk | Hk]; unfold le_pow2; cbn [fst snd].
  - split; [apply shr_round_nonneg; lia |]. split; [lia |].
    pose proof (shr_round_bounds m k ltac:(lia) Hk) as [_ [Hub _]].
    replace (p - e) with ((p - (e + k)) + k) in Hle by lia.
    rewrite pow2_split in Hle by lia.
    assert (0 < 2 ^ k) by (apply Z.pow_pos_nonneg; lia).
    nia.
  - auto.
Qed.

Lemma shift_trunc_le_pow2 (m e p : Z) :
  emin prec emax <= p -> le_pow2 p (m, e) ->
  le_pow2 p (shift_trunc prec emax m e).
Proof.
  intros Hp H. pose proof (fexp_le m e p Hp H) as Hf.
  destruct H as [Hm [He Hle]]. cbn [fst snd] in *.
  unfold shift_trunc. cbv zeta.
  set (k := fexp prec emax (Zdigits2 m + e) - e) in *.
  destruct (Z.ltb_spec 0 k) as [Hk | Hk]; unfold le_pow2; cbn [fst snd].
  - assert (0 < 2 ^ k) by (apply Z.pow_pos_nonneg; lia).
    split; [apply Z.div_pos; lia |]. split; [lia |].
    replace (p - e) with ((p - (e + k)) + k) in Hle by lia.
    rewrite pow2_split in Hle by lia.
    apply Z.div_le_upper_bound; lia.
  - auto.
Qed.

(** Rounding does not cross a power of two of the format: a value that is
    at most [2^p] rounds to a value that is at most [2^p]. *)
Lemma round_steps_le_pow2 (m e p : Z) :
  emin prec emax <= p -> le_pow2 p (m, e) ->
  le_pow2 p (round_steps prec emax m e).
Proof.
  intros Hp H. unfold round_steps.
  apply shift_trunc_le_pow2; [assumption |].
  rewrite <- surjective_pairing.
  apply shift_round_le_pow2; assumption.
Qed.

End RoundBounds.

(** ** Binary32 instances of the rounding lemmas *)

Lemma pack_in_0_pow2 (p : Z) (me : Z * Z) :
  p <= 104 -> le_pow2 p me -> in_0_pow2 p (pack prec emax false me).
Proof.
  intros Hp [Hm [He Hle]]. unfold pack.
  destruct (fst me) as [| q | q] eqn:E; try lia; [exact I |].
  destruct (Z.leb_spec (snd me) (emax - prec)) as [H | H].
  - split; assumption.
  - unfold emax, prec in H. lia.
Qed.

(** The result of rounding keeps the sign and is never a NaN. *)
Lemma binary_round_aux_cases (s : bool) (m : positive) (e : Z) :
  let r := binary_round_aux prec emax s (Zpos m) e loc_Exact in
  r = S754_zero s \/ r = S754_infinity s \/ exists m' e', r = S754_finite s m' e'.
Proof.
  cbv zeta. rewrite binary_round_aux_steps by lia.
  pose proof (round_steps_nonneg prec emax (Zpos m) e ltac:(lia)) as H.
  unfold pack. destruct (fst (round_steps prec emax (Zpos m) e)) as [| q | q];
    try lia; auto.
  destruct (_ <=? _); eauto.
Qed.

Lemma binary_round_aux_in_0_pow2 (m : positive) (e p : Z) :
  -149 <= p <= 104 -> le_pow2 p (Zpos m, e) ->
  in_0_pow2 p (binary_round_aux prec emax false (Zpos m) e loc_Exact).
Proof.
  intros Hp H. rewrite binary_round_aux_steps by lia.
  apply pack_in_0_pow2; [lia |].
  apply round_steps_le_pow2; [unfold prec; lia | unfold emin, emax, prec; lia | assumption].
Qed.

Lemma binary_round_in_0_pow2 (m : positive) (e p : Z) :
  -149 <= p <= 104 -> le_pow2 p (Zpos m, e) ->
  in_0_pow2 p (binary_round prec emax false m e).
Proof.
  intros Hp [Hm [He Hle]]. cbn [fst snd] in *. unfold binary_round.
  set (t := fexp prec emax (Zpos (digits2_pos m) + e)).
  destruct (Z.le_gt_cases e t) as [Hc | Hc].
  - rewrite shl_align_no_shift by assumption.
    apply binary_round_aux_in_0_pow2; [assumption |]. repeat split; assumption.
  - destruct (shl_align m e t) as [mz ez] eqn:E.
    pose proof (shl_align_value m e t ltac:(lia)) as [Hv Hs].
    rewrite E in Hv, Hs. cbn [fst snd] in Hv, Hs. subst ez.
    apply binary_round_aux_in_0_pow2; [assumption |].
    repeat split; cbn [fst snd]; try lia.
    rewrite Hv. replace (p - t) with ((p - e) + (e - t)) by lia.
    rewrite pow2_split by lia.
    apply Z.mul_le_mono_nonneg_r; [apply Z.pow_nonneg; lia | assumption].
Qed.

Lemma digits2_pos_shift (m k : positive) :
  Zpos (digits2_pos (Pos.iter xO m k)) = Zpos (digits2_pos m) + Zpos k.
Proof.
  apply digits2_pos_unique. rewrite iter_xO_value.
  pose proof (digits2_pos_bounds m) as [Hlo Hhi].
  replace (Zpos (digits2_pos m) + Zpos k - 1)
    with ((Zpos (digits2_pos m) - 1) + Zpos k) by lia.
  rewrite !pow2_split by lia.
  assert (0 < 2 ^ Zpos k) by (apply Z.pow_pos_nonneg; lia). nia.
Qed.

(** An integer of at most 24 binary digits converts exactly. *)
Lemma binary_round_small_int (s : bool) (n : positive) :
  Zpos n < 2 ^ 24 ->
  exists m e, binary_round prec emax s n 0 = S754_finite s m e
              /\ e <= 0 /\ Zpos m = Zpos n * 2 ^ (- e).
Proof.
  intros Hn.
  pose proof (digits2_pos_bounds n) as [Hlo Hhi].
  assert (Hd : Zpos (digits2_pos n) <= 24).
  { destruct (Z.leb_spec (Zpos (digits2_pos n)) 24) as [H | H]; [assumption |].
    assert (2 ^ 24 <= 2 ^ (Zpos (digits2_pos n) - 1)) by (apply Z.pow_le_mono_r; lia).
    lia. }
  unfold binary_round.
  assert (Hf : fexp prec emax (Zpos (digits2_pos n) + 0) = Zpos (digits2_pos n) - 24)
    by (unfold fexp, emin, prec, emax; lia).
  rewrite Hf.
  destruct (Z.eq_dec (Zpos (digits2_pos n)) 24) as [E24 | N24].
  - rewrite shl_align_no_shift by lia.
    rewrite binary_round_aux_steps by lia.
    rewrite round_steps_canonical
      by (unfold canonical_mantissa, fexp, emin, prec, emax; apply Z.eqb_eq; lia).
    exists n, 0. cbn. split; [reflexivity | lia].
  - unfold shl_align.
    destruct (Zpos (digits2_pos n) - 24 - 0) as [| q | q] eqn:E; try lia.
    rewrite binary_round_aux_steps by lia.
    rewrite round_steps_canonical.
    + exists (Pos.iter xO n q), (Zpos (digits2_pos n) - 24).
      unfold pack. cbn [fst snd].
      destruct (Z.leb_spec (Zpos (digits2_pos n) - 24) (emax - prec)) as [H | H];
        [| unfold emax, prec in H; lia].
      split; [reflexivity |]. split; [lia |].
      rewrite iter_xO_value. f_equal. f_equal. lia.
    + unfold canonical_mantissa. apply Z.eqb_eq.
      rewrite digits2_pos_shift. unfold fexp, emin, prec, emax. lia.
Qed.

(** The conversion [(float32_t) n] is exact up to 2^24 in magnitude. *)
Lemma of_int_exact (n : Z) :
  n <> 0 -> Z.abs n <= 2 ^ 24 ->
  exists m e, of_int n = S754_finite (n <? 0) m e
              /\ ((e <= 0 /\ Zpos m = Z.abs n * 2 ^ (- e))
                  \/ (Z.abs n = 2 ^ 24 /\ Zpos m = 2 ^ 23 /\ e = 1)).
Proof.
  intros Hnz Hn.
  destruct (Z.eq_dec (Z.abs n) (2 ^ 24)) as [E | E].
  - exists 8388608%positive, 1. split; [| right; auto].
    change (2 ^ 24) with 16777216 in E.
    assert (Hc : n = 16777216 \/ n = -16777216) by lia.
    destruct Hc as [-> | ->]; reflexivity.
  - assert (Hlt : Z.abs n < 2 ^ 24) by lia.
    unfold of_int, binary_normalize.
    destruct n as [| q | q]; [lia | |].
    + destruct (binary_round_small_int false q Hlt) as [m [e [H1 [H2 H3]]]].
      exists m, e. split; [exact H1 | left; auto].
    + destruct (binary_round_small_int true q Hlt) as [m [e [H1 [H2 H3]]]].
      exists m, e. split; [exact H1 | left; auto].
Qed.

(** ** Values *)

Lemma in_0_pow2_unit_value (f : float32) :
  in_0_pow2 0 f -> is_finite f = true /\ (0 <= B2Q f <= 1)%Q.
Proof.
  destruct f as [s | s | | [|] m e]; simpl; try contradiction.
  - intros _. split; [reflexivity |]. split; discriminate.
  - intros [He Hm]. split; [reflexivity |].
    destruct (Z.leb_spec 0 e) as [H0 | H0].
    + assert (e = 0) by lia. subst e. simpl in Hm. cbn.
      unfold Qle; simpl. split; lia.
    + unfold Qle. cbn [Qnum Qden cond_Zopp].
      assert (Hp : 0 < 2 ^ (- e)) by (apply Z.pow_pos_nonneg; lia).
      rewrite Z2Pos.id by assumption. replace (0 - e) with (- e) in Hm by lia.
      split; lia.
Qed.

(** The truncation of a positive mantissa-exponent pair. *)
Lemma shiftl_floor (m : positive) (e ez : Z) :
  ez <= e -> ez <= 0 ->
  let t := Z.shiftl (Zpos m) e in
  0 <= t
  /\ t * 2 ^ (- ez) <= Zpos m * 2 ^ (e - ez) < (t + 1) * 2 ^ (- ez).
Proof.
  intros Hez Hz. cbv zeta.
  destruct (Z.leb_spec 0 e) as [He | He].
  - rewrite Z.shiftl_mul_pow2 by assumption.
    assert (0 < 2 ^ e) by (apply Z.pow_pos_nonneg; lia).
    assert (Hp : 0 < 2 ^ (- ez)) by (apply Z.pow_pos_nonneg; lia).
    replace (e - ez) with (e + - ez) by lia. rewrite pow2_split by lia.
    split; [lia |]. split; [lia | nia].
  - rewrite Z.shiftl_div_pow2 by lia.
    assert (Hp : 0 < 2 ^ (- e)) by (apply Z.pow_pos_nonneg; lia).
    assert (Hq : 0 < 2 ^ (e - ez)) by (apply Z.pow_pos_nonneg; lia).
    pose proof (Z.div_mod (Zpos m) (2 ^ (- e)) ltac:(lia)) as Hdm.
    pose proof (Z.mod_pos_bound (Zpos m) (2 ^ (- e)) Hp) as Hb.
    replace (- ez) with (- e + (e - ez)) by lia. rewrite pow2_split by lia.
    split; [apply Z.div_pos; lia |]. split; nia.
Qed.

(** ** Folding into one period *)

Lemma B2Q_abs_lt (s : bool) (m : positive) (e B : Z) :
  (Qabs (B2Q (S754_finite s m e)) < inject_Z B)%Q ->
  Z.shiftl (Zpos m) e < B.
Proof.
  unfold B2Q. destruct (Z.leb_spec 0 e) as [He | He].
  - rewrite Z.shiftl_mul_pow2 by assumption.
    unfold Qlt, Qabs, inject_Z. cbn [Qnum Qden].
    assert (0 < 2 ^ e) by (apply Z.pow_pos_nonneg; lia).
    destruct s; cbn [cond_Zopp]; lia.
  - rewrite Z.shiftl_div_pow2 by lia.
    assert (Hp : 0 < 2 ^ (- e)) by (apply Z.pow_pos_nonneg; lia).
    unfold Qlt, Qabs, inject_Z. cbn [Qnum Qden].
    rewrite Z2Pos.id by assumption.
    intros H. apply Z.div_lt_upper_bound; [assumption |].
    destruct s; cbn [cond_Zopp] in H; lia.
Qed.

(** The subtraction [in - (float32_t) n] for a finite scaled value whose
    integral part is below 2^24. *)
Lemma sub_period_count (s : bool) (m : positive) (e : Z) :
  Z.shiftl (Zpos m) e < 2 ^ 24 ->
  let t := Z.shiftl (Zpos m) e in
  in_0_pow2 0 (sub (S754_finite s m e) (of_int (if s then - t - 1 else t))).
Proof.
  intros Ht. cbv zeta.
  set (t := Z.shiftl (Zpos m) e) in *.
  set (n := if s then - t - 1 else t).
  change (2 ^ 24) with 16777216 in Ht.
  pose proof (shiftl_floor m e (Z.min e 0) ltac:(lia) ltac:(lia)) as Hfl.
  cbv zeta in Hfl. fold t in Hfl. destruct Hfl as [Ht0 _].
  destruct (Z.eq_dec n 0) as [En | Nn].
  - (* the count is zero: [in] is left as it is *)
    rewrite En. assert (s = false) by (destruct s; [subst n; lia | reflexivity]).
    subst s. subst n. change (of_int 0) with (S754_zero false).
    cbn [sub SFsub in_0_pow2].
    assert (He : e < 0).
    { destruct (Z.ltb_spec e 0); [assumption |].
      unfold t in En. rewrite Z.shiftl_mul_pow2 in En by lia.
      assert (0 < 2 ^ e) by (apply Z.pow_pos_nonneg; lia). nia. }
    pose proof (shiftl_floor m e e ltac:(lia) ltac:(lia)) as Hfl.
    cbv zeta in Hfl. fold t in Hfl. rewrite En, Z.sub_diag in Hfl.
    change (2 ^ 0) with 1 in Hfl. split; [lia |].
    replace (0 - e) with (- e) by lia. lia.
  - destruct (of_int_exact n Nn) as [mn [en [Hof Hshape]]].
    { subst n. destruct s; change (2 ^ 24) with 16777216; lia. }
    rewrite Hof. unfold sub, SFsub.
    set (ez := Z.min e en).
    assert (Hez : ez <= 0
                  /\ Zpos mn * 2 ^ (en - ez) = Z.abs n * 2 ^ (- ez)).
    { destruct Hshape as [[Hen Hmn] | [Habs [Hmn Hen]]].
      - split; [lia |]. rewrite Hmn.
        rewrite <- Z.mul_assoc, <- pow2_split by lia. do 2 f_equal. lia.
      - (* the count is -2^24: [t] is odd, so its exponent is not positive *)
        change (2 ^ 24) with 16777216 in Habs.
        assert (Hodd : t = 16777215) by (subst n; destruct s; lia).
        assert (He : e <= 0).
        { destruct (Z.leb_spec e 0) as [Hle | Hgt]; [assumption |].
          unfold t in Hodd. rewrite Z.shiftl_mul_pow2 in Hodd by lia.
          replace e with (Z.succ (e - 1)) in Hodd by lia.
          rewrite Z.pow_succ_r in Hodd by lia. lia. }
        split; [lia |]. rewrite Hmn, Habs. subst en.
        replace (1 - ez) with (Z.succ (- ez)) by lia.
        rewrite Z.pow_succ_r by lia. change (2 ^ 23) with 8388608. lia. }
    destruct Hez as [Hez HN].
    pose proof (shl_align_value m e ez ltac:(lia)) as [Hu _].
    pose proof (shl_align_value mn en ez ltac:(lia)) as [Hv _].
    rewrite Hu, Hv, HN.
    pose proof (shiftl_floor m e ez ltac:(lia) Hez) as Hfl.
    cbv zeta in Hfl. fold t in Hfl. destruct Hfl as [_ Hfl].
    assert (HP : 0 < 2 ^ (- ez)) by (apply Z.pow_pos_nonneg; lia).
    set (U := Zpos m * 2 ^ (e - ez)) in *. set (P := 2 ^ (- ez)) in *.
    assert (HD : 0 <= cond_Zopp s U - cond_Zopp (n <? 0) (Z.abs n * P) <= P).
    { subst n. destruct s; cbn [cond_Zopp].
      - destruct (Z.ltb_spec (- t - 1) 0); [| lia]. cbn [cond_Zopp]. nia.
      - destruct (Z.ltb_spec t 0); [lia |]. cbn [cond_Zopp]. nia. }
    destruct (cond_Zopp s U - cond_Zopp (n <? 0) (Z.abs n * P)) as [| d | d] eqn:ED;
      try lia; cbn [binary_normalize]; [exact I |].
    apply binary_round_in_0_pow2; [lia |].
    repeat split; cbn [fst snd]; try lia.
    replace (0 - ez) with (- ez) by lia. fold P. lia.
Qed.

Lemma scaled_finite_cases (s : bool) (m : positive) (e : Z) :
  let u := scaled (S754_finite s m e) in
  u = S754_zero s \/ u = S754_infinity s \/ exists m' e', u = S754_finite s m' e'.
Proof.
  cbv zeta. unfold scaled.
  change (of_Q 0.159154943092) with (S754_finite false 10680707 (-26)).
  unfold mul, SFmul. rewrite xorb_false_r.
  apply binary_round_aux_cases.
Qed.

(** The shape of the folded position on the domain [|u| < 2^24]. *)
Lemma fold_period_shape (x : float32) :
  is_finite (scaled x) = true ->
  (Qabs (B2Q (scaled x)) < 16777216)%Q ->
  exists in_, fold_period x = Some in_ /\ in_0_pow2 0 in_.
Proof.
  intros Hfin Hlt.
  destruct x as [s | s | | s m e].
  - (* a zero *)
    destruct s; eexists; (split; [vm_compute; reflexivity | exact I]).
  - destruct s; discriminate Hfin.
  - discriminate Hfin.
  - unfold fold_period. cbv zeta.
    assert (Hneg : ltb (S754_finite s m e) (of_Q 0.0) = s)
      by (destruct s; reflexivity).
    rewrite Hneg. clear Hneg.
    destruct (scaled_finite_cases s m e) as [Hu | [Hu | [m' [e' Hu]]]];
      cbv zeta in Hu; rewrite Hu in *.
    + (* the product underflows to a zero *)
      destruct s; eexists;
        (split; [vm_compute; reflexivity
                | first [exact I | split; [lia | apply Z.leb_le; reflexivity]]]).
    + discriminate Hfin.
    + apply (B2Q_abs_lt s m' e' 16777216) in Hlt.
      pose proof (shiftl_floor m' e' (Z.min e' 0) ltac:(lia) ltac:(lia)) as Hfl.
      cbv zeta in Hfl. destruct Hfl as [Ht0 _].
      pose proof (sub_period_count s m' e' Hlt) as Hsub. cbv zeta in Hsub.
      unfold to_int32, trunc.
      set (t := Z.shiftl (Zpos m') e') in *.
      assert (Hr : (- 2 ^ 31 <=? cond_Zopp s t) && (cond_Zopp s t <? 2 ^ 31) = true).
      { apply andb_true_iff. split; [apply Z.leb_le | apply Z.ltb_lt];
          destruct s; cbn [cond_Zopp]; change (2 ^ 31) with 2147483648; lia. }
      rewrite Hr.
      destruct s; cbn [cond_Zopp].
      * unfold int32_pred.
        destruct (Z.leb_spec (- 2 ^ 31) (- t - 1)) as [H | H];
          [| change (2 ^ 31) with 2147483648 in H; lia].
        eexists; split; [reflexivity | exact Hsub].
      * eexists; split; [reflexivity | exact Hsub].
Qed.

(** At the angle -2*pi the folded position is 1.0: it is not in [0, 1). *)
Lemma fold_period_reaches_one :
  ~ exists in_,
      fold_period minus_two_pi = Some in_ /\ (0 <= B2Q in_ < 1)%Q.
Proof.
  intros [in_ [Hf [_ Hlt]]].
  assert (E : fold_period minus_two_pi = Some (of_Q 1.0))
    by (vm_compute; reflexivity).
  rewrite E in Hf. injection Hf as <-.
  vm_compute in Hlt. discriminate Hlt.
Qed.

(** Past the domain: at x = -105414368 the scaled value is -16777218, the
    count -16777219 converts to -16777220.0 and the folded position is 2.0. *)
Lemma fold_period_reaches_two :
  scaled (of_Q (-105414368)) = of_Q (-16777218)
  /\ fold_period (of_Q (-105414368)) = Some (of_Q 2.0).
Proof. split; vm_compute; reflexivity. Qed.


(** ** Locating the position in the table *)

Lemma to_uint32_in_0_pow2 (f : float32) :
  in_0_pow2 8 f -> exists u, to_uint32 f = Some u /\ 0 <= u <= 256.
Proof.
  destruct f as [s | s | | [|] m e]; cbn [in_0_pow2]; try contradiction.
  - intros _. exists 0. split; [reflexivity | lia].
  - intros [He Hm]. unfold to_uint32, trunc. cbn [cond_Zopp].
    assert (Hb : 0 <= Z.shiftl (Zpos m) e <= 256).
    { destruct (Z.leb_spec 0 e) as [H0 | H0].
      - rewrite Z.shiftl_mul_pow2 by assumption.
        replace (8 - e) with (8 + - e) in Hm by lia.
        assert (0 < 2 ^ e) by (apply Z.pow_pos_nonneg; lia).
        assert (Hs : 2 ^ 8 = 2 ^ (8 - e) * 2 ^ e)
          by (rewrite <- pow2_split by lia; f_equal; lia).
        replace (8 + - e) with (8 - e) in Hm by lia.
        change (2 ^ 8) with 256 in Hs. nia.
      - rewrite Z.shiftl_div_pow2 by lia.
        assert (Hp : 0 < 2 ^ (- e)) by (apply Z.pow_pos_nonneg; lia).
        replace (8 - e) with (8 + - e) in Hm by lia.
        rewrite pow2_split in Hm by lia. change (2 ^ 8) with 256 in Hm.
        split; [apply Z.div_pos; lia |].
        apply Z.div_le_upper_bound; lia. }
    exists (Z.shiftl (Zpos m) e).
    destruct (Z.leb_spec 0 (Z.shiftl (Zpos m) e)) as [_ | Hn]; [| lia].
    destruct (Z.ltb_spec (Z.shiftl (Zpos m) e) (2 ^ 32)) as [Hlt | Hge];
      [| change (2 ^ 32) with 4294967296 in Hge; lia].
    split; [reflexivity | assumption].
Qed.

(** A position of [0, 1] has a table index between 0 and 256. *)
Lemma locate_shape (in_ : float32) :
  in_0_pow2 0 in_ ->
  exists index fract, locate in_ = Some (index, fract) /\ 0 <= index <= 256.
Proof.
  intros Hin. unfold locate. cbv zeta.
  change (of_int TABLE_SIZE) with (S754_finite false 8388608 (-15)).
  assert (Hpos : in_0_pow2 8 (mul (S754_finite false 8388608 (-15)) in_)).
  { destruct in_ as [s | s | | [|] m e]; cbn [in_0_pow2] in Hin; try contradiction.
    - destruct s; exact I.
    - destruct Hin as [He Hm]. unfold mul, SFmul. cbn [xorb].
      apply binary_round_aux_in_0_pow2; [lia |].
      repeat split; cbn [fst snd]; try lia.
      rewrite Pos2Z.inj_mul.
      replace (8 - (-15 + e)) with (23 + (0 - e)) by lia.
      rewrite pow2_split by lia. change (2 ^ 23) with 8388608.
      apply Z.mul_le_mono_nonneg_l; lia. }
  destruct (to_uint32_in_0_pow2 _ Hpos) as [u [Hu Hr]].
  rewrite Hu. eexists. eexists. split; [reflexivity |].
  unfold int32_of_uint32.
  destruct (Z.ltb_spec u (2 ^ 31)) as [H | H];
    [| change (2 ^ 31) with 2147483648 in H; lia].
  destruct (Z.ltb_spec u 0); [lia |].
  destruct (u >? 256) eqn:E; lia.
Qed.

(** At 1e20 the scaled value no longer fits [int32_t]: the conversion, and
    the call, are undefined. *)
Lemma arm_sin_f32_undefined_at_1e20 :
  ~ exists y, result (of_Q 1e20) = Some y.
Proof.
  intros [y H]. vm_compute in H. discriminate H.
Qed.


(** ** Accuracy against the sine function *)

Local Open Scope R_scope.

Lemma factZ_INR (n : nat) : IZR (factZ n) = INR (fact n).
Proof.
  induction n as [| n IH]; [reflexivity |].
  change (factZ (S n)) with (Z.of_nat (S n) * factZ n)%Z.
  change (fact (S n)) with (S n * fact n)%nat.
  rewrite mult_IZR, mult_INR, IH, <- INR_IZR_INZ. reflexivity.
Qed.

Lemma factZ_pos (n : nat) : (0 < factZ n)%Z.
Proof.
  induction n as [| n IH]; [reflexivity |].
  change (factZ (S n)) with (Z.of_nat (S n) * factZ n)%Z. lia.
Qed.

Lemma Q2R_inject_Z (z : Z) : Q2R (inject_Z z) = IZR z.
Proof. unfold Q2R, inject_Z. simpl. field. Qed.

Lemma Q2R_Qpow (a : Q) (k : nat) : Q2R (Qpow a k) = Q2R a ^ k.
Proof.
  induction k as [| k IH]; simpl.
  - unfold Q2R. simpl. field.
  - rewrite Q2R_mult, IH. reflexivity.
Qed.

Lemma Q2R_sumQ (f : nat -> Q) (g : nat -> R) (n : nat) :
  (forall i, Q2R (f i) = g i) -> Q2R (sumQ f n) = sum_f_R0 g n.
Proof.
  intros H. induction n as [| n IH]; simpl.
  - apply H.
  - rewrite Q2R_plus, IH, H. reflexivity.
Qed.

Lemma Q2R_minus_one : Q2R (-1) = -1.
Proof. unfold Q2R. simpl. lra. Qed.

Lemma Q2R_over_fact (q : Q) (k : nat) :
  Q2R (q / inject_Z (factZ k)) = Q2R q / INR (fact k).
Proof.
  rewrite Q2R_div.
  - rewrite Q2R_inject_Z, factZ_INR. reflexivity.
  - intros H. pose proof (factZ_pos k) as Hp.
    unfold Qeq, inject_Z in H. simpl in H. lia.
Qed.

Lemma Q2R_sin_termQ (a : Q) (i : nat) :
  Q2R (sin_termQ a i) = sin_term (Q2R a) i.
Proof.
  unfold sin_termQ, sin_term.
  rewrite Q2R_mult, Q2R_over_fact, !Q2R_Qpow, Q2R_minus_one. reflexivity.
Qed.

Lemma Q2R_cos_termQ (a : Q) (i : nat) :
  Q2R (cos_termQ a i) = cos_term (Q2R a) i.
Proof.
  unfold cos_termQ, cos_term.
  rewrite Q2R_mult, Q2R_over_fact, !Q2R_Qpow, Q2R_minus_one. reflexivity.
Qed.

Lemma sin_partial_sums (n : nat) (a : Q) :
  0 <= Q2R a <= 2 ->
  Q2R (sumQ (sin_termQ a) (2 * n + 1)) <= sin (Q2R a)
  <= Q2R (sumQ (sin_termQ a) (2 * (n + 1))).
Proof.
  intros [H0 H2].
  rewrite !(Q2R_sumQ _ (sin_term (Q2R a))) by apply Q2R_sin_termQ.
  apply (pre_sin_bound (Q2R a) n); lra.
Qed.

Lemma cos_partial_sums (n : nat) (a : Q) :
  0 <= Q2R a <= 2 ->
  Q2R (sumQ (cos_termQ a) (2 * n + 1)) <= cos (Q2R a)
  <= Q2R (sumQ (cos_termQ a) (2 * (n + 1))).
Proof.
  intros [H0 H2].
  rewrite !(Q2R_sumQ _ (cos_term (Q2R a))) by apply Q2R_cos_termQ.
  apply (pre_cos_bound (Q2R a) n); lra.
Qed.


Lemma Rabs_le_between (x a : R) : Rabs x <= a -> - a <= x <= a.
Proof. unfold Rabs. destruct (Rcase_abs x); lra. Qed.

Lemma Rabs_mul_le (u v a b : R) :
  Rabs u <= a -> Rabs v <= b -> Rabs (u * v) <= a * b.
Proof.
  intros Hu Hv. rewrite Rabs_mult.
  apply Rmult_le_compat; auto using Rabs_pos.
Qed.

Lemma Q2R_Qabs (q : Q) : Q2R (Qabs q) = Rabs (Q2R q).
Proof.
  destruct (Qlt_le_dec q 0) as [H | H].
  - rewrite Qabs_neg by (apply Qlt_le_weak, H).
    apply Qlt_Rlt in H. replace (Q2R 0) with 0 in H by (unfold Q2R; simpl; lra).
    rewrite Rabs_left by assumption. apply Q2R_opp.
  - rewrite Qabs_pos by assumption.
    apply Qle_Rle in H. replace (Q2R 0) with 0 in H by (unfold Q2R; simpl; lra).
    rewrite Rabs_right by lra. reflexivity.
Qed.

Lemma Q2R_two : Q2R 2 = 2.
Proof. unfold Q2R. simpl. lra. Qed.

Lemma Q2R_zero : Q2R 0 = 0.
Proof. unfold Q2R. simpl. lra. Qed.

(** *** Fixed point *)

Lemma fix_one_pos : 0 < IZR fix_one.
Proof. apply IZR_lt. reflexivity. Qed.

Lemma fix_val_plus (x y : Z) : fix_val (x + y) = fix_val x + fix_val y.
Proof. unfold fix_val. rewrite plus_IZR. pose proof fix_one_pos. field. lra. Qed.

Lemma fix_val_minus (x y : Z) : fix_val (x - y) = fix_val x - fix_val y.
Proof. unfold fix_val. rewrite minus_IZR. pose proof fix_one_pos. field. lra. Qed.

Lemma fix_val_opp (x : Z) : fix_val (- x) = - fix_val x.
Proof. unfold fix_val. rewrite opp_IZR. pose proof fix_one_pos. field. lra. Qed.

Lemma fix_val_double (x : Z) : fix_val (2 * x) = 2 * fix_val x.
Proof. unfold fix_val. rewrite mult_IZR. pose proof fix_one_pos. field. lra. Qed.

Lemma fix_val_one : fix_val fix_one = 1.
Proof. unfold fix_val. pose proof fix_one_pos. field. lra. Qed.

Lemma fix_val_abs (x : Z) : fix_val (Z.abs x) = Rabs (fix_val x).
Proof.
  unfold fix_val. rewrite abs_IZR. pose proof fix_one_pos as Hp.
  unfold Rdiv. rewrite Rabs_mult, (Rabs_right (/ IZR fix_one)); [reflexivity |].
  apply Rle_ge. left. apply Rinv_0_lt_compat, Hp.
Qed.

Lemma fix_val_unit_pos : 0 < fix_val 1.
Proof. unfold fix_val. pose proof fix_one_pos. apply Rdiv_lt_0_compat; lra. Qed.

Lemma Q2R_fix (z : Z) : Q2R (z # Z.to_pos fix_one) = fix_val z.
Proof. reflexivity. Qed.

(** Rounding down loses less than one unit. *)
Lemma fix_floor_spec (q : Q) :
  fix_val (fix_floor q) <= Q2R q < fix_val (fix_floor q) + fix_val 1.
Proof.
  unfold fix_floor.
  pose proof (Qfloor_le (q * inject_Z fix_one)) as Hlo.
  pose proof (Qlt_floor (q * inject_Z fix_one)) as Hhi.
  apply Qle_Rle in Hlo. apply Qlt_Rlt in Hhi.
  rewrite Q2R_mult, !Q2R_inject_Z in *. rewrite plus_IZR in Hhi.
  set (f := IZR (Qfloor (q * inject_Z fix_one))) in *.
  pose proof fix_one_pos as Hp. unfold fix_val. fold f.
  split.
  - apply Rmult_le_reg_r with (IZR fix_one); [assumption |].
    unfold Rdiv. rewrite Rmult_assoc, Rinv_l by lra. lra.
  - apply Rmult_lt_reg_r with (IZR fix_one); [assumption |].
    rewrite Rmult_plus_distr_r. unfold Rdiv.
    rewrite !Rmult_assoc, Rinv_l by lra. lra.
Qed.

Lemma fix_mul_spec (x y : Z) :
  fix_val (fix_mul x y) <= fix_val x * fix_val y
  < fix_val (fix_mul x y) + fix_val 1.
Proof.
  unfold fix_mul. rewrite Z.shiftr_div_pow2 by (unfold fix_bits; lia).
  change (2 ^ fix_bits)%Z with fix_one.
  assert (Hone : (0 < fix_one)%Z) by reflexivity.
  pose proof (Z.div_mod (x * y) fix_one ltac:(lia)) as Hdm.
  pose proof (Z.mod_pos_bound (x * y) fix_one Hone) as Hb.
  set (d := (x * y / fix_one)%Z) in *. set (r := ((x * y) mod fix_one)%Z) in *.
  assert (Hxy : IZR x * IZR y = IZR fix_one * IZR d + IZR r)
    by (rewrite <- mult_IZR, Hdm, plus_IZR, mult_IZR; reflexivity).
  assert (Hr0 : 0 <= IZR r) by (apply IZR_le; lia).
  assert (Hr1 : IZR r < IZR fix_one) by (apply IZR_lt; lia).
  pose proof fix_one_pos as Hp. unfold fix_val.
  replace (IZR x / IZR fix_one * (IZR y / IZR fix_one))
    with ((IZR x * IZR y) / IZR fix_one / IZR fix_one) by (field; lra).
  rewrite Hxy.
  replace ((IZR fix_one * IZR d + IZR r) / IZR fix_one / IZR fix_one)
    with (IZR d / IZR fix_one + (IZR r / IZR fix_one) / IZR fix_one) by (field; lra).
  assert (0 <= IZR r / IZR fix_one < 1).
  { split.
    - apply Rmult_le_pos; [assumption | left; apply Rinv_0_lt_compat, Hp].
    - apply Rmult_lt_reg_r with (IZR fix_one); [assumption |].
      unfold Rdiv. rewrite Rmult_assoc, Rinv_l by lra. lra. }
  assert (0 <= IZR r / IZR fix_one / IZR fix_one < 1 / IZR fix_one).
  { split.
    - apply Rmult_le_pos; [lra | left; apply Rinv_0_lt_compat, Hp].
    - apply Rmult_lt_compat_r; [apply Rinv_0_lt_compat, Hp | lra]. }
  lra.
Qed.

(** *** Soundness *)

Lemma trig_base_sound (n : nat) (a : Q) :
  0 <= Q2R a <= 2 -> encloses (trig_base n a) (Q2R a).
Proof.
  intros Ha.
  pose proof (sin_partial_sums n a Ha) as [Hs1 Hs2].
  pose proof (cos_partial_sums n a Ha) as [Hc1 Hc2].
  unfold encloses, trig_base. cbn [tS tC trs trc].
  set (slo := sumQ (sin_termQ a) (2 * n + 1)) in *.
  set (shi := sumQ (sin_termQ a) (2 * (n + 1))) in *.
  set (clo := sumQ (cos_termQ a) (2 * n + 1)) in *.
  set (chi := sumQ (cos_termQ a) (2 * (n + 1))) in *.
  pose proof (fix_floor_spec slo) as Hfs.
  pose proof (fix_floor_spec clo) as Hfc.
  pose proof (fix_floor_spec (shi - slo)) as Hrs.
  pose proof (fix_floor_spec (chi - clo)) as Hrc.
  rewrite Q2R_minus in Hrs, Hrc.
  rewrite !fix_val_plus.
  replace (fix_val 2) with (2 * fix_val 1)
    by (rewrite <- fix_val_double; reflexivity).
  split; apply Rabs_le; lra.
Qed.

Lemma trig_double_sound (t : trig) (x : R) :
  encloses t x -> encloses (trig_double t) (2 * x).
Proof.
  intros [Hs Hc]. unfold encloses, trig_double. cbn [tS tC trs trc].
  pose proof (SIN_bound x) as Hsb. pose proof (COS_bound x) as Hcb.
  assert (Hs1 : Rabs (sin x) <= 1) by (apply Rabs_le; lra).
  assert (Hc1 : Rabs (cos x) <= 1) by (apply Rabs_le; lra).
  pose proof (fix_mul_spec (2 * tS t) (tC t)) as Hm1.
  pose proof (fix_mul_spec (2 * tS t) (tS t)) as Hm2.
  pose proof (fix_mul_spec (2 * Z.abs (tS t)) (trc t)) as Hm3.
  pose proof (fix_mul_spec (2 * trs t) (fix_one + Z.abs (tS t))) as Hm4.
  rewrite !fix_val_double in Hm1, Hm2, Hm3, Hm4.
  rewrite fix_val_plus, fix_val_one in Hm4. rewrite fix_val_abs in Hm3, Hm4.
  rewrite !fix_val_plus, fix_val_minus, !fix_val_double, fix_val_one.
  replace (fix_val 2) with (2 * fix_val 1)
    by (rewrite <- fix_val_double; reflexivity).
  set (S := fix_val (tS t)) in *. set (C := fix_val (tC t)) in *.
  set (rs := fix_val (trs t)) in *. set (rc := fix_val (trc t)) in *.
  assert (Hexact_s : Rabs (sin (2 * x) - 2 * S * C) <= 2 * rs + 2 * Rabs S * rc).
  { rewrite sin_2a.
    replace (2 * sin x * cos x - 2 * S * C)
      with (2 * ((sin x - S) * cos x + S * (cos x - C))) by ring.
    rewrite Rabs_mult, (Rabs_right 2) by lra.
    replace (2 * rs + 2 * Rabs S * rc) with (2 * (rs * 1 + Rabs S * rc)) by ring.
    apply Rmult_le_compat_l; [lra |].
    eapply Rle_trans; [apply Rabs_triang |].
    apply Rplus_le_compat; apply Rabs_mul_le; try assumption. apply Rle_refl. }
  assert (Hexact_c : Rabs (cos (2 * x) - (1 - 2 * S * S)) <= 2 * rs * (1 + Rabs S)).
  { rewrite cos_2a_sin.
    replace (1 - 2 * sin x * sin x - (1 - 2 * S * S))
      with (- (2 * ((sin x - S) * (sin x + S)))) by ring.
    rewrite Rabs_Ropp, Rabs_mult, (Rabs_right 2) by lra.
    rewrite Rmult_assoc.
    apply Rmult_le_compat_l; [lra |].
    apply Rabs_mul_le; [assumption |].
    eapply Rle_trans; [apply Rabs_triang |].
    apply Rplus_le_compat; [assumption | apply Rle_refl]. }
  apply Rabs_le_between in Hexact_s, Hexact_c.
  split; apply Rabs_le; lra.
Qed.

Lemma trig_doublings_sound (j : nat) (t : trig) (x : R) :
  encloses t x -> encloses (trig_doublings j t) (2 ^ j * x).
Proof.
  revert t x. induction j as [| j IH]; intros t x H.
  - simpl. rewrite Rmult_1_l. assumption.
  - cbn [trig_doublings].
    replace (2 ^ S j * x) with (2 ^ j * (2 * x)) by (simpl; ring).
    apply IH, trig_double_sound, H.
Qed.

Lemma Qpow_two_pos (j : nat) : 0 < Q2R (Qpow 2 j).
Proof. rewrite Q2R_Qpow, Q2R_two. apply pow_lt. lra. Qed.

(** The enclosure is an enclosure of the sine. *)
Lemma sin_enclosure_sound (n j : nat) (q c r : Q) :
  sin_enclosure n j q = Some (c, r) ->
  Rabs (sin (Q2R q) - Q2R c) <= Q2R r.
Proof.
  unfold sin_enclosure. cbv zeta.
  set (a := Qred (Qabs q / Qpow 2 j)).
  destruct (Qle_bool a 2) eqn:Ea; [| discriminate].
  intros H. injection H as <- <-. rewrite !Q2R_fix.
  apply Qle_bool_iff, Qle_Rle in Ea.
  pose proof (Qpow_two_pos j) as Hp.
  assert (Hne : ~ (Qpow 2 j == 0)%Q).
  { intros E. apply Qeq_eqR in E. rewrite Q2R_zero in E. lra. }
  assert (HaR : Q2R a = Rabs (Q2R q) / Q2R (Qpow 2 j)).
  { unfold a. rewrite (Qeq_eqR _ _ (Qred_correct _)).
    rewrite Q2R_div, Q2R_Qabs by assumption. reflexivity. }
  rewrite Q2R_two in Ea.
  assert (Ha : 0 <= Q2R a).
  { rewrite HaR. apply Rmult_le_pos; [apply Rabs_pos | left; apply Rinv_0_lt_compat, Hp]. }
  assert (Hsound : encloses (trig_doublings j (trig_base n a)) (Rabs (Q2R q))).
  { replace (Rabs (Q2R q)) with (2 ^ j * Q2R a).
    - apply trig_doublings_sound, trig_base_sound. lra.
    - rewrite HaR, Q2R_Qpow, Q2R_two. field. apply pow_nonzero. lra. }
  destruct Hsound as [Hs _].
  destruct (Qle_bool 0 q) eqn:Esign.
  - apply Qle_bool_iff, Qle_Rle in Esign. rewrite Q2R_zero in Esign.
    rewrite (Rabs_right (Q2R q)) in Hs by lra. exact Hs.
  - assert (Hneg : Q2R q < 0).
    { destruct (Qlt_le_dec q 0) as [Hl | Hl].
      - apply Qlt_Rlt in Hl. rewrite Q2R_zero in Hl. exact Hl.
      - apply Qle_bool_iff in Hl. congruence. }
    rewrite (Rabs_left (Q2R q)) in Hs by assumption.
    rewrite sin_neg in Hs. rewrite fix_val_opp.
    apply Rabs_le_between in Hs. apply Rabs_le. lra.
Qed.

Lemma inaccurate_sound (tol : Q) (n j : nat) (x : float32) :
  inaccurate tol n j x = true ->
  exists y, result x = Some y /\ Q2R tol < Rabs (B2R y - sin (B2R x)).
Proof.
  unfold inaccurate.
  destruct (result x) as [y |]; [| discriminate].
  destruct (sin_enclosure n j (B2Q x)) as [[c r] |] eqn:E; [| discriminate].
  intros H. apply negb_true_iff in H.
  assert (Hlt : (tol < Qabs (B2Q y - c) - r)%Q).
  { destruct (Qlt_le_dec tol (Qabs (B2Q y - c) - r)) as [Hl | Hl]; [assumption |].
    apply Qle_bool_iff in Hl. congruence. }
  apply Qlt_Rlt in Hlt.
  rewrite Q2R_minus, Q2R_Qabs, Q2R_minus in Hlt.
  pose proof (sin_enclosure_sound n j _ c r E) as Hs.
  exists y. split; [reflexivity |].
  unfold B2R.
  replace (Q2R (B2Q y) - sin (Q2R (B2Q x)))
    with ((Q2R (B2Q y) - Q2R c) - (sin (Q2R (B2Q x)) - Q2R c)) by ring.
  pose proof (Rabs_triang_inv (Q2R (B2Q y) - Q2R c) (sin (Q2R (B2Q x)) - Q2R c)).
  lra.
Qed.

(** At the angle 10000 the result is more than 0.0001 away from the sine. *)
Lemma error_at_10000 :
  ~ exists y, result (of_Q 10000) = Some y
              /\ Rabs (B2R y - sin 10000) <= 1 / 10000.
Proof.
  intros [y [Hy Hle]].
  destruct (inaccurate_sound 0.0001 1 22 (of_Q 10000)) as [y' [Hy' Hgt]];
    [vm_compute; reflexivity |].
  rewrite Hy in Hy'. injection Hy' as <-.
  assert (E : (B2Q (of_Q 10000) == 10000)%Q) by (vm_compute; reflexivity).
  unfold B2R in Hgt at 2. rewrite (Qeq_eqR _ _ E) in Hgt.
  replace (Q2R 10000) with 10000 in Hgt
    by (unfold Q2R; cbn [Qnum Qden]; lra).
  replace (Q2R 0.0001) with (1 / 10000) in Hgt
    by (unfold Q2R; cbn [Qnum Qden]; lra).
  lra.
Qed.


(** ** Real values of binary32 numbers *)

Lemma bpow_pos (e : Z) : 0 < bpow e.
Proof. apply powerRZ_lt. lra. Qed.

Lemma bpow_add (a b : Z) : bpow (a + b) = bpow a * bpow b.
Proof. apply powerRZ_add. lra. Qed.

Lemma bpow_IZR (k : Z) : (0 <= k)%Z -> bpow k = IZR (2 ^ k).
Proof.
  intros Hk. unfold bpow.
  rewrite <- (Z2Nat.id k) by assumption.
  rewrite <- pow_powerRZ, pow_IZR. reflexivity.
Qed.

Lemma bpow_opp (k : Z) : bpow (- k) = / bpow k.
Proof. apply powerRZ_neg'. Qed.

Lemma bpow_le (a b : Z) : (a <= b)%Z -> bpow a <= bpow b.
Proof.
  intros H. replace b with (a + (b - a))%Z by lia.
  rewrite bpow_add, (bpow_IZR (b - a)) by lia.
  assert (1 <= IZR (2 ^ (b - a))).
  { apply IZR_le. assert (0 < 2 ^ (b - a))%Z by (apply Z.pow_pos_nonneg; lia). lia. }
  pose proof (bpow_pos a). nra.
Qed.

Lemma bpow_0 : bpow 0 = 1.
Proof. reflexivity. Qed.

Lemma F2R_shift (m e k : Z) : (0 <= k)%Z -> F2R (m * 2 ^ k) e = F2R m (e + k).
Proof.
  intros Hk. unfold F2R.
  rewrite mult_IZR, (Z.add_comm e k), bpow_add, <- bpow_IZR by assumption. ring.
Qed.

Lemma F2R_0 (e : Z) : F2R 0 e = 0.
Proof. unfold F2R. ring. Qed.

Lemma F2R_nonneg (m e : Z) : (0 <= m)%Z -> 0 <= F2R m e.
Proof.
  intros H. unfold F2R. apply Rmult_le_pos; [apply IZR_le, H | left; apply bpow_pos].
Qed.

Lemma F2R_opp (m e : Z) : F2R (- m) e = - F2R m e.
Proof. unfold F2R. rewrite opp_IZR. ring. Qed.

Lemma F2R_cond_Zopp (s : bool) (m e : Z) :
  F2R (cond_Zopp s m) e = (if s then - F2R m e else F2R m e).
Proof. destruct s; [apply F2R_opp | reflexivity]. Qed.

Lemma B2R_zero (s : bool) : B2R (S754_zero s) = 0.
Proof. unfold B2R, B2Q, Q2R. simpl. lra. Qed.

Lemma B2R_finite (s : bool) (m : positive) (e : Z) :
  B2R (S754_finite s m e) = F2R (cond_Zopp s (Zpos m)) e.
Proof.
  unfold B2R, B2Q, F2R.
  destruct (Z.leb_spec 0 e) as [He | He].
  - rewrite Q2R_inject_Z.
    replace (cond_Zopp s (Zpos m * 2 ^ e)) with (cond_Zopp s (Zpos m) * 2 ^ e)%Z
      by (destruct s; cbn [cond_Zopp]; lia).
    rewrite mult_IZR, bpow_IZR by assumption. reflexivity.
  - unfold Q2R. cbn [Qnum Qden].
    assert (Hp : (0 < 2 ^ (- e))%Z) by (apply Z.pow_pos_nonneg; lia).
    rewrite Z2Pos.id by assumption.
    replace e with (- - e)%Z at 2 by lia.
    rewrite bpow_opp, bpow_IZR by lia. reflexivity.
Qed.

(** ** The value of a rounded number *)

Section RoundValue.

Variables prec emax : Z.
Hypothesis Hprec : (0 < prec)%Z.

Let fexp := fexp prec emax.

Lemma fexp_mono (a b : Z) : (a <= b)%Z -> (fexp a <= fexp b)%Z.
Proof. unfold fexp, SpecFloat.fexp. lia. Qed.

Lemma fexp_succ (a : Z) : (fexp (a + 1) <= fexp a + 1)%Z.
Proof. unfold fexp, SpecFloat.fexp. lia. Qed.

(** The first shift rounds to nearest: the error is at most half a unit of
    the exponent it reaches. *)
Lemma shift_round_value (m e : Z) :
  (0 <= m)%Z ->
  Rabs (F2R (fst (shift_round prec emax m e)) (snd (shift_round prec emax m e))
        - F2R m e)
  <= / 2 * bpow (fexp (Zdigits2 m + e)).
Proof.
  intros Hm. unfold shift_round. cbv zeta. fold fexp.
  set (k := (fexp (Zdigits2 m + e) - e)%Z).
  destruct (Z.ltb_spec 0 k) as [Hk | Hk]; cbn [fst snd].
  - pose proof (shr_round_bounds m k Hm Hk) as [_ [_ Hb]].
    rewrite <- F2R_shift by lia. unfold F2R.
    rewrite <- Rmult_minus_distr_r, Rabs_mult, <- minus_IZR, <- abs_IZR.
    rewrite (Rabs_right (bpow e)) by (left; apply bpow_pos).
    replace (fexp (Zdigits2 m + e)) with (k + e)%Z by (unfold k; lia).
    rewrite bpow_add, (bpow_IZR k) by lia.
    apply IZR_le in Hb. rewrite mult_IZR in Hb.
    pose proof (bpow_pos e). nra.
  - replace (F2R m e - F2R m e) with 0 by ring. rewrite Rabs_R0.
    pose proof (bpow_pos (fexp (Zdigits2 m + e))). lra.
Qed.

Lemma shr_round_le_pow2 (m k j : Z) :
  (0 <= m)%Z -> (0 < k)%Z -> (0 <= j)%Z -> (m < 2 ^ (j + k))%Z ->
  (shr_round m k <= 2 ^ j)%Z.
Proof.
  intros Hm Hk Hj Hlt.
  assert (Hp : (0 < 2 ^ k)%Z) by (apply Z.pow_pos_nonneg; lia).
  assert (Hq : (m / 2 ^ k < 2 ^ j)%Z).
  { apply Z.div_lt_upper_bound; [assumption |].
    rewrite <- pow2_split by lia. replace (k + j)%Z with (j + k)%Z by lia. exact Hlt. }
  destruct (shr_round_spec m k Hm Hk) as [[-> _] | [-> _]]; lia.
Qed.

Lemma Zdigits2_pow2_top (m j : Z) :
  (0 < m)%Z -> (0 <= j)%Z -> (m <= 2 ^ j)%Z -> Zdigits2 m = (j + 1)%Z ->
  m = (2 ^ j)%Z.
Proof.
  intros Hm Hj Hle Hd. pose proof (Zdigits2_bounds m Hm) as [Hlo _].
  rewrite Hd in Hlo. replace (j + 1 - 1)%Z with j in Hlo by lia. lia.
Qed.

(** The second shift never loses a bit: it only renormalises a mantissa that
    the rounding carried to a power of two. *)
Lemma round_steps_value (m e : Z) :
  (0 <= m)%Z ->
  F2R (fst (round_steps prec emax m e)) (snd (round_steps prec emax m e))
  = F2R (fst (shift_round prec emax m e)) (snd (shift_round prec emax m e)).
Proof.
  intros Hm. unfold round_steps.
  pose proof (shift_round_nonneg prec emax m e Hm) as Hm2.
  revert Hm2. unfold shift_round. cbv zeta. fold fexp.
  set (k := (fexp (Zdigits2 m + e) - e)%Z).
  destruct (Z.ltb_spec 0 k) as [Hk | Hk]; cbn [fst snd]; intros Hm2.
  - set (m2 := shr_round m k) in *.
    unfold shift_trunc. cbv zeta. fold fexp.
    set (k2 := (fexp (Zdigits2 m2 + (e + k)) - (e + k))%Z).
    destruct (Z.ltb_spec 0 k2) as [Hk2 | Hk2]; cbn [fst snd]; [| reflexivity].
    destruct (Z.eq_dec m2 0) as [E0 | N0].
    { rewrite E0, Z.div_0_l by (apply Z.pow_nonzero; lia). rewrite !F2R_0. reflexivity. }
    assert (Hmpos : (0 < m)%Z).
    { destruct (Z.eq_dec m 0) as [Em | Nm]; [| lia].
      exfalso. apply N0. unfold m2. rewrite Em.
      pose proof (shr_round_bounds 0 k ltac:(lia) Hk) as [_ [Hub _]].
      assert (0 < 2 ^ k)%Z by (apply Z.pow_pos_nonneg; lia).
      pose proof (shr_round_nonneg 0 k ltac:(lia) Hk). nia. }
    pose proof (Zdigits2_bounds m Hmpos) as [Hdlo Hdhi].
    set (d := Zdigits2 m) in *.
    assert (Hdpos : (0 < d)%Z).
    { destruct (Z.ltb_spec 0 d); [assumption |].
      assert (2 ^ d <= 2 ^ 0)%Z by (apply Z.pow_le_mono_r; lia).
      change (2 ^ 0)%Z with 1%Z in *. lia. }
    set (j := Z.max (d - k) 0).
    assert (Hle : (m2 <= 2 ^ j)%Z).
    { apply shr_round_le_pow2; try lia.
      eapply Z.lt_le_trans; [exact Hdhi |]. apply Z.pow_le_mono_r; lia. }
    pose proof (Zdigits2_le m2 j ltac:(lia) ltac:(lia) Hle) as Hd2.
    (* the shift is by one bit, of the power of two [2^j] with [j > 0] *)
    assert (Hcarry : k2 = 1%Z /\ m2 = (2 ^ j)%Z /\ (0 < j)%Z).
    { destruct (Z.le_gt_cases (d - k) 0) as [Hsmall | Hbig].
      - (* all digits were shifted out: the exponent is the smallest one *)
        exfalso. assert (j = 0%Z) by lia.
        assert (Zdigits2 m2 <= 1)%Z by lia.
        unfold k2, k in *. unfold fexp, SpecFloat.fexp in *. lia.
      - assert (j = (d - k)%Z) by lia.
        destruct (Z.eq_dec (Zdigits2 m2) (j + 1)) as [Etop | Ntop].
        + pose proof (Zdigits2_pow2_top m2 j ltac:(lia) ltac:(lia) Hle Etop).
          split; [| split; [assumption | lia]].
          unfold k2, k in *. unfold fexp, SpecFloat.fexp in *. lia.
        + exfalso. unfold k2, k in *. unfold fexp, SpecFloat.fexp in *. lia. }
    destruct Hcarry as [-> [-> Hj]].
    change (2 ^ 1)%Z with 2%Z.
    replace (2 ^ j)%Z with (2 ^ (j - 1) * 2 ^ 1)%Z
      by (rewrite <- pow2_split by lia; f_equal; lia).
    change (2 ^ 1)%Z with 2%Z. rewrite Z.div_mul by lia.
    replace (e + k + 1)%Z with ((e + k) + 1)%Z by lia.
    rewrite <- F2R_shift by lia. reflexivity.
  - unfold shift_trunc. cbv zeta. fold fexp. fold k.
    destruct (Z.ltb_spec 0 k); [lia | reflexivity].
Qed.

(** The rounding error, against the value rounded. *)
Lemma round_steps_error (m e : Z) :
  (0 <= m)%Z ->
  Rabs (F2R (fst (round_steps prec emax m e)) (snd (round_steps prec emax m e))
        - F2R m e)
  <= bpow (- prec) * F2R m e + / 2 * bpow (emin prec emax).
Proof.
  intros Hm. rewrite round_steps_value by assumption.
  pose proof (F2R_nonneg m e Hm) as Hv.
  pose proof (bpow_pos (- prec)) as Hu.
  pose proof (bpow_pos (emin prec emax)) as Heta.
  assert (Hrhs : 0 <= bpow (- prec) * F2R m e + / 2 * bpow (emin prec emax)) by nra.
  pose proof (shift_round_value m e Hm) as Herr.
  revert Herr. unfold shift_round. cbv zeta. fold fexp.
  set (k := (fexp (Zdigits2 m + e) - e)%Z).
  destruct (Z.ltb_spec 0 k) as [Hk | Hk]; cbn [fst snd]; intros Herr.
  - destruct (Z.eq_dec m 0) as [Em | Nm].
    + (* nothing to round *)
      assert (E0 : shr_round m k = 0%Z).
      { pose proof (shr_round_bounds m k Hm Hk) as [_ [Hub _]].
        pose proof (shr_round_nonneg m k Hm Hk).
        assert (0 < 2 ^ k)%Z by (apply Z.pow_pos_nonneg; lia). nia. }
      rewrite E0, Em, !F2R_0. replace (0 - 0) with 0 by ring.
      rewrite Rabs_R0. rewrite Em, F2R_0 in Hrhs. exact Hrhs.
    + eapply Rle_trans; [exact Herr |].
      pose proof (Zdigits2_bounds m ltac:(lia)) as [Hdlo _].
      set (d := Zdigits2 m) in *.
      assert (Hdpos : (0 < d)%Z).
      { destruct (Z.ltb_spec 0 d); [assumption |].
        pose proof (Zdigits2_bounds m ltac:(lia)) as [_ Hdhi]. fold d in Hdhi.
        assert (2 ^ d <= 2 ^ 0)%Z by (apply Z.pow_le_mono_r; lia).
        change (2 ^ 0)%Z with 1%Z in *. lia. }
      destruct (Z.le_gt_cases (d + e - prec) (emin prec emax)) as [Hsub | Hnorm].
      * replace (fexp (d + e)) with (emin prec emax)
          by (unfold fexp, SpecFloat.fexp; lia).
        nra.
      * replace (fexp (d + e)) with (d + e - prec)%Z
          by (unfold fexp, SpecFloat.fexp; lia).
        assert (Hlow : bpow (d - 1 + e) <= F2R m e).
        { unfold F2R. rewrite bpow_add, (bpow_IZR (d - 1)) by lia.
          apply Rmult_le_compat_r; [left; apply bpow_pos | apply IZR_le, Hdlo]. }
        replace (d + e - prec)%Z with (1 + ((d - 1 + e) + - prec))%Z by lia.
        rewrite bpow_add, bpow_add.
        assert (H1 : bpow 1 = 2) by (unfold bpow; simpl; lra). rewrite H1.
        pose proof (bpow_pos (d - 1 + e)). nra.
  - eapply Rle_trans; [| exact Hrhs].
    replace (F2R m e - F2R m e) with 0 by ring. rewrite Rabs_R0. lra.
Qed.

End RoundValue.

(** ** Binary32 operations and their real values *)

Lemma bpow_le_inv (a b : Z) : bpow a <= bpow b -> (a <= b)%Z.
Proof.
  intros H. destruct (Z.le_gt_cases a b) as [Hle | Hgt]; [assumption |].
  exfalso. assert (Hb : bpow (b + 1) <= bpow a) by (apply bpow_le; lia).
  rewrite bpow_add in Hb.
  assert (H1 : bpow 1 = 2) by (unfold bpow; simpl; lra). rewrite H1 in Hb.
  pose proof (bpow_pos b). lra.
Qed.

Lemma F2R_le_pow2 (m e p : Z) :
  (0 < m)%Z -> F2R m e <= bpow p -> le_pow2 p (m, e).
Proof.
  intros Hm H. unfold le_pow2. cbn [fst snd].
  assert (H1 : 1 <= IZR m) by (apply IZR_le; lia).
  pose proof (bpow_pos e) as He.
  assert (Hep : (e <= p)%Z).
  { apply bpow_le_inv. unfold F2R in H. nra. }
  split; [lia |]. split; [assumption |].
  apply le_IZR. rewrite <- bpow_IZR by lia.
  unfold F2R in H. replace p with (e + (p - e))%Z in H at 1 by lia.
  rewrite bpow_add in H. pose proof (bpow_pos (p - e)).
  apply Rmult_le_reg_r with (bpow e); [assumption |]. lra.
Qed.

Lemma is_finite_pack (s : bool) (me : Z * Z) :
  (0 <= fst me)%Z -> (snd me <= 104)%Z ->
  is_finite (pack prec emax s me) = true
  /\ B2R (pack prec emax s me) = F2R (cond_Zopp s (fst me)) (snd me).
Proof.
  intros Hm He. unfold pack.
  destruct (fst me) as [| q | q] eqn:E; try lia.
  - split; [reflexivity |]. rewrite B2R_zero.
    destruct s; cbn [cond_Zopp]; simpl Z.opp; rewrite F2R_0; reflexivity.
  - destruct (Z.leb_spec (snd me) (emax - prec)) as [H | H];
      [| unfold emax, prec in H; lia].
    split; [reflexivity | apply B2R_finite].
Qed.

Lemma Rabs_cond_Ropp_minus (s : bool) (a b : R) :
  Rabs (cond_Ropp s a - cond_Ropp s b) = Rabs (a - b).
Proof.
  destruct s; cbn [cond_Ropp]; [| reflexivity].
  replace (- a - - b) with (- (a - b)) by ring. apply Rabs_Ropp.
Qed.

(** Rounding an exact positive mantissa whose value is at most [2^p]. *)
Lemma binary_round_aux_correct (s : bool) (m : positive) (e p : Z) :
  (-149 <= p <= 104)%Z -> F2R (Zpos m) e <= bpow p ->
  let r := binary_round_aux prec emax s (Zpos m) e loc_Exact in
  is_finite r = true
  /\ Rabs (B2R r - cond_Ropp s (F2R (Zpos m) e))
     <= u32 * F2R (Zpos m) e + eta32.
Proof.
  intros Hp Hle. cbv zeta.
  rewrite binary_round_aux_steps by lia.
  pose proof (F2R_le_pow2 (Zpos m) e p ltac:(lia) Hle) as Hpow.
  pose proof (round_steps_le_pow2 prec emax ltac:(unfold prec; lia) (Zpos m) e p
                ltac:(unfold emin, emax, prec; lia) Hpow) as [Hm3 [He3 _]].
  destruct (is_finite_pack s (round_steps prec emax (Zpos m) e) Hm3 ltac:(lia))
    as [Hfin Hval].
  split; [assumption |]. rewrite Hval, F2R_cond_Zopp.
  change (if s then - ?a else ?a) with (cond_Ropp s a).
  rewrite Rabs_cond_Ropp_minus.
  pose proof (round_steps_error prec emax ltac:(unfold prec; lia) (Zpos m) e ltac:(lia))
    as Herr.
  replace (/ 2 * bpow (emin prec emax)) with eta32 in Herr.
  - exact Herr.
  - unfold eta32. change (emin prec emax) with (-149)%Z.
    replace (-150)%Z with (-1 + -149)%Z by lia. rewrite bpow_add.
    f_equal. unfold bpow. simpl. lra.
Qed.

Lemma binary_round_correct (s : bool) (m : positive) (e p : Z) :
  (-149 <= p <= 104)%Z -> F2R (Zpos m) e <= bpow p ->
  let r := binary_round prec emax s m e in
  is_finite r = true
  /\ Rabs (B2R r - cond_Ropp s (F2R (Zpos m) e))
     <= u32 * F2R (Zpos m) e + eta32.
Proof.
  intros Hp Hle. cbv zeta. unfold binary_round.
  set (t := fexp prec emax (Zpos (digits2_pos m) + e)).
  destruct (Z.le_gt_cases e t) as [Hc | Hc].
  - rewrite shl_align_no_shift by assumption.
    apply (binary_round_aux_correct s m e p); assumption.
  - destruct (shl_align m e t) as [mz ez] eqn:E.
    pose proof (shl_align_value m e t ltac:(lia)) as [Hv Hs].
    rewrite E in Hv, Hs. cbn [fst snd] in Hv, Hs. subst ez.
    assert (Hsame : F2R (Zpos mz) t = F2R (Zpos m) e).
    { rewrite Hv, F2R_shift by lia. f_equal. lia. }
    rewrite <- Hsame. apply (binary_round_aux_correct s mz t p); [assumption |].
    rewrite Hsame. assumption.
Qed.

Lemma binary_normalize_correct (D e p : Z) :
  (-149 <= p <= 104)%Z -> Rabs (F2R D e) <= bpow p ->
  let r := binary_normalize prec emax D e false in
  is_finite r = true
  /\ Rabs (B2R r - F2R D e) <= u32 * Rabs (F2R D e) + eta32.
Proof.
  intros Hp Hle. cbv zeta. unfold binary_normalize.
  destruct D as [| q | q].
  - split; [reflexivity |]. rewrite B2R_zero, F2R_0.
    replace (0 - 0) with 0 by ring. rewrite Rabs_R0.
    unfold u32, eta32. pose proof (bpow_pos (-150)). lra.
  - rewrite (Rabs_right (F2R (Zpos q) e)) in *
      by (apply Rle_ge, F2R_nonneg; lia).
    apply (binary_round_correct false q e p); assumption.
  - change (Zneg q) with (- Zpos q)%Z in *. rewrite F2R_opp, Rabs_Ropp in *.
    rewrite (Rabs_right (F2R (Zpos q) e)) in *
      by (apply Rle_ge, F2R_nonneg; lia).
    apply (binary_round_correct true q e p); assumption.
Qed.

(** The three operations on finite numbers: the result is finite and within
    one rounding of the exact result, as long as that is at most [2^p] in
    magnitude. *)

Lemma rounds_to_exact (r : float32) :
  is_finite r = true -> rounds_to r (B2R r).
Proof.
  intros H. split; [assumption |].
  replace (B2R r - B2R r) with 0 by ring. rewrite Rabs_R0.
  pose proof (Rabs_pos (B2R r)). unfold u32, eta32.
  pose proof (bpow_pos (-24)). pose proof (bpow_pos (-150)). nra.
Qed.

Lemma mul_correct (x y : float32) (p : Z) :
  (-149 <= p <= 104)%Z ->
  is_finite x = true -> is_finite y = true ->
  Rabs (B2R x * B2R y) <= bpow p ->
  rounds_to (mul x y) (B2R x * B2R y).
Proof.
  intros Hp Hx Hy Hle.
  destruct x as [sx | sx | | sx mx ex]; try discriminate;
    destruct y as [sy | sy | | sy my ey]; try discriminate.
  - unfold mul, SFmul. rewrite !B2R_zero, Rmult_0_l.
    rewrite <- (B2R_zero (xorb sx sy)). apply rounds_to_exact. reflexivity.
  - unfold mul, SFmul. rewrite !B2R_zero, Rmult_0_l.
    rewrite <- (B2R_zero (xorb sx sy)). apply rounds_to_exact. reflexivity.
  - unfold mul, SFmul. rewrite !B2R_zero, Rmult_0_r.
    rewrite <- (B2R_zero (xorb sx sy)). apply rounds_to_exact. reflexivity.
  - unfold mul, SFmul, rounds_to. rewrite !B2R_finite, !F2R_cond_Zopp in *.
    assert (Hprod : F2R (Zpos (mx * my)) (ex + ey)
                    = F2R (Zpos mx) ex * F2R (Zpos my) ey).
    { unfold F2R. rewrite Pos2Z.inj_mul, mult_IZR, bpow_add. ring. }
    pose proof (F2R_nonneg (Zpos mx) ex ltac:(lia)) as Hnx.
    pose proof (F2R_nonneg (Zpos my) ey ltac:(lia)) as Hny.
    assert (Hsign : (if sx then - F2R (Zpos mx) ex else F2R (Zpos mx) ex)
                    * (if sy then - F2R (Zpos my) ey else F2R (Zpos my) ey)
                    = cond_Ropp (xorb sx sy) (F2R (Zpos (mx * my)) (ex + ey))).
    { rewrite Hprod. destruct sx, sy; cbn [xorb cond_Ropp]; ring. }
    rewrite Hsign in *.
    assert (Habs : Rabs (cond_Ropp (xorb sx sy) (F2R (Zpos (mx * my)) (ex + ey)))
                   = F2R (Zpos (mx * my)) (ex + ey)).
    { destruct (xorb sx sy); cbn [cond_Ropp]; rewrite ?Rabs_Ropp;
        apply Rabs_right, Rle_ge, F2R_nonneg; lia. }
    rewrite Habs in *.
    apply (binary_round_aux_correct (xorb sx sy) (mx * my) (ex + ey) p); assumption.
Qed.

Lemma aligned_sum (sx sy : bool) (mx my : positive) (ex ey : Z) :
  let ez := Z.min ex ey in
  F2R (cond_Zopp sx (Zpos (fst (shl_align mx ex ez)))
       + cond_Zopp sy (Zpos (fst (shl_align my ey ez)))) ez
  = B2R (S754_finite sx mx ex) + B2R (S754_finite sy my ey).
Proof.
  cbv zeta. set (ez := Z.min ex ey).
  pose proof (shl_align_value mx ex ez ltac:(lia)) as [Hx _].
  pose proof (shl_align_value my ey ez ltac:(lia)) as [Hy _].
  rewrite Hx, Hy, !B2R_finite.
  unfold F2R at 1. rewrite plus_IZR, Rmult_plus_distr_r.
  f_equal.
  - replace (cond_Zopp sx (Zpos mx * 2 ^ (ex - ez)))
      with (cond_Zopp sx (Zpos mx) * 2 ^ (ex - ez))%Z
      by (destruct sx; cbn [cond_Zopp]; lia).
    change (IZR ?a * bpow ez) with (F2R a ez).
    rewrite F2R_shift by lia. f_equal. lia.
  - replace (cond_Zopp sy (Zpos my * 2 ^ (ey - ez)))
      with (cond_Zopp sy (Zpos my) * 2 ^ (ey - ez))%Z
      by (destruct sy; cbn [cond_Zopp]; lia).
    change (IZR ?a * bpow ez) with (F2R a ez).
    rewrite F2R_shift by lia. f_equal. lia.
Qed.

Lemma add_correct (x y : float32) (p : Z) :
  (-149 <= p <= 104)%Z ->
  is_finite x = true -> is_finite y = true ->
  Rabs (B2R x + B2R y) <= bpow p ->
  rounds_to (add x y) (B2R x + B2R y).
Proof.
  intros Hp Hx Hy Hle.
  destruct x as [sx | sx | | sx mx ex]; try discriminate;
    destruct y as [sy | sy | | sy my ey]; try discriminate.
  - rewrite !B2R_zero, Rplus_0_l.
    assert (E : B2R (add (S754_zero sx) (S754_zero sy)) = 0)
      by (destruct sx, sy; apply B2R_zero).
    rewrite <- E. apply rounds_to_exact. destruct sx, sy; reflexivity.
  - rewrite B2R_zero, Rplus_0_l. apply rounds_to_exact. reflexivity.
  - rewrite B2R_zero, Rplus_0_r. apply rounds_to_exact. reflexivity.
  - unfold add, SFadd, rounds_to. rewrite <- aligned_sum in *. cbv zeta in *.
    apply (binary_normalize_correct _ _ p); assumption.
Qed.

Lemma sub_correct (x y : float32) (p : Z) :
  (-149 <= p <= 104)%Z ->
  is_finite x = true -> is_finite y = true ->
  Rabs (B2R x - B2R y) <= bpow p ->
  rounds_to (sub x y) (B2R x - B2R y).
Proof.
  intros Hp Hx Hy Hle.
  destruct x as [sx | sx | | sx mx ex]; try discriminate;
    destruct y as [sy | sy | | sy my ey]; try discriminate.
  - rewrite !B2R_zero, Rminus_0_r.
    assert (E : B2R (sub (S754_zero sx) (S754_zero sy)) = 0)
      by (destruct sx, sy; apply B2R_zero).
    rewrite <- E. apply rounds_to_exact. destruct sx, sy; reflexivity.
  - rewrite B2R_zero. unfold sub, SFsub.
    replace (0 - B2R (S754_finite sy my ey))
      with (B2R (S754_finite (negb sy) my ey)).
    + apply rounds_to_exact. reflexivity.
    + rewrite !B2R_finite, !F2R_cond_Zopp. destruct sy; cbn [negb]; ring.
  - rewrite B2R_zero, Rminus_0_r. apply rounds_to_exact. reflexivity.
  - unfold sub, SFsub, rounds_to.
    assert (Hsum : B2R (S754_finite sx mx ex) - B2R (S754_finite sy my ey)
                   = B2R (S754_finite sx mx ex) + B2R (S754_finite (negb sy) my ey)).
    { rewrite !B2R_finite, !F2R_cond_Zopp. destruct sy; cbn [negb]; ring. }
    rewrite Hsum in *. rewrite <- aligned_sum in *. cbv zeta in *.
    replace (cond_Zopp sx (Zpos (fst (shl_align mx ex (Z.min ex ey))))
             - cond_Zopp sy (Zpos (fst (shl_align my ey (Z.min ex ey)))))%Z
      with (cond_Zopp sx (Zpos (fst (shl_align mx ex (Z.min ex ey))))
            + cond_Zopp (negb sy) (Zpos (fst (shl_align my ey (Z.min ex ey)))))%Z
      by (destruct sy; cbn [negb cond_Zopp]; lia).
    apply (binary_normalize_correct _ _ p); assumption.
Qed.

Lemma blend_expr_evalF (fract a b c d : float32) :
  evalF [fract; a; b; c; d] blend_expr = blend32 (weights32 fract) a b c d.
Proof. reflexivity. Qed.

Lemma blend_expr_evalR (t a b c d : R) :
  evalR [t; a; b; c; d] blend_expr = blendR t a b c d.
Proof. reflexivity. Qed.

(** ** Soundness of the error bounds *)

Lemma within_bounds_nth (env : list float32) (vars : list Q) (i : nat) :
  within_bounds env vars ->
  is_finite (nth i env zero) = true
  /\ Rabs (B2R (nth i env zero)) <= Q2R (nth i vars 0%Q).
Proof.
  intros H. revert i. induction H as [| f v env vars [Hf Hv] _ IH]; intros i.
  - assert (Hz : B2R zero = 0) by apply B2R_zero.
    destruct i; cbn [nth]; (split; [reflexivity |]);
      rewrite Hz, Rabs_R0, Q2R_zero; lra.
  - destruct i as [| i]; cbn [nth]; [split; assumption | apply IH].
Qed.

Lemma Q2R_u32Q : Q2R u32Q = u32.
Proof.
  unfold u32Q, u32, Q2R. cbn [Qnum Qden].
  change (bpow (-24)) with (bpow (Z.opp 24)).
  rewrite bpow_opp, (bpow_IZR 24) by lia. rewrite Rmult_1_l. reflexivity.
Qed.

Lemma Q2R_eta32Q : Q2R eta32Q = eta32.
Proof.
  unfold eta32Q, eta32, Q2R. cbn [Qnum Qden].
  change (bpow (-150)) with (bpow (Z.opp 150)).
  rewrite bpow_opp, (bpow_IZR 150) by lia. rewrite Rmult_1_l. reflexivity.
Qed.

Lemma op_bound_Some (M E M' E' : Q) :
  op_bound M E = Some (M', E') ->
  Q2R M' = Q2R M /\ Q2R E' = Q2R E /\ Q2R M + Q2R E <= bpow 100.
Proof.
  unfold op_bound.
  destruct (Qle_bool (M + E) (inject_Z (2 ^ 100))) eqn:Hc; [| discriminate].
  intros H. injection H as <- <-.
  apply Qle_bool_iff, Qle_Rle in Hc.
  rewrite Q2R_plus, Q2R_inject_Z, <- bpow_IZR in Hc by lia.
  split; [apply Qeq_eqR, Qred_correct |].
  split; [apply Qeq_eqR, Qred_correct | exact Hc].
Qed.

Lemma rounds_to_bound (r : float32) (v B : R) :
  rounds_to r v -> Rabs v <= B ->
  is_finite r = true /\ Rabs (B2R r - v) <= u32 * B + eta32.
Proof.
  intros [Hf He] Hv. split; [assumption |].
  eapply Rle_trans; [exact He |].
  assert (0 < u32) by apply bpow_pos. nra.
Qed.

Theorem bound_sound (vars : list Q) (env : list float32) (e : expr) (M E : Q) :
  within_bounds env vars ->
  expr_bound vars e = Some (M, E) ->
  is_finite (evalF env e) = true
  /\ Rabs (B2R (evalF env e) - evalR (map B2R env) e) <= Q2R E
  /\ Rabs (evalR (map B2R env) e) <= Q2R M.
Proof.
  intros Henv. revert M E.
  induction e as [i | f | a IHa b IHb | a IHa b IHb | a IHa b IHb];
    intros M E Hb; cbn [expr_bound evalF evalR] in *.
  - injection Hb as <- <-.
    destruct (within_bounds_nth env vars i Henv) as [Hf Hv].
    assert (Hn : nth i (map B2R env) 0 = B2R (nth i env zero)).
    { rewrite <- (B2R_zero false). apply map_nth. }
    rewrite Hn.
    split; [assumption |]. split; [| assumption].
    replace (B2R (nth i env zero) - B2R (nth i env zero)) with 0 by ring.
    rewrite Rabs_R0, Q2R_zero. lra.
  - destruct (is_finite f) eqn:Hf; [| discriminate].
    injection Hb as <- <-.
    split; [reflexivity |]. split.
    + replace (B2R f - B2R f) with 0 by ring. rewrite Rabs_R0, Q2R_zero. lra.
    + rewrite Q2R_Qabs. apply Rle_refl.
  - destruct (expr_bound vars a) as [[Ma Ea] |]; [| discriminate].
    destruct (expr_bound vars b) as [[Mb Eb] |]; [| discriminate].
    destruct (IHa Ma Ea eq_refl) as [Hfa [Hea Hma]].
    destruct (IHb Mb Eb eq_refl) as [Hfb [Heb Hmb]].
    apply op_bound_Some in Hb as [HM [HE Hcap]].
    rewrite HM, HE.
    rewrite !Q2R_plus, !Q2R_mult, !Q2R_plus, Q2R_u32Q, Q2R_eta32Q in *.
    set (fa := B2R (evalF env a)) in *. set (fb := B2R (evalF env b)) in *.
    set (A := evalR (map B2R env) a) in *. set (B := evalR (map B2R env) b) in *.
    pose proof (Rabs_pos (fa - A)). pose proof (Rabs_pos (fb - B)).
    pose proof (Rabs_pos A). pose proof (Rabs_pos B).
    assert (Hfa' : Rabs fa <= Q2R Ma + Q2R Ea).
    { replace fa with ((fa - A) + A) by ring.
      eapply Rle_trans; [apply Rabs_triang |]. lra. }
    assert (Hfb' : Rabs fb <= Q2R Mb + Q2R Eb).
    { replace fb with ((fb - B) + B) by ring.
      eapply Rle_trans; [apply Rabs_triang |]. lra. }
    pose proof (Rabs_pos fa). pose proof (Rabs_pos fb).
    assert (Hprod : Rabs (fa * fb) <= (Q2R Ma + Q2R Ea) * (Q2R Mb + Q2R Eb)).
    { apply Rabs_mul_le; assumption. }
    assert (0 < u32) by apply bpow_pos. assert (0 < eta32) by apply bpow_pos.
    assert (Hnn : 0 <= (Q2R Ma + Q2R Ea) * (Q2R Mb + Q2R Eb))
      by (apply Rmult_le_pos; lra).
    assert (Hun : 0 <= u32 * ((Q2R Ma + Q2R Ea) * (Q2R Mb + Q2R Eb)))
      by (apply Rmult_le_pos; lra).
    assert (Hcap' : Rabs (fa * fb) <= bpow 100) by lra.
    destruct (rounds_to_bound _ _ _
                (mul_correct _ _ 100 ltac:(lia) Hfa Hfb Hcap') Hprod)
      as [Hfin Hrnd].
    fold fa fb in Hrnd.
    split; [assumption |]. split.
    + replace (B2R (mul (evalF env a) (evalF env b)) - A * B)
        with ((B2R (mul (evalF env a) (evalF env b)) - fa * fb)
              + (fa * (fb - B) + B * (fa - A))) by ring.
      eapply Rle_trans; [apply Rabs_triang |].
      assert (Rabs (fa * (fb - B) + B * (fa - A))
              <= (Q2R Ma + Q2R Ea) * Q2R Eb + Q2R Mb * Q2R Ea).
      { eapply Rle_trans; [apply Rabs_triang |].
        apply Rplus_le_compat; apply Rabs_mul_le; assumption. }
      lra.
    + apply Rabs_mul_le; assumption.
  - destruct (expr_bound vars a) as [[Ma Ea] |]; [| discriminate].
    destruct (expr_bound vars b) as [[Mb Eb] |]; [| discriminate].
    destruct (IHa Ma Ea eq_refl) as [Hfa [Hea Hma]].
    destruct (IHb Mb Eb eq_refl) as [Hfb [Heb Hmb]].
    apply op_bound_Some in Hb as [HM [HE Hcap]].
    rewrite HM, HE.
    rewrite !Q2R_plus, !Q2R_mult, !Q2R_plus, Q2R_u32Q, Q2R_eta32Q in *.
    set (fa := B2R (evalF env a)) in *. set (fb := B2R (evalF env b)) in *.
    set (A := evalR (map B2R env) a) in *. set (B := evalR (map B2R env) b) in *.
    apply Rabs_le_between in Hea, Heb, Hma, Hmb.
    assert (0 < u32) by apply bpow_pos. assert (0 < eta32) by apply bpow_pos.
    assert (Hsum : Rabs (fa + fb) <= (Q2R Ma + Q2R Ea) + (Q2R Mb + Q2R Eb))
      by (apply Rabs_le; lra).
    assert (Hcap' : Rabs (fa + fb) <= bpow 100) by nra.
    destruct (rounds_to_bound _ _ _
                (add_correct _ _ 100 ltac:(lia) Hfa Hfb Hcap') Hsum)
      as [Hfin Hrnd].
    fold fa fb in Hrnd.
    apply Rabs_le_between in Hrnd.
    split; [assumption |]. split; apply Rabs_le; lra.
  - destruct (expr_bound vars a) as [[Ma Ea] |]; [| discriminate].
    destruct (expr_bound vars b) as [[Mb Eb] |]; [| discriminate].
    destruct (IHa Ma Ea eq_refl) as [Hfa [Hea Hma]].
    destruct (IHb Mb Eb eq_refl) as [Hfb [Heb Hmb]].
    apply op_bound_Some in Hb as [HM [HE Hcap]].
    rewrite HM, HE.
    rewrite !Q2R_plus, !Q2R_mult, !Q2R_plus, Q2R_u32Q, Q2R_eta32Q in *.
    set (fa := B2R (evalF env a)) in *. set (fb := B2R (evalF env b)) in *.
    set (A := evalR (map B2R env) a) in *. set (B := evalR (map B2R env) b) in *.
    apply Rabs_le_between in Hea, Heb, Hma, Hmb.
    assert (0 < u32) by apply bpow_pos. assert (0 < eta32) by apply bpow_pos.
    assert (Hsum : Rabs (fa - fb) <= (Q2R Ma + Q2R Ea) + (Q2R Mb + Q2R Eb))
      by (apply Rabs_le; lra).
    assert (Hcap' : Rabs (fa - fb) <= bpow 100) by nra.
    destruct (rounds_to_bound _ _ _
                (sub_correct _ _ 100 ltac:(lia) Hfa Hfb Hcap') Hsum)
      as [Hfin Hrnd].
    fold fa fb in Hrnd.
    apply Rabs_le_between in Hrnd.
    split; [assumption |]. split; apply Rabs_le; lra.
Qed.

(** ** The position in the table, as a real number *)

Lemma B2R_of_int (n : Z) : (Z.abs n <= 2 ^ 24)%Z -> B2R (of_int n) = IZR n.
Proof.
  intros Hn. destruct (Z.eq_dec n 0) as [-> | Nz].
  - change (of_int 0) with (S754_zero false). apply B2R_zero.
  - destruct (of_int_exact n Nz Hn) as [m [e [Hof Hshape]]].
    rewrite Hof, B2R_finite, F2R_cond_Zopp.
    assert (Hval : F2R (Zpos m) e = IZR (Z.abs n)).
    { destruct Hshape as [[He Hm] | [Habs [Hm He]]].
      - rewrite Hm. rewrite F2R_shift by lia.
        replace (e + - e)%Z with 0%Z by lia. unfold F2R. rewrite bpow_0. ring.
      - rewrite Hm, He, Habs. unfold F2R.
        rewrite (bpow_IZR 1), <- mult_IZR by lia. reflexivity. }
    rewrite Hval. rewrite abs_IZR.
    destruct (Z.ltb_spec n 0) as [Hneg | Hpos].
    + rewrite Rabs_left by (apply IZR_lt; lia). ring.
    + rewrite Rabs_right by (apply Rle_ge, IZR_le; lia). reflexivity.
Qed.

Lemma is_finite_of_int (n : Z) : (Z.abs n <= 2 ^ 24)%Z -> is_finite (of_int n) = true.
Proof.
  intros Hn. destruct (Z.eq_dec n 0) as [-> | Nz]; [reflexivity |].
  destruct (of_int_exact n Nz Hn) as [m [e [Hof _]]]. rewrite Hof. reflexivity.
Qed.

(** The integral part of a positive value. *)
Lemma shiftl_floor_real (m : positive) (e : Z) :
  IZR (Z.shiftl (Zpos m) e) <= F2R (Zpos m) e < IZR (Z.shiftl (Zpos m) e) + 1.
Proof.
  destruct (Z.leb_spec 0 e) as [He | He].
  - rewrite Z.shiftl_mul_pow2 by assumption.
    unfold F2R. rewrite mult_IZR, <- bpow_IZR by assumption. lra.
  - assert (Hee : (e <= e)%Z) by lia. assert (He0 : (e <= 0)%Z) by lia.
    pose proof (shiftl_floor m e e Hee He0) as H. cbv zeta in H.
    destruct H as [_ H].
    rewrite Z.sub_diag in H. change (2 ^ 0)%Z with 1%Z in H.
    rewrite Z.mul_1_r in H.
    set (t := Z.shiftl (Zpos m) e) in *.
    destruct H as [Hlo Hhi]. apply IZR_le in Hlo. apply IZR_lt in Hhi.
    rewrite mult_IZR, <- bpow_IZR in Hlo, Hhi by lia. rewrite plus_IZR in Hhi.
    unfold F2R. pose proof (bpow_pos e) as Hpe.
    assert (Hinv : bpow (- e) * bpow e = 1).
    { rewrite <- bpow_add. replace (- e + e)%Z with 0%Z by lia. apply bpow_0. }
    apply (Rmult_le_compat_r (bpow e)) in Hlo; [| lra].
    apply (Rmult_lt_compat_r (bpow e)) in Hhi; [| lra].
    rewrite Rmult_assoc, Hinv in Hlo, Hhi. lra.
Qed.

Lemma in_0_pow2_real (f : float32) :
  in_0_pow2 0 f -> is_finite f = true /\ 0 <= B2R f <= 1.
Proof.
  intros H. apply in_0_pow2_unit_value in H as [Hf [Hlo Hhi]].
  split; [assumption |]. apply Qle_Rle in Hlo, Hhi.
  rewrite Q2R_zero in Hlo.
  replace (Q2R 1) with 1 in Hhi by (unfold Q2R; simpl; lra).
  unfold B2R. lra.
Qed.

(** The folded position differs from the scaled value by an integer, up to
    one rounding. *)
Lemma fold_period_real (x in_ : float32) :
  is_finite (scaled x) = true ->
  Rabs (B2R (scaled x)) < 16777216 ->
  fold_period x = Some in_ ->
  is_finite in_ = true /\ 0 <= B2R in_ <= 1
  /\ exists n : Z,
       Rabs (B2R in_ - (B2R (scaled x) - IZR n)) <= 2 * u32 + eta32.
Proof.
  intros Hfin Hlt Hfold.
  assert (HltQ : (Qabs (B2Q (scaled x)) < 16777216)%Q).
  { apply Rlt_Qlt. rewrite Q2R_Qabs.
    replace (Q2R 16777216) with 16777216 by (unfold Q2R; simpl; lra).
    exact Hlt. }
  destruct (fold_period_shape x Hfin HltQ) as [in' [Hf' Hshape]].
  rewrite Hfold in Hf'. injection Hf' as <-.
  destruct (in_0_pow2_real in_ Hshape) as [Hfi Hrange].
  split; [assumption |]. split; [assumption |].
  revert Hfold. unfold fold_period. cbv zeta.
  destruct (to_int32 (scaled x)) as [z |] eqn:Ez; [| discriminate].
  set (u := scaled x) in *.
  (* the truncation is within one of the value *)
  assert (Hz : Rabs (B2R u - IZR z) < 1 /\ (Z.abs z < 2 ^ 24)%Z).
  { unfold to_int32, trunc in Ez.
    destruct u as [s | s | | s m e]; try discriminate.
    - injection Ez as <-. rewrite B2R_zero.
      replace (0 - 0) with 0 by ring. rewrite Rabs_R0. split; [lra | reflexivity].
    - destruct ((- 2 ^ 31 <=? cond_Zopp s (Z.shiftl (Zpos m) e))
                && (cond_Zopp s (Z.shiftl (Zpos m) e) <? 2 ^ 31));
        [| discriminate].
      injection Ez as <-.
      pose proof (shiftl_floor_real m e) as Hfl.
      apply (B2Q_abs_lt s m e 16777216) in HltQ.
      assert (Hmin1 : (Z.min e 0 <= e)%Z) by lia.
      assert (Hmin2 : (Z.min e 0 <= 0)%Z) by lia.
      pose proof (shiftl_floor m e (Z.min e 0) Hmin1 Hmin2) as Ht0.
      cbv zeta in Ht0. destruct Ht0 as [Ht0 _].
      rewrite B2R_finite, F2R_cond_Zopp.
      split.
      + destruct s; cbn [cond_Zopp]; rewrite ?opp_IZR; apply Rabs_def1; lra.
      + change (2 ^ 24)%Z with 16777216%Z. destruct s; cbn [cond_Zopp]; lia. }
  destruct Hz as [Hz Hzb]. change (2 ^ 24)%Z with 16777216%Z in Hzb.
  destruct (if ltb x (of_Q 0.0) then int32_pred z else Some z) as [n |] eqn:En;
    [| discriminate].
  intros H. injection H as Hin.
  assert (Hn : (n = z \/ n = z - 1)%Z).
  { destruct (ltb x (of_Q 0.0)).
    - unfold int32_pred in En. destruct (_ <=? _); [| discriminate].
      injection En as <-. right. reflexivity.
    - injection En as <-. left. reflexivity. }
  exists n.
  assert (Hnb : (Z.abs n <= 2 ^ 24)%Z)
    by (change (2 ^ 24)%Z with 16777216%Z; lia).
  assert (Hdiff : Rabs (B2R u - B2R (of_int n)) <= bpow 1).
  { rewrite (B2R_of_int n Hnb).
    assert (H1 : bpow 1 = 2) by (unfold bpow; simpl; lra). rewrite H1.
    apply Rabs_def2 in Hz. apply Rabs_le.
    destruct Hn as [-> | ->]; rewrite ?minus_IZR; lra. }
  destruct (sub_correct u (of_int n) 1 ltac:(lia) Hfin (is_finite_of_int n Hnb) Hdiff)
    as [_ Herr].
  rewrite Hin, (B2R_of_int n Hnb) in Herr.
  rewrite (B2R_of_int n Hnb) in Hdiff.
  assert (H1 : bpow 1 = 2) by (unfold bpow; simpl; lra). rewrite H1 in Hdiff.
  assert (0 < u32) by apply bpow_pos.
  eapply Rle_trans; [exact Herr |]. nra.
Qed.

Lemma table_pos_shape (in_ : float32) :
  in_0_pow2 0 in_ -> in_0_pow2 8 (mul (of_int TABLE_SIZE) in_).
Proof.
  intros Hin.
  change (of_int TABLE_SIZE) with (S754_finite false 8388608 (-15)).
  destruct in_ as [s | s | | [|] m e]; cbn [in_0_pow2] in Hin; try contradiction.
  - destruct s; exact I.
  - destruct Hin as [He Hm]. unfold mul, SFmul. cbn [xorb].
    apply binary_round_aux_in_0_pow2; [lia |].
    repeat split; cbn [fst snd]; try lia.
    rewrite Pos2Z.inj_mul.
    replace (8 - (-15 + e))%Z with (23 + (0 - e))%Z by lia.
    rewrite pow2_split by lia. change (2 ^ 23)%Z with 8388608%Z.
    apply Z.mul_le_mono_nonneg_l; lia.
Qed.

(** The integral and fractional parts of a nonnegative number below 2^24:
    the conversion to an integer and the subtraction of the source. *)
Lemma split_position (pos : float32) :
  in_0_pow2 8 pos ->
  exists t : Z,
    to_uint32 pos = Some t /\ (0 <= t <= 256)%Z
    /\ in_0_pow2 0 (sub pos (of_int t))
    /\ Rabs (B2R (sub pos (of_int t)) - (B2R pos - IZR t)) <= u32 + eta32.
Proof.
  intros Hpos.
  destruct (to_uint32_in_0_pow2 pos Hpos) as [t [Ht Hr]].
  exists t. split; [assumption |]. split; [assumption |].
  assert (Htb : (Z.abs t <= 2 ^ 24)%Z)
    by (change (2 ^ 24)%Z with 16777216%Z; lia).
  destruct pos as [s | s | | [|] m e]; cbn [in_0_pow2] in Hpos; try contradiction.
  - (* the position is a zero *)
    unfold to_uint32, trunc in Ht. cbn in Ht. injection Ht as <-.
    change (of_int 0) with (S754_zero false).
    assert (E : B2R (sub (S754_zero s) (S754_zero false)) = 0)
      by (destruct s; apply B2R_zero).
    split; [destruct s; exact I |].
    rewrite E, B2R_zero. replace (0 - (0 - 0)) with 0 by ring.
    rewrite Rabs_R0. pose proof (bpow_pos (-24)). pose proof (bpow_pos (-150)).
    unfold u32, eta32. lra.
  - assert (Et : t = Z.shiftl (Zpos m) e).
    { unfold to_uint32, trunc in Ht. cbn [cond_Zopp] in Ht.
      destruct (_ && _); [| discriminate]. injection Ht as <-. reflexivity. }
    subst t.
    split.
    + apply (sub_period_count false m e).
      change (2 ^ 24)%Z with 16777216%Z. lia.
    + pose proof (shiftl_floor_real m e) as Hfl.
      assert (Hdiff : Rabs (B2R (S754_finite false m e)
                            - B2R (of_int (Z.shiftl (Zpos m) e))) <= bpow 0).
      { rewrite (B2R_of_int _ Htb), B2R_finite. cbn [cond_Zopp].
        rewrite bpow_0. apply Rabs_le. lra. }
      destruct (sub_correct (S754_finite false m e) (of_int (Z.shiftl (Zpos m) e)) 0
                  ltac:(lia) eq_refl (is_finite_of_int _ Htb) Hdiff) as [_ Herr].
      rewrite (B2R_of_int _ Htb) in Herr, Hdiff. rewrite bpow_0 in Hdiff.
      assert (0 < u32) by apply bpow_pos.
      eapply Rle_trans; [exact Herr |]. nra.
Qed.

(** Index and offset add up to 256 times the folded position, up to two
    roundings. *)
Lemma locate_real (in_ : float32) (index : Z) (fract : float32) :
  in_0_pow2 0 in_ ->
  locate in_ = Some (index, fract) ->
  is_finite fract = true /\ 0 <= B2R fract <= 1 /\ (0 <= index <= 256)%Z
  /\ Rabs (IZR index + B2R fract - 256 * B2R in_) <= 258 * u32 + 2 * eta32.
Proof.
  intros Hin Hloc.
  pose proof (table_pos_shape in_ Hin) as Hpos.
  destruct (in_0_pow2_real in_ Hin) as [Hfin [Hlo Hhi]].
  destruct (split_position _ Hpos) as [t [Ht [Hr [Hshape Herr]]]].
  unfold locate in Hloc. cbv zeta in Hloc. rewrite Ht in Hloc.
  assert (Ei : int32_of_uint32 t = t).
  { unfold int32_of_uint32. destruct (Z.ltb_spec t (2 ^ 31)) as [H | H];
      [reflexivity | change (2 ^ 31)%Z with 2147483648%Z in H; lia]. }
  rewrite Ei in Hloc.
  assert (Ec : (if t <? 0 then 0 else if t >? 256 then 256 else t)%Z = t).
  { destruct (Z.ltb_spec t 0); [lia |]. destruct (t >? 256)%Z eqn:E; lia. }
  rewrite Ec in Hloc.
  remember (sub (mul (of_int TABLE_SIZE) in_) (of_int t)) as fr eqn:Efr.
  assert (Ei' : index = t) by congruence.
  assert (Ef' : fract = fr) by congruence.
  subst index fract. clear Hloc. subst fr.
  destruct (in_0_pow2_real _ Hshape) as [Hff Hfr].
  split; [assumption |]. split; [assumption |]. split; [assumption |].
  (* the product 256 * in *)
  assert (H256 : B2R (of_int TABLE_SIZE) = 256)
    by (apply (B2R_of_int 256); vm_compute; discriminate).
  assert (Hprod : Rabs (B2R (of_int TABLE_SIZE) * B2R in_) <= bpow 8).
  { rewrite H256, (bpow_IZR 8) by lia. change (IZR (2 ^ 8)) with 256.
    apply Rabs_le. lra. }
  destruct (mul_correct (of_int TABLE_SIZE) in_ 8 ltac:(lia) eq_refl Hfin Hprod)
    as [_ Hmul].
  rewrite H256 in Hmul, Hprod.
  rewrite (bpow_IZR 8) in Hprod by lia. change (IZR (2 ^ 8)) with 256 in Hprod.
  assert (0 < u32) by apply bpow_pos. assert (0 < eta32) by apply bpow_pos.
  set (P := B2R (mul (of_int TABLE_SIZE) in_)) in *.
  set (F := B2R (sub (mul (of_int TABLE_SIZE) in_) (of_int t))) in *.
  apply Rabs_le_between in Herr, Hmul.
  assert (Hm' : - (u32 * 256 + eta32) <= P - 256 * B2R in_ <= u32 * 256 + eta32) by nra.
  apply Rabs_le. lra.
Qed.

Lemma Qle_bool_false_lt (a b : Q) : Qle_bool a b = false -> Q2R b < Q2R a.
Proof.
  intros H. apply Qlt_Rlt. apply Qnot_le_lt. intros Hle.
  apply Qle_bool_iff in Hle. congruence.
Qed.

Lemma Qle_bool_true_le (a b : Q) : Qle_bool a b = true -> Q2R a <= Q2R b.
Proof. intros H. apply Qle_Rle. apply Qle_bool_iff. assumption. Qed.

Lemma Q2R_pi_lo : Q2R pi_lo = 31415926535 / 10000000000.
Proof. unfold Q2R, pi_lo. cbn [Qnum Qden]. lra. Qed.

Lemma Q2R_pi_hi : Q2R pi_hi = 31415926536 / 10000000000.
Proof. unfold Q2R, pi_hi. cbn [Qnum Qden]. lra. Qed.

Lemma sin_positive_sound (q : Q) : sin_positive q = true -> 0 < sin (Q2R q).
Proof.
  unfold sin_positive.
  destruct (sin_enclosure 1 14 q) as [[c r] |] eqn:E; [| discriminate].
  intros H. apply negb_true_iff in H. apply Qle_bool_false_lt in H.
  rewrite Q2R_minus, Q2R_zero in H.
  apply sin_enclosure_sound in E. apply Rabs_le_between in E. lra.
Qed.

Lemma sin_negative_sound (q : Q) : sin_negative q = true -> sin (Q2R q) < 0.
Proof.
  unfold sin_negative.
  destruct (sin_enclosure 1 14 q) as [[c r] |] eqn:E; [| discriminate].
  intros H. apply negb_true_iff in H. apply Qle_bool_false_lt in H.
  rewrite Q2R_plus, Q2R_zero in H.
  apply sin_enclosure_sound in E. apply Rabs_le_between in E. lra.
Qed.

Lemma sin_positive_pi_lo : sin_positive pi_lo = true.
Proof. vm_compute. reflexivity. Qed.

Lemma sin_negative_pi_hi : sin_negative pi_hi = true.
Proof. vm_compute. reflexivity. Qed.

(** Ten decimals of pi. *)
Lemma PI_enclosure : 31415926535 / 10000000000 < PI < 31415926536 / 10000000000.
Proof.
  pose proof (sin_positive_sound pi_lo sin_positive_pi_lo) as E1.
  pose proof (sin_negative_sound pi_hi sin_negative_pi_hi) as E2.
  rewrite Q2R_pi_lo in E1. rewrite Q2R_pi_hi in E2.
  pose proof PI2_3_2 as H3. pose proof PI_4 as H4.
  split.
  - destruct (Rlt_or_le (31415926535 / 10000000000) PI) as [H | H]; [assumption |].
    assert (sin (31415926535 / 10000000000) <= 0) by (apply sin_le_0; lra).
    lra.
  - destruct (Rlt_or_le PI (31415926536 / 10000000000)) as [H | H]; [assumption |].
    assert (0 <= sin (31415926536 / 10000000000)) by (apply sin_ge_0; lra).
    lra.
Qed.

(** The sine is 1-Lipschitz. *)
Lemma sin_abs_le (t : R) : Rabs (sin t) <= Rabs t.
Proof.
  assert (Hpos : forall s, 0 < s -> Rabs (sin s) <= s).
  { intros s Hs. pose proof (sin_lt_x s Hs). apply Rabs_le. split; [| lra].
    destruct (Rle_or_lt s PI) as [H1 | H1].
    - pose proof (sin_ge_0 s ltac:(lra) H1). lra.
    - pose proof (SIN_bound s). pose proof PI2_3_2. lra. }
  destruct (Rtotal_order t 0) as [H | [H | H]].
  - rewrite <- (Rabs_Ropp (sin t)), <- sin_neg, <- (Rabs_Ropp t).
    rewrite (Rabs_right (- t)) by lra. apply Hpos. lra.
  - subst t. rewrite sin_0, Rabs_R0. lra.
  - rewrite (Rabs_right t) by lra. apply Hpos. assumption.
Qed.

Lemma sin_lipschitz (a b : R) : Rabs (sin a - sin b) <= Rabs (a - b).
Proof.
  rewrite form4. rewrite !Rabs_mult.
  pose proof (COS_bound ((a + b) / 2)) as Hc.
  assert (Hc' : Rabs (cos ((a + b) / 2)) <= 1) by (apply Rabs_le; lra).
  pose proof (sin_abs_le ((a - b) / 2)) as Hs.
  assert (E : Rabs ((a - b) / 2) = Rabs (a - b) / 2).
  { unfold Rdiv. rewrite Rabs_mult. rewrite (Rabs_right (/ 2)) by lra. reflexivity. }
  rewrite E in Hs.
  rewrite (Rabs_right 2) by lra.
  pose proof (Rabs_pos (cos ((a + b) / 2))). pose proof (Rabs_pos (sin ((a - b) / 2))).
  pose proof (Rabs_pos (a - b)).
  nra.
Qed.

(** The sine is periodic over the integers. *)
Lemma sin_period_Z (x : R) (n : Z) : sin (x + 2 * IZR n * PI) = sin x.
Proof.
  destruct (Z.le_gt_cases 0 n) as [H | H].
  - rewrite <- (Z2Nat.id n H), <- INR_IZR_INZ. apply sin_period.
  - rewrite <- (sin_period (x + 2 * IZR n * PI) (Z.to_nat (- n))).
    rewrite INR_IZR_INZ, Z2Nat.id by lia. rewrite opp_IZR.
    f_equal. ring.
Qed.

(** Low-order Taylor bounds. *)
Lemma sin_cubic_bound (s : R) :
  0 <= s <= 2 ->
  s - s ^ 3 / 6 <= sin s <= s - s ^ 3 / 6 + s ^ 5 / 120.
Proof.
  intros Hs. pose proof (pre_sin_bound s 0 ltac:(lra) ltac:(lra)) as H.
  unfold sin_approx, sin_term in H. simpl in H. lra.
Qed.

Lemma cos_quadratic_bound (s : R) :
  0 <= s <= 2 ->
  1 - s ^ 2 / 2 <= cos s <= 1 - s ^ 2 / 2 + s ^ 4 / 24.
Proof.
  intros Hs. pose proof (pre_cos_bound s 0 ltac:(lra) ltac:(lra)) as H.
  unfold cos_approx, cos_term in H. simpl in H. lra.
Qed.

(** The cubic Taylor polynomial of the sine at [A]. *)
Lemma taylor_piece (A s : R) :
  0 <= s <= 1 ->
  Rabs (sin (A + s)
        - (sin A + cos A * s - sin A * (s ^ 2 / 2) - cos A * (s ^ 3 / 6)))
  <= s ^ 4 / 24 + s ^ 5 / 120.
Proof.
  intros Hs. rewrite sin_plus.
  pose proof (sin_cubic_bound s ltac:(lra)) as H1.
  pose proof (cos_quadratic_bound s ltac:(lra)) as H2.
  pose proof (SIN_bound A) as H3. pose proof (COS_bound A) as H4.
  set (rs := sin s - (s - s ^ 3 / 6)).
  set (rc := cos s - (1 - s ^ 2 / 2)).
  replace (sin A * cos s + cos A * sin s
           - (sin A + cos A * s - sin A * (s ^ 2 / 2) - cos A * (s ^ 3 / 6)))
    with (sin A * rc + cos A * rs) by (unfold rs, rc; ring).
  assert (Hrs : 0 <= rs <= s ^ 5 / 120) by (unfold rs; lra).
  assert (Hrc : 0 <= rc <= s ^ 4 / 24) by (unfold rc; lra).
  eapply Rle_trans; [apply Rabs_triang |].
  assert (Rabs (sin A * rc) <= 1 * (s ^ 4 / 24)).
  { apply Rabs_mul_le; apply Rabs_le; lra. }
  assert (Rabs (cos A * rs) <= 1 * (s ^ 5 / 120)).
  { apply Rabs_mul_le; apply Rabs_le; lra. }
  lra.
Qed.

(** *** A cubic against the Taylor cubic *)

Lemma cubic_close (p0 p1 p2 p3 q0 q1 q2 q3 e0 e1 e2 e3 t : R) :
  0 <= t <= 1 ->
  Rabs (p0 - q0) <= e0 -> Rabs (p1 - q1) <= e1 ->
  Rabs (p2 - q2) <= e2 -> Rabs (p3 - q3) <= e3 ->
  Rabs ((p0 + p1 * t + p2 * t ^ 2 + p3 * t ^ 3)
        - (q0 + q1 * t + q2 * t ^ 2 + q3 * t ^ 3))
  <= e0 + e1 + e2 + e3.
Proof.
  intros Ht H0 H1 H2 H3.
  replace ((p0 + p1 * t + p2 * t ^ 2 + p3 * t ^ 3)
           - (q0 + q1 * t + q2 * t ^ 2 + q3 * t ^ 3))
    with ((p0 - q0) + (p1 - q1) * t + (p2 - q2) * t ^ 2 + (p3 - q3) * t ^ 3)
    by ring.
  assert (Ht2 : 0 <= t ^ 2 <= 1) by nra.
  assert (Ht3 : 0 <= t ^ 3 <= 1) by nra.
  assert (B1 : Rabs ((p1 - q1) * t) <= e1 * 1)
    by (apply Rabs_mul_le; [assumption | apply Rabs_le; lra]).
  assert (B2 : Rabs ((p2 - q2) * t ^ 2) <= e2 * 1)
    by (apply Rabs_mul_le; [assumption | apply Rabs_le; lra]).
  assert (B3 : Rabs ((p3 - q3) * t ^ 3) <= e3 * 1)
    by (apply Rabs_mul_le; [assumption | apply Rabs_le; lra]).
  eapply Rle_trans; [apply Rabs_triang |].
  eapply Rle_trans; [apply Rplus_le_compat_r; apply Rabs_triang |].
  eapply Rle_trans;
    [apply Rplus_le_compat_r; apply Rplus_le_compat_r; apply Rabs_triang |].
  lra.
Qed.

(** Replacing an enclosed value by the centre of its enclosure. *)
Lemma Rabs_centre (x w y c r : R) :
  0 <= w -> Rabs (y - c) <= r -> Rabs (x - w * y) <= Rabs (x - w * c) + w * r.
Proof.
  intros Hw Hy.
  replace (x - w * y) with ((x - w * c) + w * (c - y)) by ring.
  eapply Rle_trans; [apply Rabs_triang |].
  apply Rplus_le_compat_l.
  rewrite Rabs_mult, (Rabs_right w) by lra.
  apply Rmult_le_compat_l; [assumption |].
  rewrite Rabs_minus_sym. assumption.
Qed.

Lemma B2R_one32 : B2R one32 = 1.
Proof.
  unfold B2R. rewrite (Qeq_eqR (B2Q one32) 1).
  - unfold Q2R. simpl. lra.
  - vm_compute. reflexivity.
Qed.

(** The interpolation without rounding is a cubic in [fract] with the
    coefficients [cubic_coeffs]. *)
Lemma blendR_cubic (t : R) (a b c d : float32) :
  let '(p0, p1, p2, p3) :=
    cubic_coeffs (B2Q half32) (B2Q sixth32) (B2Q third32)
                 (B2Q a) (B2Q b) (B2Q c) (B2Q d) in
  blendR t (B2R a) (B2R b) (B2R c) (B2R d)
  = Q2R p0 + Q2R p1 * t + Q2R p2 * t ^ 2 + Q2R p3 * t ^ 3.
Proof.
  unfold cubic_coeffs, blendR, weightsR, blend, cubic_weights.
  rewrite B2R_one32. unfold B2R.
  repeat (rewrite ?Q2R_plus, ?Q2R_minus, ?Q2R_mult, ?Q2R_opp).
  ring.
Qed.

Lemma Q2R_half : Q2R (1 # 2) = / 2.
Proof. unfold Q2R. simpl. lra. Qed.

Lemma Q2R_sixth : Q2R (1 # 6) = / 6.
Proof. unfold Q2R. simpl. lra. Qed.

Lemma table_step_value : Q2R table_step = 31415926535 / 1280000000000.
Proof.
  rewrite (Qeq_eqR table_step (31415926535 # 1280000000000)).
  - unfold Q2R. cbn [Qnum Qden]. reflexivity.
  - vm_compute. reflexivity.
Qed.

Lemma Some_eq {A : Type} (x y : A) : Some x = Some y -> x = y.
Proof. intros H. congruence. Qed.

Lemma window_length (k : nat) a b c d :
  window k = Some (a, b, c, d) -> (k < 256)%nat.
Proof.
  unfold window.
  destruct (nth_error sinTable k); [| discriminate].
  destruct (nth_error sinTable (k + 1)); [| discriminate].
  destruct (nth_error sinTable (k + 2)); [| discriminate].
  destruct (nth_error sinTable (k + 3)) eqn:E; [| discriminate].
  intros _.
  assert (H : (k + 3 < length sinTable)%nat)
    by (apply nth_error_Some; rewrite E; discriminate).
  rewrite sinTable_length in H. lia.
Qed.

Lemma trig_zero_sound : encloses trig_zero 0.
Proof.
  unfold encloses, trig_zero. cbn [tS tC trs trc].
  rewrite sin_0, cos_0, fix_val_one.
  assert (E : fix_val 0 = 0) by (unfold fix_val; lra).
  rewrite E. split; replace (0 - 0) with 0 by ring;
    replace (1 - 1) with 0 by ring; rewrite Rabs_R0; lra.
Qed.

Lemma trig_add_sound (t u : trig) (x y : R) :
  encloses t x -> encloses u y -> encloses (trig_add t u) (x + y).
Proof.
  intros [Hs Hc] [Hs' Hc']. unfold encloses, trig_add. cbn [tS tC trs trc].
  pose proof (SIN_bound y) as Hsb. pose proof (COS_bound y) as Hcb.
  assert (Hc1 : Rabs (cos y) <= 1) by (apply Rabs_le; lra).
  pose proof (fix_mul_spec (tS t) (tC u)) as Hm1.
  pose proof (fix_mul_spec (tC t) (tS u)) as Hm2.
  pose proof (fix_mul_spec (tC t) (tC u)) as Hm3.
  pose proof (fix_mul_spec (tS t) (tS u)) as Hm4.
  pose proof (fix_mul_spec (Z.abs (tS t)) (trc u)) as Hr1.
  pose proof (fix_mul_spec (trc t) (Z.abs (tS u) + trs u)) as Hr2.
  pose proof (fix_mul_spec (Z.abs (tC t)) (trs u)) as Hr3.
  pose proof (fix_mul_spec (Z.abs (tC t)) (trc u)) as Hr4.
  pose proof (fix_mul_spec (trs t) (Z.abs (tS u) + trs u)) as Hr5.
  pose proof (fix_mul_spec (Z.abs (tS t)) (trs u)) as Hr6.
  rewrite fix_val_abs in Hr1, Hr3, Hr4, Hr6.
  rewrite fix_val_plus, fix_val_abs in Hr2, Hr5.
  pose proof fix_val_unit_pos as Hulp.
  rewrite !fix_val_plus, fix_val_minus.
  replace (fix_val 5) with (5 * fix_val 1)
    by (unfold fix_val; pose proof fix_one_pos; field; lra).
  set (S := fix_val (tS t)) in *. set (C := fix_val (tC t)) in *.
  set (rs := fix_val (trs t)) in *. set (rc := fix_val (trc t)) in *.
  set (S' := fix_val (tS u)) in *. set (C' := fix_val (tC u)) in *.
  set (rs' := fix_val (trs u)) in *. set (rc' := fix_val (trc u)) in *.
  assert (Hrs : 0 <= rs) by (eapply Rle_trans; [apply Rabs_pos | exact Hs]).
  assert (Hrc : 0 <= rc) by (eapply Rle_trans; [apply Rabs_pos | exact Hc]).
  assert (Hsy : Rabs (sin y) <= Rabs S' + rs').
  { replace (sin y) with (S' + (sin y - S')) by ring.
    eapply Rle_trans; [apply Rabs_triang |]. lra. }
  assert (Hexact_s : Rabs (sin (x + y) - (S * C' + C * S'))
                     <= rs * 1 + Rabs S * rc' + (rc * (Rabs S' + rs') + Rabs C * rs')).
  { rewrite sin_plus.
    replace (sin x * cos y + cos x * sin y - (S * C' + C * S'))
      with (((sin x - S) * cos y + S * (cos y - C'))
            + ((cos x - C) * sin y + C * (sin y - S'))) by ring.
    eapply Rle_trans; [apply Rabs_triang |].
    apply Rplus_le_compat; (eapply Rle_trans; [apply Rabs_triang |]);
      apply Rplus_le_compat; apply Rabs_mul_le; try assumption; apply Rle_refl. }
  assert (Hexact_c : Rabs (cos (x + y) - (C * C' - S * S'))
                     <= rc * 1 + Rabs C * rc' + (rs * (Rabs S' + rs') + Rabs S * rs')).
  { rewrite cos_plus.
    replace (cos x * cos y - sin x * sin y - (C * C' - S * S'))
      with (((cos x - C) * cos y + C * (cos y - C'))
            + - ((sin x - S) * sin y + S * (sin y - S'))) by ring.
    eapply Rle_trans; [apply Rabs_triang |]. rewrite Rabs_Ropp.
    apply Rplus_le_compat; (eapply Rle_trans; [apply Rabs_triang |]);
      apply Rplus_le_compat; apply Rabs_mul_le; try assumption; apply Rle_refl. }
  apply Rabs_le_between in Hexact_s, Hexact_c.
  split; apply Rabs_le; lra.
Qed.

Lemma fix_ceil_spec (q : Q) : Q2R q <= fix_val (fix_ceil q).
Proof.
  unfold fix_ceil. rewrite fix_val_plus.
  pose proof (fix_floor_spec q). lra.
Qed.

Lemma pair_eq {A B : Type} (a c : A) (b d : B) :
  (a, b) = (c, d) -> a = c /\ b = d.
Proof. intros H. split; congruence. Qed.

Ltac push_Q2R_in H :=
  repeat first
    [ rewrite Q2R_plus in H | rewrite Q2R_minus in H | rewrite Q2R_mult in H
    | rewrite Q2R_opp in H | rewrite Q2R_Qabs in H | rewrite Q2R_half in H
    | rewrite Q2R_sixth in H | rewrite Q2R_fix in H
    | rewrite (Qeq_eqR _ _ (Qred_correct _)) in H ].

(** A cubic against the sine near [A], through the Taylor cubic at [A]
    computed from an enclosure of the sine and cosine of [A]. *)
Lemma cubic_vs_sine (A h t p0 p1 p2 p3 sn rs cs rc : R) :
  Rabs (sin A - sn) <= rs ->
  Rabs (cos A - cs) <= rc ->
  0 <= h <= 1 ->
  0 <= t <= 1 ->
  Rabs ((p0 + p1 * t + p2 * t ^ 2 + p3 * t ^ 3) - sin (A + h * t))
  <= (Rabs (p0 - sn) + rs)
     + (Rabs (p1 - h * cs) + h * rc)
     + (Rabs (p2 + h * h * / 2 * sn) + h * h * / 2 * rs)
     + (Rabs (p3 + h * h * h * / 6 * cs) + h * h * h * / 6 * rc)
     + (h ^ 4 / 24 + h ^ 5 / 120).
Proof.
  intros Hs Hc Hh Ht.
  assert (Hs' : 0 <= h * t <= 1) by nra.
  pose proof (taylor_piece A (h * t) Hs') as Htay.
  assert (Hrem : (h * t) ^ 4 / 24 + (h * t) ^ 5 / 120 <= h ^ 4 / 24 + h ^ 5 / 120).
  { assert (Hle : h * t <= h) by nra.
    pose proof (pow_incr (h * t) h 4 ltac:(lra)).
    pose proof (pow_incr (h * t) h 5 ltac:(lra)). lra. }
  assert (H0 : Rabs (p0 - sin A) <= Rabs (p0 - sn) + rs).
  { pose proof (Rabs_centre p0 1 (sin A) sn rs ltac:(lra) Hs) as H.
    rewrite !Rmult_1_l in H. exact H. }
  assert (H1 : Rabs (p1 - h * cos A) <= Rabs (p1 - h * cs) + h * rc).
  { apply Rabs_centre; [lra | assumption]. }
  assert (H2 : Rabs (p2 - - (h * h * / 2 * sin A))
               <= Rabs (p2 + h * h * / 2 * sn) + h * h * / 2 * rs).
  { replace (p2 - - (h * h * / 2 * sin A))
      with (p2 - (h * h * / 2) * (- sin A)) by ring.
    replace (p2 + h * h * / 2 * sn) with (p2 - (h * h * / 2) * (- sn)) by ring.
    apply Rabs_centre; [nra |].
    replace (- sin A - - sn) with (- (sin A - sn)) by ring.
    rewrite Rabs_Ropp. assumption. }
  assert (H3 : Rabs (p3 - - (h * h * h * / 6 * cos A))
               <= Rabs (p3 + h * h * h * / 6 * cs) + h * h * h * / 6 * rc).
  { replace (p3 - - (h * h * h * / 6 * cos A))
      with (p3 - (h * h * h * / 6) * (- cos A)) by ring.
    replace (p3 + h * h * h * / 6 * cs)
      with (p3 - (h * h * h * / 6) * (- cs)) by ring.
    apply Rabs_centre; [nra |].
    replace (- cos A - - cs) with (- (cos A - cs)) by ring.
    rewrite Rabs_Ropp. assumption. }
  pose proof (cubic_close p0 p1 p2 p3 (sin A) (h * cos A)
                (- (h * h * / 2 * sin A)) (- (h * h * h * / 6 * cos A))
                _ _ _ _ t Ht H0 H1 H2 H3) as Hclose.
  replace (sin A + h * cos A * t + - (h * h * / 2 * sin A) * t ^ 2
           + - (h * h * h * / 6 * cos A) * t ^ 3)
    with (sin A + cos A * (h * t) - sin A * ((h * t) ^ 2 / 2)
          - cos A * ((h * t) ^ 3 / 6)) in Hclose by field.
  apply Rabs_le_between in Htay, Hclose.
  apply Rabs_le. lra.
Qed.

Lemma piece_errors_sound (tr : trig) (k : nat) (e0 e : Z) (a b c d : float32) :
  encloses tr (INR k * Q2R table_step) ->
  piece_errors (B2Q half32) (B2Q sixth32) (B2Q third32) tr k = Some (e0, e) ->
  window k = Some (a, b, c, d) ->
  Rabs (B2R b - sin (INR k * Q2R table_step)) <= fix_val e0
  /\ forall t : R,
       0 <= t <= 1 ->
       Rabs (blendR t (B2R a) (B2R b) (B2R c) (B2R d)
             - sin (Q2R table_step * (INR k + t)))
       <= fix_val e + taylor_rem.
Proof.
  intros [Hs Hc] He Hw.
  unfold piece_errors in He. rewrite Hw in He.
  unfold cubic_coeffs in He. cbv zeta in He.
  apply Some_eq in He. apply pair_eq in He. destruct He as [He0 He].
  set (h := Q2R table_step) in *.
  assert (Hh : 0 <= h <= 1) by (unfold h; rewrite table_step_value; lra).
  set (A := INR k * h) in *.
  set (sn := fix_val (tS tr)) in *. set (rs := fix_val (trs tr)) in *.
  set (cs := fix_val (tC tr)) in *. set (rc := fix_val (trc tr)) in *.
  (* the four fixed-point bounds *)
  match type of He0 with fix_ceil ?q = _ => pose proof (fix_ceil_spec q) as B0 end.
  rewrite He0 in B0, He.
  match type of He with (_ + fix_ceil ?q1 + fix_ceil ?q2 + fix_ceil ?q3)%Z = _ =>
    pose proof (fix_ceil_spec q1) as B1;
    pose proof (fix_ceil_spec q2) as B2;
    pose proof (fix_ceil_spec q3) as B3
  end.
  apply (f_equal fix_val) in He. rewrite !fix_val_plus in He.
  push_Q2R_in B0. push_Q2R_in B1. push_Q2R_in B2. push_Q2R_in B3.
  fold h sn rs cs rc in B0, B1, B2, B3.
  split.
  - fold (B2R b) in B0. apply Rabs_le_between in Hs.
    assert (H : Rabs (B2R b - sin A) <= Rabs (B2R b - sn) + rs).
    { pose proof (Rabs_centre (B2R b) 1 (sin A) sn rs ltac:(lra)
                    ltac:(apply Rabs_le; lra)) as H.
      rewrite !Rmult_1_l in H. exact H. }
    lra.
  - intros t Ht.
    pose proof (blendR_cubic t a b c d) as Hcub.
    unfold cubic_coeffs in Hcub. rewrite Hcub. clear Hcub.
    repeat (rewrite ?Q2R_plus, ?Q2R_minus, ?Q2R_mult, ?Q2R_opp).
    replace (h * (INR k + t)) with (A + h * t) by (unfold A; ring).
    match goal with
    | |- Rabs (?p0 + ?p1 * t + ?p2 * t ^ 2 + ?p3 * t ^ 3 - _) <= _ =>
        pose proof (cubic_vs_sine A h t p0 p1 p2 p3 sn rs cs rc Hs Hc Hh Ht) as H
    end.
    unfold taylor_rem. fold h. lra.
Qed.

Lemma pieces_close_sound (h s t : Q) (tol0 tol : Z) (step : trig) (W : R) :
  encloses step W ->
  forall (n k : nat) (cur : trig),
    encloses cur (INR k * W) ->
    pieces_close h s t tol0 tol step cur k n = true ->
    forall j : nat,
      (k <= j < k + n)%nat ->
      exists tr, encloses tr (INR j * W) /\ piece_close h s t tol0 tol tr j = true.
Proof.
  intros Hstep. induction n as [| n IH]; intros k cur Hcur Hall j Hj; [lia |].
  cbn [pieces_close] in Hall. apply andb_prop in Hall. destruct Hall as [Hk Hrest].
  destruct (Nat.eq_dec j k) as [-> | Hne].
  - exists cur. split; assumption.
  - apply (IH (S k) (trig_add cur step)); [| assumption | lia].
    rewrite S_INR. replace ((INR k + 1) * W) with (INR k * W + W) by ring.
    apply trig_add_sound; assumption.
Qed.

(** Every piece of the table: the first sample after the start of the
    window is within 3e-8 of the sine, and the cubic is within 2e-7 of the
    sine's Taylor cubic. *)
Lemma pieces_checked :
  pieces_close (B2Q half32) (B2Q sixth32) (B2Q third32)
               (fix_floor 0.00000003) (fix_floor 0.0000002)
               (trig_base 1 table_step) trig_zero 0 256 = true.
Proof. vm_cast_no_check (eq_refl true). Qed.

Lemma piece_checked (k : nat) (a b c d : float32) :
  window k = Some (a, b, c, d) ->
  Rabs (B2R b - sin (INR k * Q2R table_step)) <= 3 / 100000000
  /\ forall t : R,
       0 <= t <= 1 ->
       Rabs (blendR t (B2R a) (B2R b) (B2R c) (B2R d)
             - sin (Q2R table_step * (INR k + t)))
       <= 2 / 10000000 + taylor_rem.
Proof.
  intros Hw.
  assert (Hstep : encloses (trig_base 1 table_step) (Q2R table_step)).
  { apply trig_base_sound. rewrite table_step_value. lra. }
  assert (H0 : encloses trig_zero (INR 0 * Q2R table_step)).
  { cbn [INR]. rewrite Rmult_0_l. apply trig_zero_sound. }
  pose proof (window_length _ _ _ _ _ Hw) as Hk.
  destruct (pieces_close_sound _ _ _ _ _ _ _ Hstep 256 0 trig_zero H0
              pieces_checked k ltac:(lia)) as [tr [Htr Hok]].
  unfold piece_close in Hok.
  destruct (piece_errors _ _ _ tr k) as [[e0 e] |] eqn:E; [| discriminate].
  apply andb_prop in Hok. destruct Hok as [Hok0 Hok1].
  apply Z.leb_le in Hok0, Hok1.
  destruct (piece_errors_sound tr k e0 e a b c d Htr E Hw) as [Hb Hcub].
  assert (Hmono : forall x y : Z, (x <= y)%Z -> fix_val x <= fix_val y).
  { intros x y Hxy. unfold fix_val. pose proof fix_one_pos.
    apply Rmult_le_compat_r; [apply Rlt_le, Rinv_0_lt_compat; lra |].
    apply IZR_le. assumption. }
  apply Hmono in Hok0, Hok1.
  pose proof (fix_floor_spec 0.00000003) as [Ht0 _].
  pose proof (fix_floor_spec 0.0000002) as [Ht1 _].
  assert (E0 : Q2R 0.00000003 = 3 / 100000000)
    by (unfold Q2R; cbn [Qnum Qden]; lra).
  assert (E1 : Q2R 0.0000002 = 2 / 10000000)
    by (unfold Q2R; cbn [Qnum Qden]; lra).
  rewrite E0 in Ht0. rewrite E1 in Ht1.
  split; [lra |].
  intros t Ht. specialize (Hcub t Ht). lra.
Qed.

(** Over every piece of the table, the interpolation without rounding is
    within 2.2e-7 of the sine. *)
Lemma interpolation_error (k : nat) (a b c d : float32) (t : R) :
  window k = Some (a, b, c, d) ->
  0 <= t <= 1 ->
  Rabs (blendR t (B2R a) (B2R b) (B2R c) (B2R d)
        - sin (Q2R table_step * (INR k + t)))
  <= 22 / 100000000.
Proof.
  intros Hw Ht.
  destruct (piece_checked k a b c d Hw) as [_ H]. specialize (H t Ht).
  assert (Hrem : taylor_rem <= 2 / 100000000).
  { unfold taylor_rem. rewrite table_step_value. lra. }
  lra.
Qed.

(** ** The routine against the sine *)

Lemma u32_value : u32 = / 16777216.
Proof.
  unfold u32. change (-24)%Z with (- (24))%Z.
  rewrite bpow_opp, (bpow_IZR 24) by lia. reflexivity.
Qed.

Lemma eta32_small : 0 < eta32 <= / 1000000000000000000000000000000.
Proof.
  split; [apply bpow_pos |].
  unfold eta32. change (-150)%Z with (- (150))%Z.
  rewrite bpow_opp, (bpow_IZR 150) by lia.
  apply Rinv_le_contravar; [lra |].
  apply IZR_le. vm_compute. discriminate.
Qed.

(** The value of the literal [0.159154943092f]. *)
Lemma scale_value : B2R (of_Q 0.159154943092) = 10680707 / 67108864.
Proof.
  unfold B2R. rewrite (Qeq_eqR _ (10680707 # 67108864)).
  - unfold Q2R. cbn [Qnum Qden]. reflexivity.
  - vm_compute. reflexivity.
Qed.

Lemma scaled_real (x : float32) :
  is_finite x = true ->
  Rabs (B2R x) <= 100000000 ->
  rounds_to (scaled x) (B2R x * (10680707 / 67108864)).
Proof.
  intros Hfin Hx. rewrite <- scale_value. unfold scaled.
  apply (mul_correct x (of_Q 0.159154943092) 24); [lia | assumption | reflexivity |].
  rewrite scale_value, (bpow_IZR 24) by lia.
  change (IZR (2 ^ 24)) with 16777216.
  apply Rabs_le_between in Hx. apply Rabs_le. lra.
Qed.

(** *** The stages of a call that returns *)

Lemma window_of_fetch (index : Z) a b c d (m : Mem) :
  fetch index sinTable = Some ((a, b, c, d), m) ->
  (0 <= index)%Z /\ window (Z.to_nat index) = Some (a, b, c, d).
Proof.
  unfold fetch, bind, ret. intros H.
  destruct (load (index + 0) sinTable) as [[a' m1] |] eqn:Ea; [| discriminate].
  pose proof (load_mem _ _ _ _ Ea) as ->.
  destruct (load (index + 1) sinTable) as [[b' m2] |] eqn:Eb; [| discriminate].
  pose proof (load_mem _ _ _ _ Eb) as ->.
  destruct (load (index + 2) sinTable) as [[c' m3] |] eqn:Ec; [| discriminate].
  pose proof (load_mem _ _ _ _ Ec) as ->.
  destruct (load (index + 3) sinTable) as [[d' m4] |] eqn:Ed; [| discriminate].
  pose proof (load_mem _ _ _ _ Ed) as ->.
  apply Some_eq in H.
  assert (a' = a /\ b' = b /\ c' = c /\ d' = d) as (-> & -> & -> & ->)
    by (repeat split; congruence).
  apply load_Some in Ea as [Hi Ea], Eb as [_ Eb], Ec as [_ Ec], Ed as [_ Ed].
  split; [lia |].
  unfold window.
  replace (Z.to_nat (index + 0)) with (Z.to_nat index) in Ea by lia.
  replace (Z.to_nat (index + 1)) with (Z.to_nat index + 1)%nat in Eb by lia.
  replace (Z.to_nat (index + 2)) with (Z.to_nat index + 2)%nat in Ec by lia.
  replace (Z.to_nat (index + 3)) with (Z.to_nat index + 3)%nat in Ed by lia.
  rewrite Ea, Eb, Ec, Ed. reflexivity.
Qed.

Lemma result_stages (x y : float32) :
  result x = Some y ->
  exists in_ index fract a b c d,
    fold_period x = Some in_
    /\ locate in_ = Some (index, fract)
    /\ (0 <= index)%Z
    /\ window (Z.to_nat index) = Some (a, b, c, d)
    /\ y = blend32 (weights32 fract) a b c d.
Proof.
  unfold result, run, arm_sin_f32, bind, defined, ret, undefined.
  destruct (fold_period x) as [in_ |] eqn:Ef; [| discriminate].
  destruct (locate in_) as [[index fract] |] eqn:El; [| discriminate].
  destruct (fetch index sinTable) as [[[[[a b] c] d] m1] |] eqn:E; [| discriminate].
  cbn [option_map fst]. intros H. apply Some_eq in H.
  apply window_of_fetch in E as [Hi Hw].
  exists in_, index, fract, a, b, c, d. repeat split; auto.
Qed.

(** *** Rounding in the interpolation *)

Lemma expr_error_ok_sound (vars : list Q) (env : list float32) (e : expr)
      (tol : Q) :
  within_bounds env vars ->
  expr_error_ok vars e tol = true ->
  is_finite (evalF env e) = true
  /\ Rabs (B2R (evalF env e) - evalR (map B2R env) e) <= Q2R tol.
Proof.
  intros Hwb. unfold expr_error_ok.
  destruct (expr_bound vars e) as [[M E] |] eqn:Eb; [| discriminate].
  intros Hle. apply Qle_bool_true_le in Hle.
  destruct (bound_sound vars env e M E Hwb Eb) as (Hfin & Herr & _).
  split; [assumption | lra].
Qed.

Lemma blend_error_checked :
  expr_error_ok [1; 1; 1; 1; 1]%Q blend_expr 0.0000024 = true.
Proof. vm_compute. reflexivity. Qed.

Lemma sinTable_bounded_checked : forallb entry_bounded sinTable = true.
Proof. vm_compute. reflexivity. Qed.

Lemma sinTable_entry_bounded (i : nat) (v : float32) :
  nth_error sinTable i = Some v ->
  is_finite v = true /\ Rabs (B2R v) <= 1.
Proof.
  intros Hv. pose proof sinTable_bounded_checked as Hall.
  rewrite forallb_forall in Hall.
  specialize (Hall v (nth_error_In _ _ Hv)).
  unfold entry_bounded in Hall.
  repeat rewrite andb_true_iff in Hall. destruct Hall as [[Hfin Hlo] Hhi].
  apply Qle_bool_true_le in Hlo, Hhi.
  assert (E1 : Q2R 1 = 1) by (unfold Q2R; simpl; lra).
  assert (E2 : Q2R (-1) = -1) by (unfold Q2R; simpl; lra).
  rewrite E1 in Hhi. rewrite E2 in Hlo.
  split; [assumption |]. apply Rabs_le. unfold B2R. lra.
Qed.

Lemma window_bounded (k : nat) (a b c d : float32) :
  window k = Some (a, b, c, d) ->
  (is_finite a = true /\ Rabs (B2R a) <= 1)
  /\ (is_finite b = true /\ Rabs (B2R b) <= 1)
  /\ (is_finite c = true /\ Rabs (B2R c) <= 1)
  /\ (is_finite d = true /\ Rabs (B2R d) <= 1).
Proof.
  unfold window.
  destruct (nth_error sinTable k) as [a' |] eqn:Ea; [| discriminate].
  destruct (nth_error sinTable (k + 1)) as [b' |] eqn:Eb; [| discriminate].
  destruct (nth_error sinTable (k + 2)) as [c' |] eqn:Ec; [| discriminate].
  destruct (nth_error sinTable (k + 3)) as [d' |] eqn:Ed; [| discriminate].
  intros H. apply Some_eq in H.
  assert (a' = a /\ b' = b /\ c' = c /\ d' = d) as (-> & -> & -> & ->)
    by (repeat split; congruence).
  repeat split; eapply sinTable_entry_bounded; eassumption.
Qed.

(** The binary32 weights and blend against the same operations without
    rounding. *)
Lemma blend_rounding (fract a b c d : float32) :
  is_finite fract = true -> Rabs (B2R fract) <= 1 ->
  is_finite a = true -> Rabs (B2R a) <= 1 ->
  is_finite b = true -> Rabs (B2R b) <= 1 ->
  is_finite c = true -> Rabs (B2R c) <= 1 ->
  is_finite d = true -> Rabs (B2R d) <= 1 ->
  is_finite (blend32 (weights32 fract) a b c d) = true
  /\ Rabs (B2R (blend32 (weights32 fract) a b c d)
           - blendR (B2R fract) (B2R a) (B2R b) (B2R c) (B2R d))
     <= 24 / 10000000.
Proof.
  intros Hf1 Hf2 Ha1 Ha2 Hb1 Hb2 Hc1 Hc2 Hd1 Hd2.
  assert (E1 : Q2R 1 = 1) by (unfold Q2R; simpl; lra).
  assert (Hwb : within_bounds [fract; a; b; c; d] [1; 1; 1; 1; 1]%Q).
  { unfold within_bounds.
    repeat (apply Forall2_cons; [split; [| rewrite E1]; assumption |]).
    apply Forall2_nil. }
  pose proof (expr_error_ok_sound _ _ blend_expr _ Hwb blend_error_checked)
    as [Hfin Herr].
  rewrite blend_expr_evalF in Hfin, Herr.
  cbn [map] in Herr. rewrite blend_expr_evalR in Herr.
  assert (Htol : Q2R 0.0000024 = 24 / 10000000)
    by (unfold Q2R; cbn [Qnum Qden]; lra).
  rewrite Htol in Herr. split; assumption.
Qed.

(** *** The error of a call *)

(** Whenever a call on a finite [x] of magnitude at most 10^8 returns, the
    value returned is finite and within 2.62e-6 of the sine of the angle
    [phi] of the table position, which is within
    1.15e-6 + 1.001e-7 |x| of [x] modulo a whole number of turns. *)
Lemma call_stages (x y : float32) :
  is_finite x = true ->
  Rabs (B2R x) <= 100000000 ->
  result x = Some y ->
  is_finite y = true
  /\ exists phi : R,
       Rabs (B2R y - sin phi) <= 262 / 100000000
       /\ Rabs (sin phi - sin (B2R x))
          <= 115 / 100000000 + 1001 / 10000000000 * Rabs (B2R x).
Proof.
  intros Hfin Hx Hres.
  destruct (result_stages x y Hres)
    as (in_ & index & fract & a & b & c & d & Hfold & Hloc & Hi0 & Hw & ->).
  pose proof u32_value as Hu32. pose proof eta32_small as Heta.
  (* the scaled value *)
  destruct (scaled_real x Hfin Hx) as [Hufin Hu].
  set (X := B2R x) in *. set (U := B2R (scaled x)) in *.
  set (aX := Rabs X) in *.
  assert (HaX : 0 <= aX) by apply Rabs_pos.
  assert (HXa : - aX <= X <= aX).
  { unfold aX, Rabs. destruct (Rcase_abs X); lra. }
  assert (Hprod : Rabs (X * (10680707 / 67108864)) = aX * (10680707 / 67108864)).
  { rewrite Rabs_mult, (Rabs_right (10680707 / 67108864)) by lra. reflexivity. }
  rewrite Hprod, Hu32 in Hu. apply Rabs_le_between in Hu.
  assert (HU : Rabs U < 16777216) by (apply Rabs_def1; lra).
  (* the folded position *)
  assert (HltQ : (Qabs (B2Q (scaled x)) < 16777216)%Q).
  { apply Rlt_Qlt. rewrite Q2R_Qabs.
    replace (Q2R 16777216) with 16777216 by (unfold Q2R; simpl; lra).
    exact HU. }
  destruct (fold_period_shape x Hufin HltQ) as [in' [Hf' Hshape]].
  rewrite Hfold in Hf'. apply Some_eq in Hf'. subst in'.
  destruct (fold_period_real x in_ Hufin HU Hfold) as (_ & Hin & n & Hn).
  fold U in Hn. set (In := B2R in_) in *.
  rewrite Hu32 in Hn. apply Rabs_le_between in Hn.
  (* the position in the table *)
  destruct (locate_real in_ index fract Hshape Hloc) as (Hffin & HF & Hidx & Hpos).
  fold In in Hpos. set (F := B2R fract) in *.
  rewrite Hu32 in Hpos. apply Rabs_le_between in Hpos.
  (* the interpolation *)
  destruct (window_bounded _ _ _ _ _ Hw)
    as ((Ha1 & Ha2) & (Hb1 & Hb2) & (Hc1 & Hc2) & (Hd1 & Hd2)).
  assert (HFabs : Rabs F <= 1) by (apply Rabs_le; lra).
  destruct (blend_rounding fract a b c d Hffin HFabs Ha1 Ha2 Hb1 Hb2 Hc1 Hc2 Hd1 Hd2)
    as [Hyfin Hround].
  split; [assumption |].
  pose proof (interpolation_error _ a b c d F Hw HF) as Hinterp.
  rewrite INR_IZR_INZ, Z2Nat.id, table_step_value in Hinterp by assumption.
  fold F in Hround.
  set (Y := B2R (blend32 (weights32 fract) a b c d)) in *.
  set (B := blendR F (B2R a) (B2R b) (B2R c) (B2R d)) in *.
  set (Phi := 31415926535 / 1280000000000 * (IZR index + F)) in *.
  (* the sine of the table position against the sine of x *)
  pose proof (sin_period_Z X (- n)) as Hper. rewrite opp_IZR in Hper.
  pose proof (sin_lipschitz Phi (X + 2 * - IZR n * PI)) as Hlip.
  rewrite Hper in Hlip.
  pose proof PI_enclosure as Hpi.
  set (dpi := PI - 31415926535 / 10000000000).
  set (Nb := aX * (10680707 / 67108864) * (1 + / 16777216) + 2).
  assert (Hnabs : Rabs (IZR n) <= Nb) by (unfold Nb; apply Rabs_le; lra).
  assert (Hdabs : Rabs dpi <= 1 / 10000000000) by (unfold dpi; apply Rabs_le; lra).
  pose proof (Rabs_mul_le _ _ _ _ Hnabs Hdabs) as Hnd.
  set (nd := IZR n * dpi) in *.
  assert (End : IZR n * PI = IZR n * (31415926535 / 10000000000) + nd)
    by (unfold nd, dpi; ring).
  apply Rabs_le_between in Hnd.
  assert (Hphase : Rabs (Phi - (X + 2 * - IZR n * PI))
                   <= 115 / 100000000 + 1001 / 10000000000 * aX).
  { replace (Phi - (X + 2 * - IZR n * PI))
      with (Phi - X + 2 * (IZR n * PI)) by ring.
    rewrite End. unfold Phi, Nb in *.
    apply Rabs_le. lra. }
  pose proof (Rle_trans _ _ _ Hlip Hphase) as Hsin.
  exists Phi. split; [| exact Hsin].
  apply Rabs_le_between in Hround, Hinterp.
  apply Rabs_le. lra.
Qed.

(** ** Further properties of a call *)

Lemma fold_undefined (x : float32) : fold_period x = None -> result x = None.
Proof.
  intros H. unfold result, run, arm_sin_f32, bind, defined, undefined.
  rewrite H. reflexivity.
Qed.

(** [X1] An input that is not finite makes the call undefined: the
    conversion [(int32_t) in] of a NaN or an infinity has no value. *)
Theorem non_finite_input_undefined (x : float32) :
  is_finite x = false -> result x = None.
Proof.
  intros H. apply fold_undefined.
  destruct x as [s | s | | s m e]; try discriminate H.
  - destruct s; reflexivity.
  - reflexivity.
Qed.

Lemma non_finite_input_undefined_witness : result S754_nan = None.
Proof. apply (non_finite_input_undefined S754_nan). reflexivity. Defined.

Lemma Q2R_Zpos_ge (m : positive) (e B : Z) :
  IZR B <= F2R (Zpos m) e -> (B <= Z.shiftl (Zpos m) e)%Z.
Proof.
  intros H. pose proof (shiftl_floor_real m e) as [_ Hlt].
  assert (Hb : IZR B < IZR (Z.shiftl (Zpos m) e + 1)) by (rewrite plus_IZR; lra).
  apply lt_IZR in Hb. lia.
Qed.

(** [X2] A scaled value of magnitude 2^31 or more makes the call undefined:
    its truncation does not fit [int32_t], or the decrement for a negative
    [x] overflows. *)
Theorem out_of_int_range_undefined (x : float32) :
  is_finite (scaled x) = true ->
  (2147483648 <= Qabs (B2Q (scaled x)))%Q ->
  result x = None.
Proof.
  intros Hfin Hbig. apply fold_undefined.
  apply Qle_Rle in Hbig. rewrite Q2R_Qabs in Hbig.
  replace (Q2R 2147483648) with 2147483648 in Hbig by (unfold Q2R; simpl; lra).
  fold (B2R (scaled x)) in Hbig.
  destruct x as [s | s | | s m e].
  - exfalso. destruct s; cbn in Hbig; unfold B2R, B2Q, Q2R in Hbig; simpl in Hbig;
      rewrite Rmult_0_l, Rabs_R0 in Hbig; lra.
  - destruct s; discriminate Hfin.
  - discriminate Hfin.
  - unfold fold_period. cbv zeta.
    assert (Hneg : ltb (S754_finite s m e) (of_Q 0.0) = s)
      by (destruct s; reflexivity).
    rewrite Hneg. clear Hneg.
    pose proof (scaled_finite_cases s m e) as Hc. cbv zeta in Hc.
    destruct Hc as [Hc | [Hc | [m' [e' Hc]]]]; rewrite Hc in *.
    + exfalso. rewrite B2R_zero, Rabs_R0 in Hbig. lra.
    + destruct s; discriminate Hfin.
    + rewrite B2R_finite, F2R_cond_Zopp in Hbig.
      assert (Hv : 2147483648 <= F2R (Zpos m') e').
      { pose proof (F2R_nonneg (Zpos m') e' ltac:(lia)) as Hp.
        destruct s; cbn [cond_Ropp] in Hbig;
          [rewrite Rabs_Ropp in Hbig |]; rewrite Rabs_right in Hbig; lra. }
      apply (Q2R_Zpos_ge m' e' 2147483648) in Hv.
      unfold to_int32, trunc.
      set (t := Z.shiftl (Zpos m') e') in *.
      destruct ((- 2 ^ 31 <=? cond_Zopp s t) && (cond_Zopp s t <? 2 ^ 31))%Z eqn:E;
        [| reflexivity].
      apply andb_prop in E. destruct E as [E1 E2].
      apply Z.leb_le in E1. apply Z.ltb_lt in E2.
      change (2 ^ 31)%Z with 2147483648%Z in E1, E2.
      destruct s; cbn [cond_Zopp] in *; [| lia].
      unfold int32_pred. change (2 ^ 31)%Z with 2147483648%Z.
      destruct (Z.leb_spec (Z.opp 2147483648) (- t - 1)); [lia | reflexivity].
Qed.

Lemma out_of_int_range_undefined_witness :
  result (of_Q 100000000000000000000) = None.
Proof.
  apply (out_of_int_range_undefined (of_Q 100000000000000000000)).
  - reflexivity.
  - vm_compute. discriminate.
Defined.

(** [X3] On the domain of scaled values below 2^24 the two tests of the
    clamp never fire: the index returned is the unsigned conversion of
    [tableSize * in] itself. *)
Theorem clamp_never_fires (x in_ : float32) (index : Z) (fract : float32) :
  is_finite (scaled x) = true ->
  (Qabs (B2Q (scaled x)) < 16777216)%Q ->
  fold_period x = Some in_ ->
  locate in_ = Some (index, fract) ->
  to_uint32 (mul (of_int TABLE_SIZE) in_) = Some index.
Proof.
  intros Hfin Hlt Hfold Hloc.
  destruct (fold_period_shape x Hfin Hlt) as [in' [Hf' Hshape]].
  rewrite Hfold in Hf'. apply Some_eq in Hf'. subst in'.
  pose proof (table_pos_shape in_ Hshape) as Hpos.
  destruct (to_uint32_in_0_pow2 _ Hpos) as [t [Ht Hr]].
  unfold locate in Hloc. cbv zeta in Hloc. rewrite Ht in Hloc.
  assert (Ei : int32_of_uint32 t = t).
  { unfold int32_of_uint32. destruct (Z.ltb_spec t (2 ^ 31)) as [H | H];
      [reflexivity | change (2 ^ 31)%Z with 2147483648%Z in H; lia]. }
  rewrite Ei in Hloc.
  assert (Ec : (if t <? 0 then 0 else if t >? 256 then 256 else t)%Z = t).
  { destruct (Z.ltb_spec t 0); [lia |]. destruct (t >? 256)%Z eqn:E; lia. }
  rewrite Ec in Hloc. rewrite Ht. congruence.
Qed.

Lemma clamp_never_fires_witness :
  exists in_ index fract,
    fold_period one32 = Some in_
    /\ locate in_ = Some (index, fract)
    /\ to_uint32 (mul (of_int TABLE_SIZE) in_) = Some index.
Proof.
  eexists. eexists. eexists.
  split; [vm_compute; reflexivity |].
  split; [vm_compute; reflexivity |].
  eapply (clamp_never_fires one32).
  - reflexivity.
  - reflexivity.
  - vm_compute. reflexivity.
  - vm_compute. reflexivity.
Defined.

(** [X4] The folded position is the scaled value less a whole number [n] of
    periods, up to 1.2e-7. *)
Theorem fold_period_integer_shift (x in_ : float32) :
  is_finite (scaled x) = true ->
  (Qabs (B2Q (scaled x)) < 16777216)%Q ->
  fold_period x = Some in_ ->
  exists n : Z,
    Rabs (B2R in_ - (B2R (scaled x) - IZR n)) <= 12 / 100000000.
Proof.
  intros Hfin Hlt Hfold.
  assert (HltR : Rabs (B2R (scaled x)) < 16777216).
  { apply Qlt_Rlt in Hlt. rewrite Q2R_Qabs in Hlt.
    replace (Q2R 16777216) with 16777216 in Hlt by (unfold Q2R; simpl; lra).
    exact Hlt. }
  destruct (fold_period_real x in_ Hfin HltR Hfold) as (_ & _ & n & Hn).
  exists n. pose proof u32_value. pose proof eta32_small. lra.
Qed.

Lemma fold_period_integer_shift_witness :
  exists in_ (n : Z),
    fold_period one32 = Some in_
    /\ Rabs (B2R in_ - (B2R (scaled one32) - IZR n)) <= 12 / 100000000.
Proof.
  eexists.
  assert (H : fold_period one32 = Some (sub (scaled one32) (of_int 0)))
    by (vm_compute; reflexivity).
  destruct (fold_period_integer_shift one32 _ eq_refl eq_refl H) as [n Hn].
  exists n. split; [exact H | exact Hn].
Defined.

Lemma in_0_pow2_of_real (f : float32) :
  is_finite f = true -> 0 <= B2R f <= 1 -> in_0_pow2 0 f.
Proof.
  intros Hfin Hr. destruct f as [s | s | | s m e]; try discriminate Hfin.
  - exact I.
  - rewrite B2R_finite, F2R_cond_Zopp in Hr.
    assert (Hpos : 0 < F2R (Zpos m) e).
    { unfold F2R. apply Rmult_lt_0_compat; [apply IZR_lt; lia | apply bpow_pos]. }
    destruct s; [lra |]. cbn [in_0_pow2].
    assert (He : (e <= 0)%Z).
    { destruct (Z.le_gt_cases e 0) as [H | H]; [assumption | exfalso].
      pose proof (bpow_le 1 e ltac:(lia)) as Hb.
      rewrite (bpow_IZR 1) in Hb by lia. change (IZR (2 ^ 1)) with 2 in Hb.
      assert (1 <= IZR (Zpos m)) by (apply IZR_le; lia).
      unfold F2R in Hr. nra. }
    split; [assumption |].
    apply le_IZR. rewrite <- bpow_IZR by lia.
    replace (0 - e)%Z with (- e)%Z by lia.
    rewrite bpow_opp. unfold F2R in Hr.
    pose proof (bpow_pos e) as Hb.
    apply Rmult_le_reg_r with (r := bpow e); [assumption |].
    rewrite Rinv_l by lra. lra.
Qed.

(** [X5] For a finite position [in] between 0 and 1 the index and the offset
    are defined; the index is between 0 and 256, the offset is finite and
    between 0 and 1, and together they are [256 * in] up to 1.6e-5. *)
Theorem locate_splits_position (in_ : float32) :
  is_finite in_ = true ->
  0 <= B2R in_ <= 1 ->
  exists index fract,
    locate in_ = Some (index, fract)
    /\ (0 <= index <= 256)%Z
    /\ is_finite fract = true
    /\ 0 <= B2R fract <= 1
    /\ Rabs (IZR index + B2R fract - 256 * B2R in_) <= 16 / 1000000.
Proof.
  intros Hfin Hr. pose proof (in_0_pow2_of_real in_ Hfin Hr) as Hshape.
  destruct (locate_shape in_ Hshape) as [index [fract [Hloc _]]].
  destruct (locate_real in_ index fract Hshape Hloc) as (Hf & Hfr & Hidx & Herr).
  exists index, fract. repeat split; try assumption; try lia; try lra.
  pose proof u32_value. pose proof eta32_small. lra.
Qed.

Lemma locate_splits_position_witness :
  exists index fract,
    locate zero = Some (index, fract)
    /\ (0 <= index <= 256)%Z
    /\ is_finite fract = true
    /\ 0 <= B2R fract <= 1
    /\ Rabs (IZR index + B2R fract - 256 * B2R zero) <= 16 / 1000000.
Proof.
  apply (locate_splits_position zero).
  - reflexivity.
  - unfold zero. rewrite B2R_zero. lra.
Defined.

(** [X6] For a finite offset and finite samples of magnitude at most 1, the
    binary32 weights and blend of the source never overflow, and their
    result is within 2.4e-6 of the same operations carried out without
    rounding. *)
Theorem blend_rounding_error (fract a b c d : float32) :
  is_finite fract = true -> Rabs (B2R fract) <= 1 ->
  is_finite a = true -> Rabs (B2R a) <= 1 ->
  is_finite b = true -> Rabs (B2R b) <= 1 ->
  is_finite c = true -> Rabs (B2R c) <= 1 ->
  is_finite d = true -> Rabs (B2R d) <= 1 ->
  is_finite (blend32 (weights32 fract) a b c d) = true
  /\ Rabs (B2R (blend32 (weights32 fract) a b c d)
           - blendR (B2R fract) (B2R a) (B2R b) (B2R c) (B2R d))
     <= 24 / 10000000.
Proof. apply blend_rounding. Qed.

Lemma blend_rounding_error_witness :
  is_finite (blend32 (weights32 one32) one32 one32 one32 one32) = true
  /\ Rabs (B2R (blend32 (weights32 one32) one32 one32 one32 one32)
           - blendR (B2R one32) (B2R one32) (B2R one32) (B2R one32) (B2R one32))
     <= 24 / 10000000.
Proof.
  assert (H : Rabs (B2R one32) <= 1) by (rewrite B2R_one32, Rabs_R1; lra).
  apply (blend_rounding_error one32 one32 one32 one32 one32);
    first [reflexivity | exact H].
Defined.

(** [X7] Without rounding and with the constants one half, one sixth and
    one third, the weights and the blend of the source reproduce every cubic
    polynomial [p] from its values at -1, 0, 1 and 2: the result at offset
    [t] is [p t]. *)
Theorem exact_blend_reproduces_cubics (c0 c1 c2 c3 t : Q) :
  let p := fun s : Q => (c0 + c1 * s + c2 * (s * s) + c3 * (s * s * s))%Q in
  (blend Q Qmult Qplus (weightsQ 1 (1 # 2) (1 # 6) (1 # 3) t)
         (p (-1)) (p 0) (p 1) (p 2) == p t)%Q.
Proof.
  cbv zeta. unfold weightsQ, blend, cubic_weights. field.
Qed.

(** [X8] Whenever a call on a finite [x] of magnitude at most 10^8 returns,
    the value returned is finite and within 3.8e-6 + 1.001e-7 |x| of the
    sine of [x]. *)
Theorem arm_sin_f32_error (x y : float32) :
  is_finite x = true ->
  Rabs (B2R x) <= 100000000 ->
  result x = Some y ->
  is_finite y = true
  /\ Rabs (B2R y - sin (B2R x))
     <= 38 / 10000000 + 1001 / 10000000000 * Rabs (B2R x).
Proof.
  intros Hfin Hx Hres.
  destruct (call_stages x y Hfin Hx Hres) as (Hy & phi & H1 & H2).
  split; [assumption |].
  apply Rabs_le_between in H1, H2. apply Rabs_le. lra.
Qed.

Lemma arm_sin_f32_error_witness :
  exists y,
    result one32 = Some y
    /\ is_finite y = true
    /\ Rabs (B2R y - sin (B2R one32))
       <= 38 / 10000000 + 1001 / 10000000000 * Rabs (B2R one32).
Proof.
  eexists. split; [vm_compute; reflexivity |].
  apply (arm_sin_f32_error one32).
  - reflexivity.
  - rewrite B2R_one32, Rabs_R1. lra.
  - vm_compute. reflexivity.
Defined.

(** [X9] Whenever a call on a finite [x] of magnitude at most 900 returns,
    the value returned is within 1e-4 of the sine of [x]. *)
Theorem arm_sin_f32_accuracy (x y : float32) :
  is_finite x = true ->
  Rabs (B2R x) <= 900 ->
  result x = Some y ->
  Rabs (B2R y - sin (B2R x)) <= 1 / 10000.
Proof.
  intros Hfin Hx Hres.
  destruct (call_stages x y Hfin ltac:(lra) Hres) as (Hy & phi & H1 & H2).
  apply Rabs_le_between in H1, H2. apply Rabs_le. lra.
Qed.

Lemma arm_sin_f32_accuracy_witness :
  exists y,
    result one32 = Some y
    /\ Rabs (B2R y - sin (B2R one32)) <= 1 / 10000.
Proof.
  eexists. split; [vm_compute; reflexivity |].
  apply (arm_sin_f32_accuracy one32).
  - reflexivity.
  - rewrite B2R_one32, Rabs_R1. lra.
  - vm_compute. reflexivity.
Defined.

(** [X10] Whenever a call on a finite [x] of magnitude at most 10^8
    returns, the value returned is a finite number, neither an infinity nor
    a NaN, of magnitude at most 1.000003. *)
Theorem arm_sin_f32_range (x y : float32) :
  is_finite x = true ->
  Rabs (B2R x) <= 100000000 ->
  result x = Some y ->
  is_finite y = true /\ Rabs (B2R y) <= 1000003 / 1000000.
Proof.
  intros Hfin Hx Hres.
  destruct (call_stages x y Hfin Hx Hres) as (Hy & phi & H1 & _).
  split; [exact Hy |].
  pose proof (SIN_bound phi).
  apply Rabs_le_between in H1. apply Rabs_le. lra.
Qed.

Lemma arm_sin_f32_range_witness :
  exists y,
    result one32 = Some y
    /\ is_finite y = true /\ Rabs (B2R y) <= 1000003 / 1000000.
Proof.
  eexists. split; [vm_compute; reflexivity |].
  apply (arm_sin_f32_range one32).
  - reflexivity.
  - rewrite B2R_one32, Rabs_R1. lra.
  - vm_compute. reflexivity.
Defined.

Lemma B2R_opp (x : float32) : B2R (opp x) = - B2R x.
Proof.
  destruct x as [s | s | | s m e]; unfold opp, SFopp.
  - rewrite !B2R_zero. lra.
  - unfold B2R, B2Q, Q2R. simpl. lra.
  - unfold B2R, B2Q, Q2R. simpl. lra.
  - rewrite !B2R_finite, !F2R_cond_Zopp. destruct s; cbn [negb]; lra.
Qed.

Lemma is_finite_opp (x : float32) : is_finite (opp x) = is_finite x.
Proof. destruct x; reflexivity. Qed.

(** [X11] Odd symmetry where both calls return: for a finite [x] of
    magnitude at most 10^8, the values returned at [x] and at [-x] are both
    finite numbers, and they are opposite up to twice the error bound. *)
Theorem odd_symmetry_where_defined (x y y' : float32) :
  is_finite x = true ->
  Rabs (B2R x) <= 100000000 ->
  result x = Some y ->
  result (opp x) = Some y' ->
  is_finite y = true
  /\ is_finite y' = true
  /\ Rabs (B2R y' + B2R y)
     <= 2 * (38 / 10000000 + 1001 / 10000000000 * Rabs (B2R x)).
Proof.
  intros Hfin Hx Hres Hres'.
  destruct (call_stages x y Hfin Hx Hres) as (Hy & phi & H1 & H2).
  assert (Hfin' : is_finite (opp x) = true) by (rewrite is_finite_opp; assumption).
  assert (Hx' : Rabs (B2R (opp x)) <= 100000000)
    by (rewrite B2R_opp, Rabs_Ropp; assumption).
  destruct (call_stages (opp x) y' Hfin' Hx' Hres') as (Hy' & phi' & H1' & H2').
  split; [exact Hy |]. split; [exact Hy' |].
  rewrite B2R_opp, sin_neg, Rabs_Ropp in H2'.
  apply Rabs_le_between in H1, H2, H1', H2'. apply Rabs_le. lra.
Qed.

Lemma odd_symmetry_where_defined_witness :
  exists y y',
    result one32 = Some y
    /\ result (opp one32) = Some y'
    /\ is_finite y = true
    /\ is_finite y' = true
    /\ Rabs (B2R y' + B2R y)
       <= 2 * (38 / 10000000 + 1001 / 10000000000 * Rabs (B2R one32)).
Proof.
  eexists. eexists.
  split; [vm_compute; reflexivity |].
  split; [vm_compute; reflexivity |].
  apply (odd_symmetry_where_defined one32).
  - reflexivity.
  - rewrite B2R_one32, Rabs_R1. lra.
  - vm_compute. reflexivity.
  - vm_compute. reflexivity.
Defined.

(** [X12] Over each of the 256 windows of four samples, the interpolation
    carried out without rounding is within 2.3e-7 of the sine: at offset
    [t] of window [k] it approximates [sin (2 pi (k + t) / 256)]. *)
Theorem interpolation_accuracy (k : nat) (a b c d : float32) (t : R) :
  window k = Some (a, b, c, d) ->
  0 <= t <= 1 ->
  Rabs (blendR t (B2R a) (B2R b) (B2R c) (B2R d)
        - sin (2 * PI * (INR k + t) / 256))
  <= 23 / 100000000.
Proof.
  intros Hw Ht.
  pose proof (interpolation_error k a b c d t Hw Ht) as H.
  rewrite table_step_value in H.
  pose proof (window_length _ _ _ _ _ Hw) as Hk.
  apply lt_INR in Hk.
  assert (Hk256 : INR 256 = 256) by (rewrite INR_IZR_INZ; reflexivity).
  rewrite Hk256 in Hk. pose proof (pos_INR k) as Hk0.
  pose proof (sin_lipschitz (31415926535 / 1280000000000 * (INR k + t))
                            (2 * PI * (INR k + t) / 256)) as Hlip.
  pose proof PI_enclosure as Hpi.
  set (dpi := PI - 31415926535 / 10000000000) in *.
  assert (Hd : Rabs (INR k + t) <= 257) by (apply Rabs_le; lra).
  assert (Hd' : Rabs dpi <= 1 / 10000000000) by (unfold dpi; apply Rabs_le; lra).
  pose proof (Rabs_mul_le _ _ _ _ Hd Hd') as Hprod.
  replace (31415926535 / 1280000000000 * (INR k + t) - 2 * PI * (INR k + t) / 256)
    with (- / 128 * ((INR k + t) * dpi)) in Hlip by (unfold dpi; field).
  rewrite Rabs_mult, Rabs_Ropp, (Rabs_right (/ 128)) in Hlip by lra.
  apply Rabs_le_between in H. apply Rabs_le_between in Hlip.
  apply Rabs_le. lra.
Qed.

Lemma interpolation_accuracy_witness :
  exists a b c d,
    window 0 = Some (a, b, c, d)
    /\ Rabs (blendR 0 (B2R a) (B2R b) (B2R c) (B2R d)
             - sin (2 * PI * (INR 0 + 0) / 256))
       <= 23 / 100000000.
Proof.
  eexists. eexists. eexists. eexists.
  split; [vm_compute; reflexivity |].
  apply (interpolation_accuracy 0); [vm_compute; reflexivity | lra].
Defined.

Local Close Scope R_scope.

(** ** Results of the operations have 24-bit mantissas *)

Lemma shift_round_mantissa (m e : Z) :
  0 <= m ->
  let r := shift_round prec emax m e in
  fst r < 2 ^ 24 \/ (fst r = 2 ^ 24 /\ -149 <= snd r).
Proof.
  intros Hm. cbv zeta. unfold shift_round. cbv zeta.
  set (k := fexp prec emax (Zdigits2 m + e) - e).
  assert (Hk : k = Z.max (Zdigits2 m + e - 24) (-149) - e)
    by (unfold k, fexp, emin, prec, emax; lia).
  destruct (Z.eq_dec m 0) as [-> | Hnz].
  - left. destruct (Z.ltb_spec 0 k) as [Hpos | Hle]; cbn [fst]; [| reflexivity].
    pose proof (shr_round_bounds 0 k ltac:(lia) Hpos) as [_ [Hub _]].
    pose proof (shr_round_nonneg 0 k ltac:(lia) Hpos).
    assert (0 < 2 ^ k) by (apply Z.pow_pos_nonneg; lia).
    assert (shr_round 0 k = 0) by nia. lia.
  - pose proof (Zdigits2_bounds m ltac:(lia)) as [Hlo Hhi].
    set (d := Zdigits2 m) in *.
    assert (Hd : 0 < d).
    { destruct (Z.ltb_spec 0 d); [assumption |].
      assert (2 ^ d <= 2 ^ 0) by (apply Z.pow_le_mono_r; lia).
      change (2 ^ 0) with 1 in *. lia. }
    destruct (Z.ltb_spec 0 k) as [Hpos | Hle]; cbn [fst snd].
    + pose proof (shr_round_bounds m k Hm Hpos) as [_ [Hub _]].
      pose proof (shr_round_nonneg m k Hm Hpos) as Hnn.
      assert (Hpk : 0 < 2 ^ k) by (apply Z.pow_pos_nonneg; lia).
      destruct (Z.le_gt_cases d k) as [Hdk | Hdk].
      * left. assert (2 ^ d <= 2 ^ k) by (apply Z.pow_le_mono_r; lia).
        assert (shr_round m k < 2) by nia. lia.
      * assert (Hsplit : 2 ^ d = 2 ^ (d - k) * 2 ^ k)
          by (rewrite <- Z.pow_add_r by lia; f_equal; lia).
        assert (Hq : shr_round m k <= 2 ^ (d - k)) by nia.
        assert (Hdk24 : d - k <= 24) by lia.
        assert (Hp24 : 2 ^ (d - k) <= 2 ^ 24) by (apply Z.pow_le_mono_r; lia).
        destruct (Z.eq_dec (shr_round m k) (2 ^ 24)) as [Heq | Hne].
        -- right. split; [assumption | lia].
        -- left. lia.
    + left. assert (d <= 24) by lia.
      assert (2 ^ d <= 2 ^ 24) by (apply Z.pow_le_mono_r; lia). lia.
Qed.

Lemma round_steps_mantissa (m e : Z) :
  0 <= m -> fst (round_steps prec emax m e) < 2 ^ 24.
Proof.
  intros Hm. unfold round_steps.
  pose proof (shift_round_mantissa m e Hm) as Hr. cbv zeta in Hr.
  pose proof (shift_round_nonneg prec emax m e Hm) as Hnn.
  set (m1 := fst (shift_round prec emax m e)) in *.
  set (e1 := snd (shift_round prec emax m e)) in *.
  unfold shift_trunc. cbv zeta.
  set (k := fexp prec emax (Zdigits2 m1 + e1) - e1).
  destruct Hr as [Hlt | [Heq He1]].
  - destruct (Z.ltb_spec 0 k) as [Hpos | Hle]; cbn [fst]; [| assumption].
    assert (0 < 2 ^ k) by (apply Z.pow_pos_nonneg; lia).
    assert (m1 / 2 ^ k <= m1) by (apply Z.div_le_upper_bound; nia). lia.
  - assert (Hk : k = 1).
    { unfold k. rewrite Heq. change (Zdigits2 (2 ^ 24)) with 25.
      unfold fexp, emin, prec, emax. lia. }
    rewrite Hk, Heq. reflexivity.
Qed.

Lemma binary_round_aux_bounded (s : bool) (m e : Z) :
  0 <= m -> mantissa_bounded (binary_round_aux prec emax s m e loc_Exact).
Proof.
  intros Hm. rewrite binary_round_aux_steps by assumption.
  pose proof (round_steps_mantissa m e Hm) as H.
  unfold pack. destruct (fst (round_steps prec emax m e)) as [| p | p];
    try exact I.
  destruct (_ <=? _); [exact H | exact I].
Qed.

Lemma binary_normalize_bounded (m e : Z) (szero : bool) :
  mantissa_bounded (binary_normalize prec emax m e szero).
Proof.
  unfold binary_normalize, binary_round.
  destruct m as [| p | p]; [exact I | |];
    destruct (shl_align _ _ _) as [mz ez]; apply binary_round_aux_bounded; lia.
Qed.

Lemma mul_bounded (x y : float32) : mantissa_bounded (mul x y).
Proof.
  unfold mul, SFmul.
  destruct x as [sx | sx | | sx mx ex], y as [sy | sy | | sy my ey];
    try exact I.
  apply binary_round_aux_bounded. lia.
Qed.

Lemma sub_bounded (x y : float32) :
  mantissa_bounded x -> mantissa_bounded y -> mantissa_bounded (sub x y).
Proof.
  intros Hx Hy. unfold sub, SFsub.
  destruct x as [sx | sx | | sx mx ex], y as [sy | sy | | sy my ey];
    try exact I; try assumption.
  - destruct sx, sy; exact I.
  - destruct sx, sy; exact I.
  - apply binary_normalize_bounded.
Qed.

Lemma of_int_bounded (n : Z) : mantissa_bounded (of_int n).
Proof. apply binary_normalize_bounded. Qed.

Local Open Scope R_scope.

(** ** Inputs that are not negative *)

(** A number below 1 with a 24-bit mantissa is at most 1 - 2^-24. *)
Lemma below_one_grid (f : float32) :
  mantissa_bounded f -> in_0_pow2 0 f -> B2R f < 1 ->
  B2R f <= 1 - / 16777216.
Proof.
  intros Hb Hs Hlt.
  destruct f as [s | s | | [|] m e]; cbn [in_0_pow2] in Hs; try contradiction.
  - rewrite B2R_zero. lra.
  - destruct Hs as [He Hm]. cbn [mantissa_bounded] in Hb.
    rewrite B2R_finite in *. cbn [cond_Zopp] in *. unfold F2R in *.
    pose proof (bpow_pos e) as Hpe.
    assert (H24 : bpow (-24) = / 16777216).
    { change (-24)%Z with (- (24))%Z. rewrite bpow_opp, (bpow_IZR 24) by lia.
      reflexivity. }
    destruct (Z.le_gt_cases (-24) e) as [Hge | Hsmall].
    + assert (Hinv : bpow (- e) * bpow e = 1).
      { rewrite <- bpow_add. replace (- e + e)%Z with 0%Z by lia. apply bpow_0. }
      assert (Hmlt : (Zpos m < 2 ^ (- e))%Z).
      { apply lt_IZR. rewrite <- bpow_IZR by lia.
        apply Rmult_lt_reg_r with (r := bpow e); [assumption |]. lra. }
      assert (Hmle : IZR (Zpos m) <= bpow (- e) - 1).
      { rewrite bpow_IZR by lia. rewrite <- minus_IZR. apply IZR_le. lia. }
      pose proof (bpow_le (-24) e Hge) as Hmono. rewrite H24 in Hmono.
      assert (IZR (Zpos m) * bpow e <= (bpow (- e) - 1) * bpow e)
        by (apply Rmult_le_compat_r; lra).
      lra.
    + assert (Hm24 : IZR (Zpos m) <= 16777216).
      { change 16777216 with (IZR (2 ^ 24)). apply IZR_le. lia. }
      pose proof (bpow_le e (-25) ltac:(lia)) as Hmono.
      assert (H25 : bpow (-25) = / 33554432).
      { change (-25)%Z with (- (25))%Z. rewrite bpow_opp, (bpow_IZR 25) by lia.
        reflexivity. }
      rewrite H25 in Hmono.
      assert (IZR (Zpos m) * bpow e <= 16777216 * / 33554432).
      { apply Rmult_le_compat; try lra. apply IZR_le. lia. }
      lra.
Qed.

(** The part of a nonnegative number above its truncation is a multiple of
    its unit in the last place, below 1. *)
Lemma fraction_grid (m : positive) (e : Z) :
  (Zpos m < 2 ^ 24)%Z ->
  0 <= F2R (Zpos m) e - IZR (Z.shiftl (Zpos m) e) <= 1 - / 16777216.
Proof.
  intros Hb. pose proof (shiftl_floor_real m e) as [Hlo Hhi].
  split; [lra |]. unfold F2R in *.
  pose proof (bpow_pos e) as Hpe.
  assert (H24 : bpow (-24) = / 16777216).
  { change (-24)%Z with (- (24))%Z. rewrite bpow_opp, (bpow_IZR 24) by lia.
    reflexivity. }
  destruct (Z.le_gt_cases 0 e) as [Hpos | Hneg].
  - (* an integer *)
    rewrite Z.shiftl_mul_pow2 by assumption.
    rewrite mult_IZR, <- bpow_IZR by assumption. lra.
  - destruct (Z.le_gt_cases (-24) e) as [Hge | Hsmall].
    + pose proof (shiftl_floor m e e ltac:(lia) ltac:(lia)) as Hfl.
      cbv zeta in Hfl. destruct Hfl as [Ht0 [Hfl1 Hfl2]].
      rewrite Z.sub_diag in Hfl1, Hfl2. change (2 ^ 0)%Z with 1%Z in Hfl1, Hfl2.
      set (t := Z.shiftl (Zpos m) e) in *.
      assert (Hinv : bpow (- e) * bpow e = 1).
      { rewrite <- bpow_add. replace (- e + e)%Z with 0%Z by lia. apply bpow_0. }
      assert (Hr : IZR (Zpos m) - IZR t * bpow (- e) <= bpow (- e) - 1).
      { rewrite bpow_IZR by lia. rewrite <- mult_IZR, <- !minus_IZR.
        apply IZR_le. lia. }
      pose proof (bpow_le (-24) e Hge) as Hmono. rewrite H24 in Hmono.
      assert ((IZR (Zpos m) - IZR t * bpow (- e)) * bpow e
              <= (bpow (- e) - 1) * bpow e)
        by (apply Rmult_le_compat_r; lra).
      assert (IZR t * bpow (- e) * bpow e = IZR t)
        by (rewrite Rmult_assoc, Hinv; ring).
      lra.
    + assert (Hm24 : IZR (Zpos m) <= 16777216).
      { change 16777216 with (IZR (2 ^ 24)). apply IZR_le. lia. }
      pose proof (bpow_le e (-25) ltac:(lia)) as Hmono.
      assert (H25 : bpow (-25) = / 33554432).
      { change (-25)%Z with (- (25))%Z. rewrite bpow_opp, (bpow_IZR 25) by lia.
        reflexivity. }
      rewrite H25 in Hmono.
      assert (IZR (Zpos m) * bpow e <= 16777216 * / 33554432).
      { apply Rmult_le_compat; try lra. apply IZR_le. lia. }
      assert (0 <= IZR (Z.shiftl (Zpos m) e)).
      { apply IZR_le. apply Z.shiftl_nonneg. lia. }
      lra.
Qed.

Lemma scaled_in_domain (x : float32) :
  is_finite x = true ->
  Rabs (B2R x) <= 100000000 ->
  is_finite (scaled x) = true
  /\ Rabs (B2R (scaled x)) < 16777216
  /\ (Qabs (B2Q (scaled x)) < 16777216)%Q.
Proof.
  intros Hfin Hx.
  destruct (scaled_real x Hfin Hx) as [Hufin Hu].
  pose proof u32_value as Hu32. pose proof eta32_small as Heta.
  assert (Hprod : Rabs (B2R x * (10680707 / 67108864))
                  = Rabs (B2R x) * (10680707 / 67108864)).
  { rewrite Rabs_mult, (Rabs_right (10680707 / 67108864)) by lra. reflexivity. }
  rewrite Hprod, Hu32 in Hu. apply Rabs_le_between in Hu.
  pose proof (Rabs_pos (B2R x)) as Hpos.
  assert (HXa : - Rabs (B2R x) <= B2R x <= Rabs (B2R x)).
  { unfold Rabs. destruct (Rcase_abs (B2R x)); lra. }
  assert (HU : Rabs (B2R (scaled x)) < 16777216) by (apply Rabs_def1; lra).
  split; [assumption |]. split; [assumption |].
  apply Rlt_Qlt. rewrite Q2R_Qabs.
  replace (Q2R 16777216) with 16777216 by (unfold Q2R; simpl; lra).
  exact HU.
Qed.

(** For an input that is not negative the folded position stays below 1. *)
Lemma fold_not_negative (x in_ : float32) :
  is_finite (scaled x) = true ->
  Rabs (B2R (scaled x)) < 16777216 ->
  ltb x (of_Q 0.0) = false ->
  fold_period x = Some in_ ->
  mantissa_bounded in_ /\ B2R in_ < 1.
Proof.
  intros Hufin HU Hpos Hfold.
  unfold fold_period in Hfold. cbv zeta in Hfold. rewrite Hpos in Hfold.
  destruct (to_int32 (scaled x)) as [n |] eqn:En; [| discriminate].
  apply Some_eq in Hfold. subst in_.
  split; [apply sub_bounded; [apply mul_bounded | apply of_int_bounded] |].
  pose proof (mul_bounded x (of_Q 0.159154943092)) as Hub. fold (scaled x) in Hub.
  assert (Hsign : match scaled x with S754_finite true _ _ => False | _ => True end).
  { destruct x as [s | s | | s m e]; try (destruct s; exact I); try exact I.
    assert (Hneg : ltb (S754_finite s m e) (of_Q 0.0) = s)
      by (destruct s; reflexivity).
    rewrite Hneg in Hpos. subst s.
    pose proof (scaled_finite_cases false m e) as Hc. cbv zeta in Hc.
    destruct Hc as [Hc | [Hc | [m' [e' Hc]]]]; rewrite Hc; exact I. }
  destruct (scaled x) as [s | s | | s m e] eqn:Eu; try discriminate Hufin.
  - (* the scaled value is a zero *)
    unfold to_int32, trunc in En. cbn in En. apply Some_eq in En. subst n.
    change (of_int 0) with (S754_zero false).
    assert (E : B2R (sub (S754_zero s) (S754_zero false)) = 0)
      by (destruct s; apply B2R_zero).
    rewrite E. lra.
  - destruct s; [contradiction |]. cbn [mantissa_bounded] in Hub.
    rewrite B2R_finite in HU. cbn [cond_Zopp] in HU.
    pose proof (shiftl_floor_real m e) as [Hlo Hhi].
    pose proof (fraction_grid m e Hub) as Hgrid.
    set (t := Z.shiftl (Zpos m) e) in *.
    assert (Ht0 : (0 <= t)%Z) by (apply Z.shiftl_nonneg; lia).
    assert (Ht24 : (t < 16777216)%Z).
    { apply lt_IZR. apply Rabs_def2 in HU. lra. }
    assert (En' : n = t).
    { unfold to_int32, trunc in En. cbn [cond_Zopp] in En. fold t in En.
      destruct ((- 2 ^ 31 <=? t) && (t <? 2 ^ 31))%Z; [| discriminate].
      apply Some_eq in En. congruence. }
    subst n.
    assert (Htb : (Z.abs t <= 2 ^ 24)%Z)
      by (change (2 ^ 24)%Z with 16777216%Z; lia).
    assert (Hdiff : Rabs (B2R (S754_finite false m e) - B2R (of_int t)) <= bpow 0).
    { rewrite (B2R_of_int _ Htb), B2R_finite. cbn [cond_Zopp].
      rewrite bpow_0. apply Rabs_le. lra. }
    destruct (sub_correct (S754_finite false m e) (of_int t) 0
                ltac:(lia) eq_refl (is_finite_of_int _ Htb) Hdiff) as [_ Herr].
    rewrite (B2R_of_int _ Htb), B2R_finite in Herr. cbn [cond_Zopp] in Herr.
    pose proof u32_value as Hu32. pose proof eta32_small as Heta.
    rewrite (Rabs_right (F2R (Zpos m) e - IZR t)), Hu32 in Herr by lra.
    apply Rabs_le_between in Herr.
    set (D := F2R (Zpos m) e - IZR t) in *.
    assert (/ 16777216 * D <= / 16777216 * (1 - / 16777216))
      by (apply Rmult_le_compat_l; lra).
    lra.
Qed.

Lemma to_uint32_floor (f : float32) (t : Z) :
  in_0_pow2 8 f -> to_uint32 f = Some t -> IZR t <= B2R f.
Proof.
  intros Hs Ht.
  destruct f as [s | s | | [|] m e]; cbn [in_0_pow2] in Hs; try contradiction.
  - unfold to_uint32, trunc in Ht. cbn in Ht. apply Some_eq in Ht. subst t.
    rewrite B2R_zero. lra.
  - unfold to_uint32, trunc in Ht. cbn [cond_Zopp] in Ht.
    destruct (_ && _); [| discriminate]. apply Some_eq in Ht. subst t.
    rewrite B2R_finite. cbn [cond_Zopp].
    pose proof (shiftl_floor_real m e). lra.
Qed.

(** A position below 1 gives an index of at most 255. *)
Lemma locate_below_one (in_ : float32) (index : Z) (fract : float32) :
  in_0_pow2 0 in_ -> mantissa_bounded in_ -> B2R in_ < 1 ->
  locate in_ = Some (index, fract) ->
  (0 <= index <= 255)%Z.
Proof.
  intros Hs Hb Hlt Hloc.
  pose proof (below_one_grid in_ Hb Hs Hlt) as Hgrid.
  destruct (in_0_pow2_real in_ Hs) as [Hfin [Hlo _]].
  pose proof (table_pos_shape in_ Hs) as Hpos.
  destruct (to_uint32_in_0_pow2 _ Hpos) as [t [Ht Hr]].
  pose proof (to_uint32_floor _ t Hpos Ht) as Hfl.
  (* the product 256 * in *)
  assert (H256 : B2R (of_int TABLE_SIZE) = 256)
    by (apply (B2R_of_int 256); vm_compute; discriminate).
  assert (Hprod : Rabs (B2R (of_int TABLE_SIZE) * B2R in_) <= bpow 8).
  { rewrite H256, (bpow_IZR 8) by lia. change (IZR (2 ^ 8)) with 256.
    apply Rabs_le. lra. }
  destruct (mul_correct (of_int TABLE_SIZE) in_ 8 ltac:(lia) eq_refl Hfin Hprod)
    as [_ Hmul].
  rewrite H256 in Hmul.
  pose proof u32_value as Hu32. pose proof eta32_small as Heta.
  rewrite (Rabs_right (256 * B2R in_)), Hu32 in Hmul by lra.
  apply Rabs_le_between in Hmul.
  assert (Hu : / 16777216 * (256 * B2R in_)
               <= / 16777216 * (256 * (1 - / 16777216)))
    by (apply Rmult_le_compat_l; lra).
  assert (Ht255 : (t < 256)%Z) by (apply lt_IZR; lra).
  unfold locate in Hloc. cbv zeta in Hloc. rewrite Ht in Hloc.
  assert (Ei : int32_of_uint32 t = t).
  { unfold int32_of_uint32. destruct (Z.ltb_spec t (2 ^ 31)) as [H | H];
      [reflexivity | change (2 ^ 31)%Z with 2147483648%Z in H; lia]. }
  rewrite Ei in Hloc.
  assert (Ec : (if t <? 0 then 0 else if t >? 256 then 256 else t)%Z = t).
  { destruct (Z.ltb_spec t 0); [lia |]. destruct (t >? 256)%Z eqn:E; lia. }
  rewrite Ec in Hloc. apply Some_eq in Hloc. apply pair_eq in Hloc.
  destruct Hloc as [<- _]. lia.
Qed.

(** With the index at most 255 the four reads are inside the table and the
    call returns. *)
Lemma call_returns (x in_ : float32) (index : Z) (fract : float32) :
  fold_period x = Some in_ ->
  locate in_ = Some (index, fract) ->
  (0 <= index <= 255)%Z ->
  exists y, result x = Some y.
Proof.
  intros Hfold Hloc Hidx.
  destruct (proj2 (fetch_sinTable_defined index) Hidx) as [[[[a b] c] d] Hf].
  exists (blend32 (weights32 fract) a b c d).
  unfold result, run, arm_sin_f32, bind, defined, ret.
  rewrite Hfold, Hloc, Hf. reflexivity.
Qed.

(** [X13] For every finite [x] that is not negative and is at most 10^8,
    the call returns: the index is at most 255, the four reads are inside
    the table, and the value returned is finite and within
    3.8e-6 + 1.001e-7 x of the sine of [x]. *)
Theorem nonnegative_input_correct (x : float32) :
  is_finite x = true ->
  ltb x (of_Q 0.0) = false ->
  Rabs (B2R x) <= 100000000 ->
  exists y,
    result x = Some y
    /\ is_finite y = true
    /\ Rabs (B2R y - sin (B2R x))
       <= 38 / 10000000 + 1001 / 10000000000 * Rabs (B2R x).
Proof.
  intros Hfin Hpos Hx.
  destruct (scaled_in_domain x Hfin Hx) as (Hufin & HU & HUQ).
  destruct (fold_period_shape x Hufin HUQ) as [in_ [Hfold Hshape]].
  destruct (fold_not_negative x in_ Hufin HU Hpos Hfold) as [Hb Hlt].
  destruct (locate_shape in_ Hshape) as [index [fract [Hloc _]]].
  pose proof (locate_below_one in_ index fract Hshape Hb Hlt Hloc) as Hidx.
  destruct (call_returns x in_ index fract Hfold Hloc Hidx) as [y Hy].
  exists y. split; [assumption |].
  destruct (call_stages x y Hfin Hx Hy) as (Hyfin & phi & H1 & H2).
  split; [assumption |].
  apply Rabs_le_between in H1, H2. apply Rabs_le. lra.
Qed.

Lemma nonnegative_input_correct_witness :
  exists y,
    result one32 = Some y
    /\ is_finite y = true
    /\ Rabs (B2R y - sin (B2R one32))
       <= 38 / 10000000 + 1001 / 10000000000 * Rabs (B2R one32).
Proof.
  apply (nonnegative_input_correct one32).
  - reflexivity.
  - reflexivity.
  - rewrite B2R_one32, Rabs_R1. lra.
Defined.

(** ** The folded position 1.0 *)

Lemma one_gives_256_checked : forallb one_gives_256 (seq 0 24) = true.
Proof. vm_compute. reflexivity. Qed.

Lemma locate_one (in_ : float32) (index : Z) (fract : float32) :
  in_0_pow2 0 in_ -> mantissa_bounded in_ -> B2R in_ = 1 ->
  locate in_ = Some (index, fract) ->
  index = 256%Z.
Proof.
  intros Hs Hb Hone Hloc.
  destruct in_ as [s | s | | [|] m e]; cbn [in_0_pow2] in Hs; try contradiction.
  - rewrite B2R_zero in Hone. lra.
  - destruct Hs as [He Hm]. cbn [mantissa_bounded] in Hb.
    rewrite B2R_finite in Hone. cbn [cond_Zopp] in Hone. unfold F2R in Hone.
    assert (Hinv : bpow (- e) * bpow e = 1).
    { rewrite <- bpow_add. replace (- e + e)%Z with 0%Z by lia. apply bpow_0. }
    pose proof (bpow_pos e) as Hpe.
    assert (Hmv : Zpos m = (2 ^ (- e))%Z).
    { apply eq_IZR. rewrite <- bpow_IZR by lia.
      apply Rmult_eq_reg_r with (r := bpow e); [lra | lra]. }
    assert (Hk : (- e < 24)%Z).
    { destruct (Z.lt_ge_cases (- e) 24) as [H | H]; [assumption | exfalso].
      assert (2 ^ 24 <= 2 ^ (- e))%Z by (apply Z.pow_le_mono_r; lia). lia. }
    pose proof one_gives_256_checked as Hall. rewrite forallb_forall in Hall.
    specialize (Hall (Z.to_nat (- e)) ltac:(apply in_seq; lia)).
    unfold one_gives_256 in Hall. rewrite Z2Nat.id in Hall by lia.
    rewrite <- Hmv in Hall. cbn [Z.to_pos] in Hall.
    replace (- - e)%Z with e in Hall by lia.
    rewrite Hloc in Hall. apply Z.eqb_eq in Hall. exact Hall.
Qed.

Lemma fold_bounded (x in_ : float32) :
  fold_period x = Some in_ -> mantissa_bounded in_.
Proof.
  unfold fold_period. cbv zeta.
  destruct (to_int32 (scaled x)) as [n |]; [| discriminate].
  destruct (if ltb x (of_Q 0.0) then int32_pred n else Some n) as [n' |];
    [| discriminate].
  intros H. apply Some_eq in H. subst in_.
  apply sub_bounded; [apply mul_bounded | apply of_int_bounded].
Qed.

Lemma returns_iff_below_one (x in_ : float32) :
  is_finite x = true ->
  Rabs (B2R x) <= 100000000 ->
  fold_period x = Some in_ ->
  (exists y, result x = Some y) <-> B2R in_ < 1.
Proof.
  intros Hfin Hx Hfold.
  destruct (scaled_in_domain x Hfin Hx) as (Hufin & HU & HUQ).
  destruct (fold_period_shape x Hufin HUQ) as [in' [Hf' Hshape]].
  rewrite Hfold in Hf'. apply Some_eq in Hf'. subst in'.
  pose proof (fold_bounded x in_ Hfold) as Hb.
  destruct (in_0_pow2_real in_ Hshape) as [_ [_ Hle]].
  split.
  - intros [y Hy].
    destruct (result_stages x y Hy)
      as (in' & index & fract & a & b & c & d & Hf' & Hloc & Hi0 & Hw & _).
    rewrite Hfold in Hf'. apply Some_eq in Hf'. subst in'.
    destruct (Rlt_or_le (B2R in_) 1) as [Hlt | Hge]; [assumption | exfalso].
    assert (Hone : B2R in_ = 1) by lra.
    pose proof (locate_one in_ index fract Hshape Hb Hone Hloc) as H256.
    pose proof (window_length _ _ _ _ _ Hw) as Hk. subst index.
    change (Z.to_nat 256) with 256%nat in Hk. lia.
  - intros Hlt.
    destruct (locate_shape in_ Hshape) as [index [fract [Hloc _]]].
    pose proof (locate_below_one in_ index fract Hshape Hb Hlt Hloc) as Hidx.
    exact (call_returns x in_ index fract Hfold Hloc Hidx).
Qed.

(** [X14] On finite inputs of magnitude at most 10^8 the call returns
    exactly when the folded position is below 1: at the position 1.0 the
    index is 256 and the read of the fourth sample is outside the table. *)
Theorem call_returns_iff_below_one (x in_ : float32) :
  is_finite x = true ->
  Rabs (B2R x) <= 100000000 ->
  fold_period x = Some in_ ->
  (exists y, result x = Some y) <-> B2R in_ < 1.
Proof. apply returns_iff_below_one. Qed.

Lemma call_returns_iff_below_one_witness :
  exists in_,
    fold_period one32 = Some in_
    /\ ((exists y, result one32 = Some y) <-> B2R in_ < 1).
Proof.
  eexists. split; [vm_compute; reflexivity |].
  apply (call_returns_iff_below_one one32).
  - reflexivity.
  - rewrite B2R_one32, Rabs_R1. lra.
  - vm_compute. reflexivity.
Defined.

(** ** Small negative inputs *)

(** Rounding a number below 1 moves it by at most 2^-25. *)
Lemma binary_round_aux_near (s : bool) (m : positive) (e : Z) :
  F2R (Zpos m) e < 1 ->
  let r := binary_round_aux prec emax s (Zpos m) e loc_Exact in
  is_finite r = true
  /\ Rabs (B2R r - cond_Ropp s (F2R (Zpos m) e)) <= / 33554432.
Proof.
  intros Hlt. cbv zeta.
  assert (Hle : F2R (Zpos m) e <= bpow 0) by (rewrite bpow_0; lra).
  rewrite binary_round_aux_steps by lia.
  pose proof (F2R_le_pow2 (Zpos m) e 0 ltac:(lia) Hle) as Hpow.
  pose proof (round_steps_le_pow2 prec emax ltac:(unfold prec; lia) (Zpos m) e 0
                ltac:(unfold emin, emax, prec; lia) Hpow) as [Hm3 [He3 _]].
  destruct (is_finite_pack s (round_steps prec emax (Zpos m) e) Hm3 ltac:(lia))
    as [Hfin Hval].
  split; [assumption |]. rewrite Hval, F2R_cond_Zopp.
  change (if s then - ?a else ?a) with (cond_Ropp s a).
  rewrite Rabs_cond_Ropp_minus.
  rewrite (round_steps_value prec emax ltac:(unfold prec; lia) (Zpos m) e ltac:(lia)).
  pose proof (shift_round_value prec emax (Zpos m) e ltac:(lia)) as Herr.
  eapply Rle_trans; [exact Herr |].
  (* the digits of a number below 1 *)
  pose proof (Zdigits2_bounds (Zpos m) ltac:(lia)) as [Hlo _].
  set (d := Zdigits2 (Zpos m)) in *.
  assert (Hd : (0 < d)%Z).
  { destruct (Z.ltb_spec 0 d); [assumption | exfalso].
    pose proof (Zdigits2_bounds (Zpos m) ltac:(lia)) as [_ Hhi]. fold d in Hhi.
    assert (2 ^ d <= 2 ^ 0)%Z by (apply Z.pow_le_mono_r; lia).
    change (2 ^ 0)%Z with 1%Z in *. lia. }
  assert (Hde : (d + e <= 0)%Z).
  { destruct (Z.le_gt_cases (d + e) 0) as [H | H]; [assumption | exfalso].
    assert (Hb : bpow (d - 1 + e) <= F2R (Zpos m) e).
    { rewrite bpow_add, (bpow_IZR (d - 1)) by lia. unfold F2R.
      apply Rmult_le_compat_r; [apply Rlt_le, bpow_pos | apply IZR_le; lia]. }
    pose proof (bpow_le 0 (d - 1 + e) ltac:(lia)) as Hb'.
    rewrite bpow_0 in Hb'. lra. }
  assert (Hf : (fexp prec emax (d + e) <= -24)%Z)
    by (unfold fexp, emin, prec, emax; lia).
  pose proof (bpow_le _ _ Hf) as Hmono.
  assert (H24 : bpow (-24) = / 16777216).
  { change (-24)%Z with (- (24))%Z. rewrite bpow_opp, (bpow_IZR 24) by lia.
    reflexivity. }
  rewrite H24 in Hmono. lra.
Qed.

Lemma binary_round_near (s : bool) (m : positive) (e : Z) :
  F2R (Zpos m) e < 1 ->
  let r := binary_round prec emax s m e in
  is_finite r = true
  /\ Rabs (B2R r - cond_Ropp s (F2R (Zpos m) e)) <= / 33554432.
Proof.
  intros Hlt. cbv zeta. unfold binary_round.
  set (t := fexp prec emax (Zpos (digits2_pos m) + e)).
  destruct (Z.le_gt_cases e t) as [Hc | Hc].
  - rewrite shl_align_no_shift by assumption.
    apply (binary_round_aux_near s m e); assumption.
  - destruct (shl_align m e t) as [mz ez] eqn:E.
    pose proof (shl_align_value m e t ltac:(lia)) as [Hv Hs].
    rewrite E in Hv, Hs. cbn [fst snd] in Hv, Hs. subst ez.
    assert (Hsame : F2R (Zpos mz) t = F2R (Zpos m) e).
    { rewrite Hv, F2R_shift by lia. f_equal. lia. }
    rewrite <- Hsame. apply (binary_round_aux_near s mz t).
    rewrite Hsame. assumption.
Qed.

(** A difference strictly between 0 and 1 is rounded to within 2^-25. *)
Lemma sub_near (sx sy : bool) (mx my : positive) (ex ey : Z) :
  let x := S754_finite sx mx ex in
  let y := S754_finite sy my ey in
  0 < B2R x - B2R y < 1 ->
  Rabs (B2R (sub x y) - (B2R x - B2R y)) <= / 33554432.
Proof.
  cbv zeta. intros Hd. unfold sub, SFsub.
  assert (Hsum : B2R (S754_finite sx mx ex) - B2R (S754_finite sy my ey)
                 = B2R (S754_finite sx mx ex) + B2R (S754_finite (negb sy) my ey)).
  { rewrite !B2R_finite, !F2R_cond_Zopp. destruct sy; cbn [negb]; ring. }
  rewrite Hsum in *. rewrite <- aligned_sum in *. cbv zeta in *.
  replace (cond_Zopp sx (Zpos (fst (shl_align mx ex (Z.min ex ey))))
           - cond_Zopp sy (Zpos (fst (shl_align my ey (Z.min ex ey)))))%Z
    with (cond_Zopp sx (Zpos (fst (shl_align mx ex (Z.min ex ey))))
          + cond_Zopp (negb sy) (Zpos (fst (shl_align my ey (Z.min ex ey)))))%Z
    by (destruct sy; cbn [negb cond_Zopp]; lia).
  set (D := (cond_Zopp sx (Zpos (fst (shl_align mx ex (Z.min ex ey))))
             + cond_Zopp (negb sy) (Zpos (fst (shl_align my ey (Z.min ex ey)))))%Z)
    in *.
  destruct D as [| q | q].
  - rewrite F2R_0 in Hd. lra.
  - cbn [binary_normalize].
    assert (Hq : F2R (Zpos q) (Z.min ex ey) < 1) by lra.
    destruct (binary_round_near false q (Z.min ex ey) Hq) as [_ H].
    exact H.
  - exfalso. change (Zneg q) with (- Zpos q)%Z in Hd. rewrite F2R_opp in Hd.
    pose proof (F2R_nonneg (Zpos q) (Z.min ex ey) ltac:(lia)). lra.
Qed.

Lemma negative_sign (x : float32) :
  is_finite x = true -> ltb x (of_Q 0.0) = true ->
  exists m e, x = S754_finite true m e.
Proof.
  intros Hfin Hneg. destruct x as [s | s | | s m e]; try discriminate Hfin.
  - destruct s; discriminate Hneg.
  - assert (H : ltb (S754_finite s m e) (of_Q 0.0) = s)
      by (destruct s; reflexivity).
    rewrite H in Hneg. subst s. eauto.
Qed.

Lemma B2R_minus_one : B2R (S754_finite true 8388608 (-23)) = -1.
Proof.
  unfold B2R. rewrite (Qeq_eqR _ (-1)).
  - unfold Q2R. simpl. lra.
  - vm_compute. reflexivity.
Qed.

(** For a small negative input the folded position is 1.0. *)
Lemma fold_small_negative (x in_ : float32) :
  is_finite x = true ->
  ltb x (of_Q 0.0) = true ->
  Rabs (B2R x) <= 9 / 100000000 ->
  fold_period x = Some in_ ->
  B2R in_ = 1.
Proof.
  intros Hfin Hneg Hx Hfold.
  destruct (negative_sign x Hfin Hneg) as [m0 [e0 ->]].
  assert (Hx8 : Rabs (B2R (S754_finite true m0 e0)) <= 100000000) by lra.
  destruct (scaled_in_domain _ Hfin Hx8) as (Hufin & HU & HUQ).
  destruct (scaled_real _ Hfin Hx8) as [_ Hu].
  destruct (fold_period_shape _ Hufin HUQ) as [in' [Hf' Hshape]].
  rewrite Hfold in Hf'. apply Some_eq in Hf'. subst in'.
  pose proof (fold_bounded _ in_ Hfold) as Hb.
  destruct (in_0_pow2_real in_ Hshape) as [_ [_ Hle]].
  pose proof u32_value as Hu32. pose proof eta32_small as Heta.
  assert (Hprod : Rabs (B2R (S754_finite true m0 e0) * (10680707 / 67108864))
                  = Rabs (B2R (S754_finite true m0 e0)) * (10680707 / 67108864)).
  { rewrite Rabs_mult, (Rabs_right (10680707 / 67108864)) by lra. reflexivity. }
  rewrite Hprod, Hu32 in Hu.
  pose proof (Rabs_pos (B2R (S754_finite true m0 e0))) as Hxpos.
  set (aX := Rabs (B2R (S754_finite true m0 e0))) in *.
  assert (Hsmall : Rabs (B2R (scaled (S754_finite true m0 e0))) <= / 67108864).
  { set (U := B2R (scaled (S754_finite true m0 e0))) in *.
    set (V := B2R (S754_finite true m0 e0) * (10680707 / 67108864)) in *.
    assert (HV : Rabs V = aX * (10680707 / 67108864)) by exact Hprod.
    replace U with (V + (U - V)) by ring.
    eapply Rle_trans; [apply Rabs_triang |]. rewrite HV. nra. }
  unfold fold_period in Hfold. cbv zeta in Hfold. rewrite Hneg in Hfold.
  pose proof (scaled_finite_cases true m0 e0) as Hc. cbv zeta in Hc.
  destruct Hc as [Hc | [Hc | [m [e Hc]]]]; rewrite Hc in *.
  - (* the scaled value underflows to -0 *)
    vm_compute in Hfold. apply Some_eq in Hfold. subst in_.
    unfold B2R. rewrite (Qeq_eqR _ 1); [unfold Q2R; simpl; lra |].
    vm_compute. reflexivity.
  - discriminate Hufin.
  - rewrite B2R_finite in Hsmall. cbn [cond_Zopp] in Hsmall.
    rewrite F2R_opp, Rabs_Ropp in Hsmall.
    assert (Hpos : 0 < F2R (Zpos m) e).
    { unfold F2R. apply Rmult_lt_0_compat; [apply IZR_lt; lia | apply bpow_pos]. }
    rewrite Rabs_right in Hsmall by lra.
    pose proof (shiftl_floor_real m e) as [Hlo Hhi].
    assert (Ht : Z.shiftl (Zpos m) e = 0%Z).
    { assert (0 <= Z.shiftl (Zpos m) e)%Z by (apply Z.shiftl_nonneg; lia).
      assert (IZR (Z.shiftl (Zpos m) e) < 1) by lra.
      apply lt_IZR in H0. lia. }
    assert (Et : to_int32 (S754_finite true m e) = Some 0%Z).
    { unfold to_int32, trunc. rewrite Ht. reflexivity. }
    rewrite Et in Hfold.
    change (int32_pred 0) with (Some (-1)%Z) in Hfold.
    apply Some_eq in Hfold. subst in_.
    change (of_int (-1)) with (S754_finite true 8388608 (-23)) in *.
    assert (Hd : 0 < B2R (S754_finite true m e)
                     - B2R (S754_finite true 8388608 (-23)) < 1).
    { rewrite B2R_minus_one, B2R_finite. cbn [cond_Zopp]. rewrite F2R_opp. lra. }
    pose proof (sub_near true true m 8388608 e (-23) Hd) as Hnear.
    cbv zeta in Hnear. rewrite B2R_minus_one, B2R_finite in Hnear.
    cbn [cond_Zopp] in Hnear. rewrite F2R_opp in Hnear.
    apply Rabs_le_between in Hnear.
    destruct (Rlt_or_le (B2R (sub (S754_finite true m e)
                                  (S754_finite true 8388608 (-23)))) 1)
      as [Hlt | Hge]; [| lra].
    pose proof (below_one_grid _ Hb Hshape Hlt) as Hgrid. lra.
Qed.

(** [X15] Every negative finite input of magnitude at most 9e-8 makes the
    call undefined: the folded position is rounded to 1.0, the index is
    256, and the read of the fourth sample is outside the table. *)
Theorem small_negative_input_undefined (x : float32) :
  is_finite x = true ->
  ltb x (of_Q 0.0) = true ->
  Rabs (B2R x) <= 9 / 100000000 ->
  result x = None.
Proof.
  intros Hfin Hneg Hx.
  assert (Hx8 : Rabs (B2R x) <= 100000000) by lra.
  destruct (scaled_in_domain x Hfin Hx8) as (Hufin & HU & HUQ).
  destruct (fold_period_shape x Hufin HUQ) as [in_ [Hfold _]].
  pose proof (fold_small_negative x in_ Hfin Hneg Hx Hfold) as Hone.
  destruct (result x) as [y |] eqn:E; [exfalso | reflexivity].
  assert (Hret : exists y, result x = Some y) by eauto.
  apply (returns_iff_below_one x in_ Hfin Hx8 Hfold) in Hret. lra.
Qed.

Lemma Rabs_B2R_le (f : float32) (q : Q) :
  Qle_bool (Qabs (B2Q f)) q = true -> Rabs (B2R f) <= Q2R q.
Proof.
  intros H. apply Qle_bool_true_le in H. rewrite Q2R_Qabs in H. exact H.
Qed.

Lemma small_negative_input_undefined_witness :
  result (of_Q (-0.00000001)) = None.
Proof.
  apply (small_negative_input_undefined (of_Q (-0.00000001))).
  - reflexivity.
  - reflexivity.
  - apply (Rabs_B2R_le (of_Q (-0.00000001)) (9 # 100000000)).
    vm_compute. reflexivity.
Defined.

(** ** The table as samples of the sine *)

Lemma window_defined (k : nat) :
  (k < 256)%nat -> exists a b c d, window k = Some (a, b, c, d).
Proof.
  intros Hk. unfold window.
  assert (Hn : forall j, (j < 259)%nat -> exists v, nth_error sinTable j = Some v).
  { intros j Hj. destruct (nth_error sinTable j) as [v |] eqn:E; [eauto |].
    apply nth_error_None in E. rewrite sinTable_length in E. lia. }
  destruct (Hn k ltac:(lia)) as [a ->].
  destruct (Hn (k + 1)%nat ltac:(lia)) as [b ->].
  destruct (Hn (k + 2)%nat ltac:(lia)) as [c ->].
  destruct (Hn (k + 3)%nat ltac:(lia)) as [d ->].
  eauto.
Qed.

Lemma window_second (k : nat) (a b c d : float32) :
  window k = Some (a, b, c, d) -> nth_error sinTable (k + 1) = Some b.
Proof.
  unfold window.
  destruct (nth_error sinTable k); [| discriminate].
  destruct (nth_error sinTable (k + 1)) as [b' |]; [| discriminate].
  destruct (nth_error sinTable (k + 2)); [| discriminate].
  destruct (nth_error sinTable (k + 3)); [| discriminate].
  intros H. apply Some_eq in H. congruence.
Qed.

Lemma sample_near (k : nat) (v : float32) :
  (k < 256)%nat ->
  nth_error sinTable (k + 1) = Some v ->
  Rabs (B2R v - sin (2 * PI * INR k / 256)) <= 302 / 10000000000.
Proof.
  intros Hk Hv.
  destruct (window_defined k Hk) as (a & b & c & d & Hw).
  pose proof (window_second k a b c d Hw) as Hb.
  rewrite Hv in Hb. apply Some_eq in Hb. subst b.
  destruct (piece_checked k a v c d Hw) as [H _].
  rewrite table_step_value in H.
  apply lt_INR in Hk.
  assert (Hk256 : INR 256 = 256) by (rewrite INR_IZR_INZ; reflexivity).
  rewrite Hk256 in Hk. pose proof (pos_INR k) as Hk0.
  pose proof (sin_lipschitz (INR k * (31415926535 / 1280000000000))
                            (2 * PI * INR k / 256)) as Hlip.
  pose proof PI_enclosure as Hpi.
  set (dpi := PI - 31415926535 / 10000000000) in *.
  assert (Hd : Rabs (INR k) <= 256) by (apply Rabs_le; lra).
  assert (Hd' : Rabs dpi <= 1 / 10000000000) by (unfold dpi; apply Rabs_le; lra).
  pose proof (Rabs_mul_le _ _ _ _ Hd Hd') as Hprod.
  replace (INR k * (31415926535 / 1280000000000) - 2 * PI * INR k / 256)
    with (- / 128 * (INR k * dpi)) in Hlip by (unfold dpi; field).
  rewrite Rabs_mult, Rabs_Ropp, (Rabs_right (/ 128)) in Hlip by lra.
  apply Rabs_le_between in H. apply Rabs_le_between in Hlip.
  apply Rabs_le. lra.
Qed.

Lemma guard_entries :
  nth_error sinTable 0 = nth_error sinTable 256
  /\ nth_error sinTable 258 = nth_error sinTable 2
  /\ nth_error sinTable 257 = Some (S754_finite true 9255838 (-75)).
Proof. vm_compute. repeat split; reflexivity. Qed.

(** [X16] Every entry [i] of the table is the sine of [2 pi (i - 1) / 256]
    to within 3.1e-8, the two guard entries after index 256 and the one
    before index 1 included. *)
Theorem sinTable_samples (i : nat) (v : float32) :
  nth_error sinTable i = Some v ->
  Rabs (B2R v - sin (2 * PI * (INR i - 1) / 256)) <= 31 / 1000000000.
Proof.
  intros Hv.
  assert (Hi : (i < 259)%nat).
  { rewrite <- sinTable_length. apply nth_error_Some. rewrite Hv. discriminate. }
  destruct guard_entries as (G0 & G258 & G257).
  assert (Hcases : (i = 0 \/ (1 <= i <= 256) \/ i = 257 \/ i = 258)%nat) by lia.
  destruct Hcases as [-> | [H1 | [-> | ->]]].
  - (* the guard before index 1: the sample of index 256, one turn earlier *)
    rewrite G0 in Hv. pose proof (sample_near 255 v ltac:(lia) Hv) as H.
    rewrite <- (sin_period_Z (2 * PI * (INR 0 - 1) / 256) 1).
    replace (2 * PI * (INR 0 - 1) / 256 + 2 * 1 * PI)
      with (2 * PI * INR 255 / 256).
    + lra.
    + assert (E : INR 255 = 255) by (rewrite INR_IZR_INZ; reflexivity).
      rewrite E. cbn [INR]. field.
  - replace i with ((i - 1) + 1)%nat in Hv by lia.
    pose proof (sample_near (i - 1) v ltac:(lia) Hv) as H.
    replace (INR i - 1) with (INR (i - 1)).
    + lra.
    + rewrite minus_INR by lia. cbn [INR]. ring.
  - (* sin (2 pi) = 0 against an entry of magnitude 2.5e-16 *)
    rewrite G257 in Hv. apply Some_eq in Hv. subst v.
    assert (E : INR 257 = 257) by (rewrite INR_IZR_INZ; reflexivity).
    rewrite E. replace (2 * PI * (257 - 1) / 256) with (2 * PI) by field.
    rewrite sin_2PI, Rminus_0_r.
    pose proof (Rabs_B2R_le (S754_finite true 9255838 (-75)) (1 # 1000000000)
                  ltac:(vm_compute; reflexivity)) as H.
    replace (Q2R (1 # 1000000000)) with (/ 1000000000) in H
      by (unfold Q2R; cbn [Qnum Qden]; lra).
    lra.
  - (* the second guard: the sample of index 2, one turn later *)
    rewrite G258 in Hv. pose proof (sample_near 1 v ltac:(lia) Hv) as H.
    assert (E : INR 258 = 258) by (rewrite INR_IZR_INZ; reflexivity).
    rewrite E.
    rewrite <- (sin_period_Z (2 * PI * INR 1 / 256) 1) in H.
    replace (2 * PI * INR 1 / 256 + 2 * 1 * PI)
      with (2 * PI * (258 - 1) / 256) in H by (cbn [INR]; field).
    lra.
Qed.

Lemma sinTable_samples_witness :
  exists v,
    nth_error sinTable 65 = Some v
    /\ Rabs (B2R v - sin (2 * PI * (INR 65 - 1) / 256)) <= 31 / 1000000000.
Proof.
  eexists. split; [vm_compute; reflexivity |].
  apply (sinTable_samples 65). vm_compute. reflexivity.
Defined.

(** ** Symmetry of the table *)

Lemma opposite_entries_checked :
  forallb (fun k => opposite_entries k
                    || (k =? 1)%nat || (k =? 129)%nat || (k =? 257)%nat)
          (seq 0 259) = true.
Proof. vm_compute. reflexivity. Qed.

(** [X17] The table is odd about its centre: the entries [k] and [258 - k]
    are opposite binary32 numbers, except at the three zero crossings 1,
    129 and 257, whose entries are not exact zeros of opposite sign. *)
Theorem sinTable_antisymmetric (k : nat) (v w : float32) :
  nth_error sinTable k = Some v ->
  nth_error sinTable (258 - k) = Some w ->
  k <> 1%nat -> k <> 129%nat -> k <> 257%nat ->
  v = opp w.
Proof.
  intros Hv Hw H1 H129 H257.
  assert (Hk : (k < 259)%nat).
  { rewrite <- sinTable_length. apply nth_error_Some. rewrite Hv. discriminate. }
  pose proof opposite_entries_checked as Hall. rewrite forallb_forall in Hall.
  specialize (Hall k ltac:(apply in_seq; lia)).
  apply Nat.eqb_neq in H1, H129, H257.
  rewrite H1, H129, H257, !orb_false_r in Hall.
  unfold opposite_entries in Hall. rewrite Hv, Hw in Hall.
  apply feqb_eq. exact Hall.
Qed.

Lemma sinTable_antisymmetric_witness :
  exists v w,
    nth_error sinTable 65 = Some v
    /\ nth_error sinTable (258 - 65) = Some w
    /\ v = opp w.
Proof.
  eexists. eexists.
  split; [vm_compute; reflexivity |].
  split; [vm_compute; reflexivity |].
  apply (sinTable_antisymmetric 65); try (vm_compute; reflexivity); lia.
Defined.

(** ** The folded position for inputs that are not negative *)

(** [X18] For an input that is not negative and whose scaled value is
    finite and below 2^24, the folded position is defined, finite, and lies
    in the half-open interval from 0 to 1. *)
Theorem fold_period_half_open (x : float32) :
  is_finite (scaled x) = true ->
  (Qabs (B2Q (scaled x)) < 16777216)%Q ->
  ltb x (of_Q 0.0) = false ->
  exists in_,
    fold_period x = Some in_
    /\ is_finite in_ = true
    /\ 0 <= B2R in_ < 1.
Proof.
  intros Hfin Hlt Hpos.
  assert (HltR : Rabs (B2R (scaled x)) < 16777216).
  { apply Qlt_Rlt in Hlt. rewrite Q2R_Qabs in Hlt.
    replace (Q2R 16777216) with 16777216 in Hlt by (unfold Q2R; simpl; lra).
    exact Hlt. }
  destruct (fold_period_shape x Hfin Hlt) as [in_ [Hfold Hshape]].
  destruct (fold_not_negative x in_ Hfin HltR Hpos Hfold) as [_ Hone].
  destruct (in_0_pow2_real in_ Hshape) as [Hf [Hlo _]].
  exists in_. repeat split; assumption.
Qed.

Lemma fold_period_half_open_witness :
  exists in_,
    fold_period one32 = Some in_
    /\ is_finite in_ = true
    /\ 0 <= B2R in_ < 1.
Proof.
  apply (fold_period_half_open one32); reflexivity.
Defined.

Local Close Scope R_scope.

(** ** Scaled values of 2^24 and more *)

(** An integer [m * 2^e] of 25 to 31 binary digits whose factor [m] has at
    most 24 converts exactly. *)
Lemma of_int_multiple (m : positive) (e : Z) :
  Zpos m < 2 ^ 24 -> 0 <= e ->
  2 ^ 24 <= Zpos m * 2 ^ e < 2 ^ 31 ->
  exists mn en,
    of_int (Zpos m * 2 ^ e) = S754_finite false mn en
    /\ 0 <= en <= e /\ Zpos mn * 2 ^ en = Zpos m * 2 ^ e.
Proof.
  intros Hm He [Hlo Hhi].
  destruct (Zpos m * 2 ^ e) as [| p | p] eqn:En;
    try (change (2 ^ 24) with 16777216 in Hlo; lia).
  pose proof (digits2_pos_bounds p) as [Dlo Dhi].
  set (D := Zpos (digits2_pos p)) in *.
  assert (HD : 25 <= D <= 31).
  { split.
    - destruct (Z.leb_spec 25 D) as [H | H]; [assumption | exfalso].
      assert (2 ^ D <= 2 ^ 24) by (apply Z.pow_le_mono_r; lia). lia.
    - destruct (Z.leb_spec D 31) as [H | H]; [assumption | exfalso].
      assert (2 ^ 31 <= 2 ^ (D - 1)) by (apply Z.pow_le_mono_r; lia). lia. }
  set (k := D - 24).
  assert (Hk : 1 <= k <= e).
  { split; [unfold k; lia |].
    destruct (Z.leb_spec k e) as [H | H]; [assumption | exfalso].
    assert (Hp : 0 < 2 ^ e) by (apply Z.pow_pos_nonneg; lia).
    assert (2 ^ (24 + e) <= 2 ^ (D - 1)) by (apply Z.pow_le_mono_r; unfold k in H; lia).
    rewrite pow2_split in * by lia. nia. }
  assert (Hpk : 0 < 2 ^ k) by (apply Z.pow_pos_nonneg; lia).
  assert (Hmul : Zpos p = Zpos m * 2 ^ (e - k) * 2 ^ k).
  { rewrite <- En, <- Z.mul_assoc, <- pow2_split by lia. do 2 f_equal. lia. }
  assert (Hq : 2 ^ 23 <= Zpos m * 2 ^ (e - k) < 2 ^ 24).
  { replace (D - 1) with (23 + k) in Dlo by (unfold k; lia).
    replace D with (24 + k) in Dhi by (unfold k; lia).
    rewrite pow2_split in Dlo, Dhi by lia. nia. }
  destruct (Zpos m * 2 ^ (e - k)) as [| q | q] eqn:Eq;
    try (change (2 ^ 23) with 8388608 in Hq; lia).
  exists q, k. split; [| split; [lia | lia]].
  unfold of_int, binary_normalize, binary_round.
  assert (Hf : fexp prec emax (Zpos (digits2_pos p) + 0) = k)
    by (fold D; unfold fexp, emin, prec, emax, k; lia).
  rewrite Hf, shl_align_no_shift by lia.
  rewrite binary_round_aux_steps by lia.
  assert (Hr : round_steps prec emax (Zpos p) 0 = (Zpos q, k)).
  { assert (H1 : shift_round prec emax (Zpos p) 0 = (Zpos q, k)).
    { unfold shift_round. cbn [Zdigits2]. rewrite Hf, Z.sub_0_r.
      destruct (Z.ltb_spec 0 k) as [_ | H]; [| lia].
      rewrite shr_round_exact, Hmul, Z.add_0_l; try lia.
      - rewrite Z.div_mul by lia. reflexivity.
      - rewrite Hmul. apply Z.mod_mul. lia. }
    unfold round_steps. rewrite H1. cbn [fst snd].
    unfold shift_trunc. cbn [Zdigits2].
    rewrite (digits2_pos_unique q 24) by (change (24 - 1) with 23; exact Hq).
    replace (fexp prec emax (24 + k) - k) with 0
      by (unfold fexp, emin, prec, emax; lia).
    reflexivity. }
  rewrite Hr. unfold pack. cbn [fst snd].
  destruct (Z.leb_spec k (emax - prec)) as [_ | H];
    [reflexivity | unfold emax, prec in H; lia].
Qed.

(** Two numbers of the same sign and value have the difference +0. *)
Lemma sub_same_value (s : bool) (m mn : positive) (e en : Z) :
  0 <= en <= e -> Zpos mn * 2 ^ en = Zpos m * 2 ^ e ->
  sub (S754_finite s m e) (S754_finite s mn en) = S754_zero false.
Proof.
  intros He Hv. unfold sub, SFsub.
  rewrite Z.min_r by lia.
  pose proof (shl_align_value m e en ltac:(lia)) as [Hu _].
  rewrite Hu, shl_align_no_shift by lia. cbn [fst].
  assert (Hp : 0 < 2 ^ en) by (apply Z.pow_pos_nonneg; lia).
  assert (E : Zpos m * 2 ^ (e - en) = Zpos mn).
  { replace e with ((e - en) + en) in Hv at 1 by lia.
    rewrite pow2_split in Hv by lia. nia. }
  rewrite E, Z.sub_diag. reflexivity.
Qed.

Lemma B2Q_abs_ge (s : bool) (m : positive) (e : Z) :
  Zpos m < 2 ^ 24 ->
  (16777216 <= Qabs (B2Q (S754_finite s m e)))%Q ->
  1 <= e /\ 2 ^ 24 <= Zpos m * 2 ^ e.
Proof.
  intros Hm. change (2 ^ 24) with 16777216 in *.
  unfold B2Q. destruct (Z.leb_spec 0 e) as [He | He].
  - unfold Qle, Qabs, inject_Z. cbn [Qnum Qden].
    assert (Hp : 0 < 2 ^ e) by (apply Z.pow_pos_nonneg; lia).
    intros H.
    assert (Hv : 16777216 <= Zpos m * 2 ^ e)
      by (destruct s; cbn [cond_Zopp] in H; lia).
    split; [| exact Hv].
    destruct (Z.eq_dec e 0) as [-> | Ne]; [| lia].
    change (2 ^ 0) with 1 in Hv. lia.
  - unfold Qle, Qabs. cbn [Qnum Qden].
    assert (Hp : 0 < 2 ^ (- e)) by (apply Z.pow_pos_nonneg; lia).
    rewrite Z2Pos.id by assumption.
    intros H. exfalso.
    assert (H1 : 1 <= 2 ^ (- e)) by lia.
    destruct s; cbn [cond_Zopp] in H; nia.
Qed.

(** For an input that is not negative and whose scaled value lies between
    2^24 and 2^31, the scaled value is an integer, the count is that integer,
    its conversion is exact, and the folded position is +0. *)
Lemma fold_period_large (x : float32) :
  is_finite (scaled x) = true ->
  ltb x (of_Q 0.0) = false ->
  (16777216 <= Qabs (B2Q (scaled x)))%Q ->
  (Qabs (B2Q (scaled x)) < 2147483648)%Q ->
  fold_period x = Some (S754_zero false).
Proof.
  intros Hfin Hpos Hge Hlt.
  destruct x as [s | s | | s m e].
  - exfalso. destruct s; vm_compute in Hge; apply Hge; reflexivity.
  - destruct s; discriminate Hfin.
  - discriminate Hfin.
  - assert (Hneg : ltb (S754_finite s m e) (of_Q 0.0) = s)
      by (destruct s; reflexivity).
    rewrite Hneg in Hpos. subst s.
    pose proof (mul_bounded (S754_finite false m e) (of_Q 0.159154943092)) as Hb.
    fold (scaled (S754_finite false m e)) in Hb.
    unfold fold_period. cbv zeta. rewrite Hneg.
    destruct (scaled_finite_cases false m e) as [Hu | [Hu | [m' [e' Hu]]]];
      cbv zeta in Hu; rewrite Hu in *.
    + exfalso. vm_compute in Hge. apply Hge. reflexivity.
    + discriminate Hfin.
    + cbn [mantissa_bounded] in Hb.
      destruct (B2Q_abs_ge false m' e' Hb Hge) as [He' Hv].
      apply (B2Q_abs_lt false m' e' 2147483648) in Hlt.
      rewrite Z.shiftl_mul_pow2 in Hlt by lia.
      unfold to_int32, trunc. cbn [cond_Zopp].
      rewrite Z.shiftl_mul_pow2 by lia.
      assert (Hr : (- 2 ^ 31 <=? Zpos m' * 2 ^ e')
                   && (Zpos m' * 2 ^ e' <? 2 ^ 31) = true).
      { apply andb_true_iff. split; [apply Z.leb_le | apply Z.ltb_lt];
          change (2 ^ 31) with 2147483648; change (2 ^ 24) with 16777216 in Hv;
          lia. }
      rewrite Hr.
      destruct (of_int_multiple m' e' Hb ltac:(lia)
                  ltac:(change (2 ^ 31) with 2147483648; lia))
        as (mn & en & Hof & Hen & Hval).
      rewrite Hof. f_equal. apply sub_same_value; assumption.
Qed.

(** The subtraction of two numbers of the same sign, before rounding. *)
Lemma sub_aligned (s : bool) (m mn : positive) (e en : Z) :
  sub (S754_finite s m e) (S754_finite s mn en)
  = binary_normalize prec emax
      (cond_Zopp s (Zpos m * 2 ^ (e - Z.min e en))
       - cond_Zopp s (Zpos mn * 2 ^ (en - Z.min e en)))
      (Z.min e en) false.
Proof.
  unfold sub, SFsub. cbv zeta.
  pose proof (shl_align_value m e (Z.min e en) ltac:(lia)) as [Hu _].
  pose proof (shl_align_value mn en (Z.min e en) ltac:(lia)) as [Hv _].
  rewrite Hu, Hv. reflexivity.
Qed.

(** The count [- t - 1] of a negative input whose scaled value [- t] is an
    even integer of 25 to 31 binary digits is odd and has one digit too
    many: its conversion gives [- t] or [- t - 2]. *)
Lemma of_int_successor (m : positive) (e : Z) :
  Zpos m < 2 ^ 24 -> 1 <= e ->
  2 ^ 24 <= Zpos m * 2 ^ e -> Zpos m * 2 ^ e + 1 < 2 ^ 31 ->
  exists mn en,
    of_int (- (Zpos m * 2 ^ e) - 1) = S754_finite true mn en
    /\ 1 <= en
    /\ (Zpos mn * 2 ^ en = Zpos m * 2 ^ e
        \/ Zpos mn * 2 ^ en = Zpos m * 2 ^ e + 2).
Proof.
  intros Hm He Hlo Hhi.
  assert (Hpe : 0 < 2 ^ (e - 1)) by (apply Z.pow_pos_nonneg; lia).
  assert (Heven : Zpos m * 2 ^ e = 2 * (Zpos m * 2 ^ (e - 1))).
  { replace e with (1 + (e - 1)) at 1 by lia. rewrite pow2_split by lia.
    change (2 ^ 1) with 2. ring. }
  set (t := Zpos m * 2 ^ e) in *.
  change (2 ^ 24) with 16777216 in Hlo.
  destruct (- t - 1) as [| p | p] eqn:En; try lia.
  assert (Hp : Zpos p = t + 1) by lia.
  pose proof (digits2_pos_bounds p) as [Dlo Dhi].
  set (D := Zpos (digits2_pos p)) in *.
  assert (HD : 25 <= D <= 31).
  { split.
    - destruct (Z.leb_spec 25 D) as [H | H]; [assumption | exfalso].
      assert (2 ^ D <= 2 ^ 24) by (apply Z.pow_le_mono_r; lia).
      change (2 ^ 24) with 16777216 in *. lia.
    - destruct (Z.leb_spec D 31) as [H | H]; [assumption | exfalso].
      assert (2 ^ 31 <= 2 ^ (D - 1)) by (apply Z.pow_le_mono_r; lia). lia. }
  set (k := D - 24).
  assert (Hk : 1 <= k <= e).
  { split; [unfold k; lia |].
    destruct (Z.leb_spec k e) as [H | H]; [assumption | exfalso].
    assert (H1 : 2 ^ (24 + e) <= 2 ^ (D - 1))
      by (apply Z.pow_le_mono_r; unfold k in H; lia).
    replace (24 + e) with (1 + (23 + e)) in H1 by lia.
    rewrite (pow2_split 1) in H1 by lia. change (2 ^ 1) with 2 in H1.
    assert (H2 : t < 2 ^ 24 * 2 ^ e).
    { unfold t. apply Z.mul_lt_mono_pos_r; [apply Z.pow_pos_nonneg; lia | lia]. }
    rewrite <- pow2_split in H2 by lia.
    replace (24 + e) with (1 + (23 + e)) in H2 by lia.
    rewrite (pow2_split 1) in H2 by lia. change (2 ^ 1) with 2 in H2.
    lia. }
  assert (Hpk : 2 <= 2 ^ k).
  { change 2 with (2 ^ 1) at 1. apply Z.pow_le_mono_r; lia. }
  assert (Hmul : t = Zpos m * 2 ^ (e - k) * 2 ^ k).
  { unfold t. rewrite <- Z.mul_assoc, <- pow2_split by lia. do 2 f_equal. lia. }
  assert (Hq : 2 ^ 23 <= Zpos m * 2 ^ (e - k) < 2 ^ 24).
  { replace (D - 1) with (23 + k) in Dlo by (unfold k; lia).
    replace D with (24 + k) in Dhi by (unfold k; lia).
    rewrite pow2_split in Dlo, Dhi by lia.
    change (2 ^ 23) with 8388608 in *. change (2 ^ 24) with 16777216 in *.
    nia. }
  destruct (Zpos m * 2 ^ (e - k)) as [| q | q] eqn:Eq;
    try (change (2 ^ 23) with 8388608 in Hq; lia).
  assert (Hdiv : Zpos p / 2 ^ k = Zpos q)
    by (symmetry; apply (Z.div_unique_pos (Zpos p) (2 ^ k) (Zpos q) 1); lia).
  assert (Hmod : Zpos p mod 2 ^ k = 1)
    by (symmetry; apply (Z.mod_unique_pos (Zpos p) (2 ^ k) (Zpos q) 1); lia).
  assert (Hf : fexp prec emax (Zpos (digits2_pos p) + 0) = k)
    by (fold D; unfold fexp, emin, prec, emax, k; lia).
  assert (Hsteps : exists mn en,
             round_steps prec emax (Zpos p) 0 = (Zpos mn, en)
             /\ 1 <= en <= 8
             /\ (Zpos mn * 2 ^ en = t \/ Zpos mn * 2 ^ en = t + 2)).
  { unfold round_steps, shift_round. cbn [Zdigits2].
    rewrite Hf, Z.sub_0_r, Z.add_0_l.
    destruct (Z.ltb_spec 0 k) as [_ | H]; [| lia]. cbn [fst snd].
    destruct (shr_round_spec (Zpos p) k ltac:(lia) ltac:(lia))
      as [[Hr _] | [Hr Hc]]; rewrite Hr, Hdiv.
    - (* rounded down *)
      exists q, k. split; [| split; [lia | left; lia]].
      unfold shift_trunc. cbn [Zdigits2].
      rewrite (digits2_pos_unique q 24) by (change (24 - 1) with 23; exact Hq).
      replace (fexp prec emax (24 + k) - k) with 0
        by (unfold fexp, emin, prec, emax; lia).
      reflexivity.
    - (* a tie rounded up: one digit is lost *)
      rewrite Hmod in Hc.
      assert (Hk1 : k = 1).
      { destruct (Z.eq_dec k 1) as [E | N]; [assumption | exfalso].
        assert (2 ^ 2 <= 2 ^ k) by (apply Z.pow_le_mono_r; lia).
        change (2 ^ 2) with 4 in *. lia. }
      rewrite Hk1 in *. change (2 ^ 1) with 2 in *.
      change (2 ^ 24) with 16777216 in Hq.
      destruct (Z.eq_dec (Zpos q + 1) 16777216) as [Ec | Nc].
      + (* the carry *)
        exists 8388608%positive, 2. split; [| split; [lia | right]].
        * rewrite Ec. reflexivity.
        * change (2 ^ 2) with 4. lia.
      + exists (Pos.succ q), 1.
        split; [| split; [lia | right; rewrite Pos2Z.inj_succ; lia]].
        replace (Zpos q + 1) with (Zpos (Pos.succ q)) by lia.
        unfold shift_trunc. cbn [Zdigits2].
        rewrite (digits2_pos_unique (Pos.succ q) 24)
          by (change (24 - 1) with 23; change (2 ^ 23) with 8388608 in *;
              change (2 ^ 24) with 16777216; lia).
        replace (fexp prec emax (24 + 1) - 1) with 0
          by (unfold fexp, emin, prec, emax; lia).
        reflexivity. }
  destruct Hsteps as (mn & en & Hsteps & Hen & Hval).
  exists mn, en. split; [| split; [lia | exact Hval]].
  unfold of_int, binary_normalize, binary_round.
  rewrite Hf, shl_align_no_shift by lia.
  rewrite binary_round_aux_steps by lia.
  rewrite Hsteps. unfold pack. cbn [fst snd].
  destruct (Z.leb_spec en (emax - prec)) as [_ | H];
    [reflexivity | unfold emax, prec in H; lia].
Qed.

(** For a negative input whose scaled value lies between 2^24 and 2^31 in
    magnitude the folded position is +0 or 2.0. *)
Lemma fold_period_large_negative (x : float32) :
  is_finite (scaled x) = true ->
  ltb x (of_Q 0.0) = true ->
  (16777216 <= Qabs (B2Q (scaled x)))%Q ->
  (Qabs (B2Q (scaled x)) < 2147483648)%Q ->
  fold_period x = Some (S754_zero false)
  \/ fold_period x = Some (of_Q 2.0).
Proof.
  intros Hfin Hneg Hge Hlt.
  destruct x as [s | s | | s m e].
  - destruct s; discriminate Hneg.
  - destruct s; discriminate Hfin.
  - discriminate Hfin.
  - assert (Hs : ltb (S754_finite s m e) (of_Q 0.0) = s)
      by (destruct s; reflexivity).
    rewrite Hs in Hneg. subst s.
    pose proof (mul_bounded (S754_finite true m e) (of_Q 0.159154943092)) as Hb.
    fold (scaled (S754_finite true m e)) in Hb.
    unfold fold_period. cbv zeta. rewrite Hs.
    destruct (scaled_finite_cases true m e) as [Hu | [Hu | [m' [e' Hu]]]];
      cbv zeta in Hu; rewrite Hu in *.
    + exfalso. vm_compute in Hge. apply Hge. reflexivity.
    + discriminate Hfin.
    + cbn [mantissa_bounded] in Hb.
      destruct (B2Q_abs_ge true m' e' Hb Hge) as [He' Hv].
      apply (B2Q_abs_lt true m' e' 2147483648) in Hlt.
      rewrite Z.shiftl_mul_pow2 in Hlt by lia.
      unfold to_int32, trunc. cbn [cond_Zopp].
      rewrite Z.shiftl_mul_pow2 by lia.
      change (2 ^ 24) with 16777216 in Hv.
      assert (Hr : (- 2 ^ 31 <=? - (Zpos m' * 2 ^ e'))
                   && (- (Zpos m' * 2 ^ e') <? 2 ^ 31) = true).
      { apply andb_true_iff. split; [apply Z.leb_le | apply Z.ltb_lt];
          change (2 ^ 31) with 2147483648; lia. }
      rewrite Hr. unfold int32_pred.
      destruct (Z.leb_spec (- 2 ^ 31) (- (Zpos m' * 2 ^ e') - 1)) as [_ | H];
        [| change (2 ^ 31) with 2147483648 in H; lia].
      assert (Heven : Zpos m' * 2 ^ e' = 2 * (Zpos m' * 2 ^ (e' - 1))).
      { replace e' with (1 + (e' - 1)) at 1 by lia. rewrite pow2_split by lia.
        change (2 ^ 1) with 2. ring. }
      destruct (of_int_successor m' e' Hb He'
                  ltac:(change (2 ^ 24) with 16777216; lia)
                  ltac:(change (2 ^ 31) with 2147483648; lia))
        as (mn & en & Hof & Hen & Hval).
      clear Heven.
      rewrite Hof, sub_aligned. cbn [cond_Zopp].
      set (ez := Z.min e' en).
      assert (Hez : 1 <= ez) by (unfold ez; lia).
      assert (Hpz : 0 < 2 ^ ez) by (apply Z.pow_pos_nonneg; lia).
      assert (Eu : Zpos m' * 2 ^ e' = Zpos m' * 2 ^ (e' - ez) * 2 ^ ez).
      { rewrite <- Z.mul_assoc, <- pow2_split by (unfold ez; lia).
        do 2 f_equal. lia. }
      assert (Ev : Zpos mn * 2 ^ en = Zpos mn * 2 ^ (en - ez) * 2 ^ ez).
      { rewrite <- Z.mul_assoc, <- pow2_split by (unfold ez; lia).
        do 2 f_equal. lia. }
      set (a := Zpos m' * 2 ^ (e' - ez)) in *.
      set (b := Zpos mn * 2 ^ (en - ez)) in *.
      destruct Hval as [Hval | Hval].
      * left.
        assert (Hab : b * 2 ^ ez = a * 2 ^ ez) by lia.
        apply Z.mul_reg_r in Hab; [| lia].
        replace (- a - - b) with 0 by lia. reflexivity.
      * right.
        assert (Hd : (b - a) * 2 ^ ez = 2)
          by (rewrite Z.mul_sub_distr_r; lia).
        assert (Hba : 1 <= b - a).
        { destruct (Z.le_gt_cases (b - a) 0) as [H0 | H0]; [exfalso | lia].
          pose proof (Z.mul_nonpos_nonneg (b - a) (2 ^ ez) H0 ltac:(lia)). lia. }
        assert (Hez1 : ez = 1).
        { destruct (Z.eq_dec ez 1) as [E | N]; [assumption | exfalso].
          assert (H4 : 2 ^ 2 <= 2 ^ ez) by (apply Z.pow_le_mono_r; lia).
          change (2 ^ 2) with 4 in H4.
          pose proof (Z.mul_le_mono_nonneg_r 1 (b - a) (2 ^ ez) ltac:(lia) Hba).
          lia. }
        rewrite Hez1 in *. change (2 ^ 1) with 2 in Hd.
        replace (- a - - b) with 1 by lia.
        vm_compute. reflexivity.
Qed.

Local Open Scope R_scope.

(** At 10^9 the scaled value is 159154944, past 2^24: the folded position is
    +0 and the routine returns +0. *)
Lemma result_at_1e9 :
  scaled (of_Q 1e9) = of_Q 159154944
  /\ fold_period (of_Q 1e9) = Some (S754_zero false)
  /\ result (of_Q 1e9) = Some (S754_zero false).
Proof. repeat split; vm_compute; reflexivity. Qed.

(** ** The folded position, returning calls and their accuracy *)

Lemma scaled_below_real (x : float32) :
  (Qabs (B2Q (scaled x)) < 16777216)%Q -> Rabs (B2R (scaled x)) < 16777216.
Proof.
  intros Hlt. apply Qlt_Rlt in Hlt. rewrite Q2R_Qabs in Hlt.
  replace (Q2R 16777216) with 16777216 in Hlt by (unfold Q2R; simpl; lra).
  exact Hlt.
Qed.

Lemma below_one_rational (f : float32) : B2R f < 1 -> (B2Q f < 1)%Q.
Proof.
  intros H. apply Rlt_Qlt.
  replace (Q2R 1) with 1 by (unfold Q2R; simpl; lra). exact H.
Qed.

(** Folding wherever it is defined: the scaled value [u] is finite with
    [|u| < 2^31].  The position is a number of [0, 1] or is 2.0; it is in
    [0, 1] when [|u| < 2^24], and below 1 when the input is not negative. *)
Lemma fold_period_domain (x : float32) :
  is_finite (scaled x) = true ->
  (Qabs (B2Q (scaled x)) < 2147483648)%Q ->
  exists in_,
    fold_period x = Some in_
    /\ (in_0_pow2 0 in_ \/ in_ = of_Q 2.0)
    /\ ((Qabs (B2Q (scaled x)) < 16777216)%Q -> in_0_pow2 0 in_)
    /\ (ltb x (of_Q 0.0) = false -> in_0_pow2 0 in_ /\ B2R in_ < 1).
Proof.
  intros Hfin Hlt.
  destruct (Qlt_le_dec (Qabs (B2Q (scaled x))) 16777216) as [Hs | Hl].
  - destruct (fold_period_shape x Hfin Hs) as [in_ [Hfold Hshape]].
    exists in_. split; [assumption |]. split; [left; assumption |].
    split; [intros _; assumption |].
    intros Hpos. split; [assumption |].
    exact (proj2 (fold_not_negative x in_ Hfin (scaled_below_real x Hs)
                    Hpos Hfold)).
  - destruct (ltb x (of_Q 0.0)) eqn:Hsign.
    + destruct (fold_period_large_negative x Hfin Hsign Hl Hlt) as [H0 | H2].
      * exists (S754_zero false). split; [assumption |].
        split; [left; exact I |]. split; [intros _; exact I |].
        intros H. discriminate H.
      * exists (of_Q 2.0). split; [assumption |].
        split; [right; reflexivity |].
        split; [intros Hs; exfalso; exact (Qlt_not_le _ _ Hs Hl) |].
        intros H. discriminate H.
    + exists (S754_zero false).
      split; [exact (fold_period_large x Hfin Hsign Hl Hlt) |].
      split; [left; exact I |]. split; [intros _; exact I |].
      intros _. split; [exact I |]. rewrite B2R_zero. lra.
Qed.

(** At the position 2.0 the index is clamped to 256 and the reads leave the
    table. *)
Lemma position_two_undefined (x : float32) :
  fold_period x = Some (of_Q 2.0) -> result x = None.
Proof.
  intros Hfold. destruct (result x) as [y |] eqn:Hres; [exfalso | reflexivity].
  destruct (result_stages x y Hres)
    as (in_ & index & fract & a & b & c & d & Hf & Hloc & Hi0 & Hw & _).
  rewrite Hfold in Hf. apply Some_eq in Hf. subst in_.
  assert (E : locate (of_Q 2.0) = Some (256%Z, S754_zero false))
    by (vm_compute; reflexivity).
  rewrite E in Hloc. apply Some_eq in Hloc. apply pair_eq in Hloc.
  destruct Hloc as [<- _].
  pose proof (window_length _ _ _ _ _ Hw) as Hk.
  change (Z.to_nat 256) with 256%nat in Hk. lia.
Qed.

(** C3 (amended): for every input whose scaled value [u] is finite with
    [|u| < 2^31], the count [n] is defined and the folded position
    [in = u - n] is a finite number; for an input that is not negative it
    lies in the half-open interval [0, 1); for a negative input with
    [|u| < 2^24] it lies in the closed interval [0, 1], the value 1 being
    reached; for the other negative inputs it lies in [0, 1] or is 2. *)
Theorem fold_period_unit_interval (x : float32) :
  is_finite (scaled x) = true ->
  (Qabs (B2Q (scaled x)) < 2147483648)%Q ->
  exists in_,
    fold_period x = Some in_
    /\ is_finite in_ = true
    /\ ((0 <= B2Q in_ <= 1)%Q \/ (B2Q in_ == 2)%Q)
    /\ ((Qabs (B2Q (scaled x)) < 16777216)%Q -> (0 <= B2Q in_ <= 1)%Q)
    /\ (ltb x (of_Q 0.0) = false -> (0 <= B2Q in_ < 1)%Q).
Proof.
  intros Hfin Hlt.
  destruct (fold_period_domain x Hfin Hlt)
    as (in_ & Hfold & Hcases & Hsmall & Hopen).
  exists in_. split; [assumption |].
  split; [| split; [| split]].
  - destruct Hcases as [Hshape | ->];
      [exact (proj1 (in_0_pow2_unit_value in_ Hshape)) | reflexivity].
  - destruct Hcases as [Hshape | ->];
      [left; exact (proj2 (in_0_pow2_unit_value in_ Hshape))
      | right; vm_compute; reflexivity].
  - intros Hs. exact (proj2 (in_0_pow2_unit_value in_ (Hsmall Hs))).
  - intros Hpos. destruct (Hopen Hpos) as [Hshape Hone].
    split; [exact (proj1 (proj2 (in_0_pow2_unit_value in_ Hshape))) |].
    apply below_one_rational, Hone.
Qed.

Lemma fold_period_unit_interval_witness :
  exists in_,
    fold_period (of_Q 1.5707963) = Some in_
    /\ is_finite in_ = true
    /\ (0 <= B2Q in_ < 1)%Q.
Proof.
  destruct (fold_period_unit_interval (of_Q 1.5707963))
    as (in_ & Hfold & Hfin & _ & _ & Hopen);
    [vm_compute; reflexivity | vm_compute; reflexivity |].
  exists in_. split; [exact Hfold |]. split; [exact Hfin |].
  apply Hopen. vm_compute. reflexivity.
Defined.

(** A value returned from a position of [0, 1] is a finite number. *)
Lemma returned_value_finite (x in_ y : float32) :
  fold_period x = Some in_ ->
  in_0_pow2 0 in_ ->
  result x = Some y ->
  is_finite y = true.
Proof.
  intros Hfold Hshape Hres.
  destruct (result_stages x y Hres)
    as (in' & index & fract & a & b & c & d & Hf' & Hloc & Hi0 & Hw & ->).
  rewrite Hfold in Hf'. apply Some_eq in Hf'. subst in'.
  destruct (locate_real in_ index fract Hshape Hloc) as (Hffin & HF & _).
  destruct (window_bounded _ _ _ _ _ Hw)
    as ((Ha1 & Ha2) & (Hb1 & Hb2) & (Hc1 & Hc2) & (Hd1 & Hd2)).
  assert (HFabs : Rabs (B2R fract) <= 1) by (apply Rabs_le; lra).
  exact (proj1 (blend_rounding fract a b c d
                  Hffin HFabs Ha1 Ha2 Hb1 Hb2 Hc1 Hc2 Hd1 Hd2)).
Qed.

(** From a position of [0, 1] the call returns, and returns a finite number,
    exactly when the position is below 1. *)
Lemma returns_finite_iff_below_one (x in_ : float32) :
  fold_period x = Some in_ ->
  in_0_pow2 0 in_ ->
  (exists y, result x = Some y /\ is_finite y = true) <-> B2R in_ < 1.
Proof.
  intros Hfold Hshape.
  pose proof (fold_bounded x in_ Hfold) as Hb.
  destruct (in_0_pow2_real in_ Hshape) as [_ [_ Hle]].
  split.
  - intros [y [Hy _]].
    destruct (result_stages x y Hy)
      as (in' & index & fract & a & b & c & d & Hf' & Hloc & Hi0 & Hw & _).
    rewrite Hfold in Hf'. apply Some_eq in Hf'. subst in'.
    destruct (Rlt_or_le (B2R in_) 1) as [Hlt1 | Hge]; [assumption | exfalso].
    assert (Hone : B2R in_ = 1) by lra.
    pose proof (locate_one in_ index fract Hshape Hb Hone Hloc) as H256.
    pose proof (window_length _ _ _ _ _ Hw) as Hk. subst index.
    change (Z.to_nat 256) with 256%nat in Hk. lia.
  - intros Hlt1.
    destruct (locate_shape in_ Hshape) as [index [fract [Hloc _]]].
    pose proof (locate_below_one in_ index fract Hshape Hb Hlt1 Hloc) as Hidx.
    destruct (call_returns x in_ index fract Hfold Hloc Hidx) as [y Hy].
    exists y. split; [assumption |].
    exact (returned_value_finite x in_ y Hfold Hshape Hy).
Qed.

Lemma B2R_two : B2R (of_Q 2.0) = 2.
Proof.
  assert (E : (B2Q (of_Q 2.0) == 2)%Q) by (vm_compute; reflexivity).
  unfold B2R. rewrite (Qeq_eqR _ _ E). unfold Q2R. cbn [Qnum Qden]. lra.
Qed.

(** C2 (amended): for every input whose scaled value [u] is finite with
    [|u| < 2^31], folding is defined and the call returns a finite number
    exactly when the folded position is below 1; every such input that is
    not negative is in this case, so that on it the routine returns a
    finite number. *)
Theorem arm_sin_f32_defined (x : float32) :
  is_finite (scaled x) = true ->
  (Qabs (B2Q (scaled x)) < 2147483648)%Q ->
  exists in_,
    fold_period x = Some in_
    /\ ((exists y, result x = Some y /\ is_finite y = true) <-> B2R in_ < 1)
    /\ (ltb x (of_Q 0.0) = false ->
        exists y, result x = Some y /\ is_finite y = true).
Proof.
  intros Hfin Hlt.
  destruct (fold_period_domain x Hfin Hlt)
    as (in_ & Hfold & Hcases & _ & Hopen).
  exists in_. split; [assumption |]. split.
  - destruct Hcases as [Hshape | Htwo].
    + exact (returns_finite_iff_below_one x in_ Hfold Hshape).
    + subst in_. split.
      * intros [y [Hy _]].
        rewrite (position_two_undefined x Hfold) in Hy. discriminate Hy.
      * rewrite B2R_two. lra.
  - intros Hpos. destruct (Hopen Hpos) as [Hshape Hone].
    exact (proj2 (returns_finite_iff_below_one x in_ Hfold Hshape) Hone).
Qed.

Lemma arm_sin_f32_defined_witness :
  exists in_,
    fold_period (of_Q 1.5707963) = Some in_
    /\ B2R in_ < 1
    /\ exists y, result (of_Q 1.5707963) = Some y /\ is_finite y = true.
Proof.
  destruct (arm_sin_f32_defined (of_Q 1.5707963))
    as (in_ & Hfold & Hiff & Hret);
    [vm_compute; reflexivity | vm_compute; reflexivity |].
  assert (Hy : exists y,
             result (of_Q 1.5707963) = Some y /\ is_finite y = true)
    by (apply Hret; vm_compute; reflexivity).
  exists in_. split; [exact Hfold |]. split; [apply Hiff; exact Hy | exact Hy].
Defined.

(** The accuracy of 0.0001 is lost soon after 960: at
    x = 1382.2860107421875 = 11323687 / 8192 the value returned is more than
    0.0001 away from the sine. *)
Lemma error_at_1382 :
  ~ exists y, result (of_Q 1382.2860107421875) = Some y
              /\ Rabs (B2R y - sin (11323687 / 8192)) <= 1 / 10000.
Proof.
  intros [y [Hy Hle]].
  destruct (inaccurate_sound 0.0001 1 22 (of_Q 1382.2860107421875))
    as [y' [Hy' Hgt]]; [vm_compute; reflexivity |].
  rewrite Hy in Hy'. apply Some_eq in Hy'. subst y'.
  assert (E : (B2Q (of_Q 1382.2860107421875) == 11323687 # 8192)%Q)
    by (vm_compute; reflexivity).
  unfold B2R in Hgt at 2. rewrite (Qeq_eqR _ _ E) in Hgt.
  replace (Q2R (11323687 # 8192)) with (11323687 / 8192) in Hgt
    by (unfold Q2R; cbn [Qnum Qden]; lra).
  replace (Q2R 0.0001) with (1 / 10000) in Hgt
    by (unfold Q2R; cbn [Qnum Qden]; lra).
  lra.
Qed.

(** C7 (amended): for every finite [x] with [|x| <= 960], more than 300
    periods, the routine returns whenever [x] is not negative, and in
    general exactly when the folded position is below 1; every value it
    returns is a finite number within 0.0001 of the sine of [x]. *)
Theorem arm_sin_f32_within_1e4 (x : float32) :
  is_finite x = true ->
  Rabs (B2R x) <= 960 ->
  (ltb x (of_Q 0.0) = false ->
   exists y,
     result x = Some y
     /\ is_finite y = true
     /\ Rabs (B2R y - sin (B2R x)) <= 1 / 10000)
  /\ (forall y, result x = Some y ->
       is_finite y = true /\ Rabs (B2R y - sin (B2R x)) <= 1 / 10000)
  /\ (exists in_,
        fold_period x = Some in_
        /\ ((exists y, result x = Some y) <-> B2R in_ < 1)).
Proof.
  intros Hfin Hx.
  assert (Hx8 : Rabs (B2R x) <= 100000000) by lra.
  destruct (scaled_in_domain x Hfin Hx8) as (Hufin & HU & HUQ).
  destruct (fold_period_shape x Hufin HUQ) as [in_ [Hfold Hshape]].
  pose proof (returns_iff_below_one x in_ Hfin Hx8 Hfold) as Hiff.
  assert (Hacc : forall y, result x = Some y ->
            is_finite y = true /\ Rabs (B2R y - sin (B2R x)) <= 1 / 10000).
  { intros y Hy.
    destruct (call_stages x y Hfin Hx8 Hy) as (Hyfin & phi & H1 & H2).
    split; [assumption |].
    apply Rabs_le_between in H1, H2. apply Rabs_le. lra. }
  split; [| split].
  - intros Hpos.
    destruct (proj2 Hiff
                (proj2 (fold_not_negative x in_ Hufin HU Hpos Hfold)))
      as [y Hy].
    exists y. split; [exact Hy | exact (Hacc y Hy)].
  - exact Hacc.
  - exists in_. split; assumption.
Qed.

Lemma arm_sin_f32_within_1e4_witness :
  exists y,
    result one32 = Some y
    /\ is_finite y = true
    /\ Rabs (B2R y - sin (B2R one32)) <= 1 / 10000.
Proof.
  destruct (arm_sin_f32_within_1e4 one32) as (Hret & _).
  - reflexivity.
  - rewrite B2R_one32, Rabs_R1. lra.
  - apply Hret. reflexivity.
Defined.
